(** * RetroGrade: the Applesoft BASIC toolchain and its terminal

    A shallow embedding of [BasicTokenizer], [BasicParser],
    [BasicInterpreter], [BasicScreen] with its input mode, and the
    output checks of [TutorialValidator], followed by the properties
    established about them.

    JavaScript numbers are IEEE-754 binary64 values; they are modelled
    with [spec_float] at precision 53 and maximal exponent 1024.  The
    interpreter's [program] (a [Map]) and [variables] (a plain object)
    are finite maps.  A statement returns the interpreter's new state
    together with the way it completed: normally, by a thrown error, or
    not at all (a RUN that loops, an INPUT that nobody answers).  The
    engine's printing of numbers with a fraction and its reading of
    numbers from text are left open, as the class [JS.Runtime]. *)

From Stdlib Require Import ZArith Bool Ascii String List Lia Btauto.
From Stdlib Require Import Floats.SpecFloat.
From stdpp Require Import base tactics option list gmap strings pretty.

Local Open Scope string_scope.

(** ** The host language: numbers, values, coercions *)

Module JS.

Abbreviation number := spec_float.

Definition prec : Z := 53.
Definition emax : Z := 1024.

Definition NaN : number := S754_nan.
Definition of_Z (z : Z) : number := binary_normalize prec emax z 0 false.

Definition add (a b : number) : number := SFadd prec emax a b.
Definition sub (a b : number) : number := SFsub prec emax a b.
Definition mul (a b : number) : number := SFmul prec emax a b.
Definition div (a b : number) : number := SFdiv prec emax a b.
Definition neg (a : number) : number := SFopp a.

(** [a === b], [a < b] and [a <= b] on numbers: false as soon as one
    side is NaN; the two zeros are equal. *)
Definition eqb (a b : number) : bool := SFeqb a b.
Definition ltb (a b : number) : bool := SFltb a b.
Definition leb (a b : number) : bool := SFleb a b.

Definition is_nan (a : number) : bool :=
  match a with S754_nan => true | _ => false end.

Definition is_zero (a : number) : bool :=
  match a with S754_zero _ => true | _ => false end.

(** The mathematical value of a number when it is an integer. *)
Definition to_integer (a : number) : option Z :=
  match a with
  | S754_zero _ => Some 0%Z
  | S754_finite s m e =>
      let z := if s then Z.neg m else Z.pos m in
      match e with
      | Z0 => Some z
      | Zpos p => Some (z * 2 ^ Zpos p)%Z
      | Zneg p =>
          if (Z.pos m mod 2 ^ Zpos p =? 0)%Z then Some (z / 2 ^ Zpos p)%Z
          else None
      end
  | _ => None
  end.

(** The parts of the engine that are not written out here: the
    shortest-digits printing of numbers that are not small integers,
    the StringToNumber grammar, and [parseFloat]. *)
Class Runtime := {
  number_to_string_other : number → string;
  string_to_number : string → number;
  parseFloat : string → number
}.

(** [Number::toString]: written out for NaN, the infinities, the zeros
    and the integers below 10^21; the engine's digits otherwise. *)
Definition number_to_string `{Runtime} (a : number) : string :=
  match a with
  | S754_nan => "NaN"
  | S754_infinity false => "Infinity"
  | S754_infinity true => "-Infinity"
  | S754_zero _ => "0"
  | S754_finite _ _ _ =>
      match to_integer a with
      | Some z =>
          if (Z.abs z <? 10 ^ 21)%Z then pretty z
          else number_to_string_other a
      | None => number_to_string_other a
      end
  end.

(** Runtime values met by the interpreter: numbers, strings, and
    [undefined] (the result of reading an absent property). *)
Inductive value :=
| VNum (n : number)
| VStr (s : string)
| VUndefined.

Definition ToString `{Runtime} (v : value) : string :=
  match v with
  | VNum n => number_to_string n
  | VStr s => s
  | VUndefined => "undefined"
  end.

Definition ToNumber `{Runtime} (v : value) : number :=
  match v with
  | VNum n => n
  | VStr s => string_to_number s
  | VUndefined => NaN
  end.

Definition ToBoolean (v : value) : bool :=
  match v with
  | VNum n => negb (is_zero n || is_nan n)
  | VStr s => negb (String.eqb s "")
  | VUndefined => false
  end.

(** [l + r]: concatenation as soon as one operand is a string. *)
Definition plus `{Runtime} (l r : value) : value :=
  match l, r with
  | VStr _, _ | _, VStr _ => VStr (ToString l ++ ToString r)
  | _, _ => VNum (add (ToNumber l) (ToNumber r))
  end.

Definition minus `{Runtime} (l r : value) : value :=
  VNum (sub (ToNumber l) (ToNumber r)).
Definition times `{Runtime} (l r : value) : value :=
  VNum (mul (ToNumber l) (ToNumber r)).
Definition divide `{Runtime} (l r : value) : value :=
  VNum (div (ToNumber l) (ToNumber r)).
Definition negate `{Runtime} (v : value) : value :=
  VNum (neg (ToNumber v)).

(** [l === r]. *)
Definition strict_equal (l r : value) : bool :=
  match l, r with
  | VNum a, VNum b => eqb a b
  | VStr a, VStr b => String.eqb a b
  | VUndefined, VUndefined => true
  | _, _ => false
  end.

(** [l < r]: code-unit order on two strings, numeric order otherwise. *)
Definition less_than `{Runtime} (l r : value) : bool :=
  match l, r with
  | VStr a, VStr b => String.ltb a b
  | _, _ => ltb (ToNumber l) (ToNumber r)
  end.

(** [l <= r]. *)
Definition less_equal `{Runtime} (l r : value) : bool :=
  match l, r with
  | VStr a, VStr b => negb (String.ltb b a)
  | _, _ => leb (ToNumber l) (ToNumber r)
  end.

(** Keys of a [Map] are compared by SameValueZero: the two zeros are
    one key. *)
Definition Map_key (a : number) : number :=
  match a with
  | S754_zero _ => S754_zero false
  | _ => a
  end.

#[global] Instance number_eq_dec : EqDecision number.
Proof. solve_decision. Defined.

Definition number_encode (a : number)
  : bool + bool + unit + bool * positive * Z :=
  match a with
  | S754_zero s => inl (inl (inl s))
  | S754_infinity s => inl (inl (inr s))
  | S754_nan => inl (inr ())
  | S754_finite s m e => inr (s, m, e)
  end.

Definition number_decode (c : bool + bool + unit + bool * positive * Z)
  : number :=
  match c with
  | inl (inl (inl s)) => S754_zero s
  | inl (inl (inr s)) => S754_infinity s
  | inl (inr _) => S754_nan
  | inr (s, m, e) => S754_finite s m e
  end.

#[global] Instance number_countable : Countable number.
Proof.
  apply (inj_countable' number_encode number_decode).
  by intros [].
Defined.

(** [keys.sort((a, b) => a - b)], as an insertion sort: [a] goes before
    [b] when the comparator's result is negative. *)
Fixpoint sort_insert (a : number) (l : list number) : list number :=
  match l with
  | [] => [a]
  | b :: l' =>
      if ltb (sub a b) (of_Z 0) then a :: l else b :: sort_insert a l'
  end.

Definition sort_ascending (l : list number) : list number :=
  foldr sort_insert [] l.

(** [lines.indexOf(x)]: the first index holding a number strictly equal
    to [x]. *)
Fixpoint indexOf (l : list number) (x : number) : option nat :=
  match l with
  | [] => None
  | y :: l' => if eqb y x then Some 0%nat else S <$> indexOf l' x
  end.

(** [s.endsWith(suffix)] and [s.includes(sub)] on strings. *)
Definition endsWith (s suffix : string) : bool :=
  String.prefix (String.rev suffix) (String.rev s).

Fixpoint string_includes (s sub : string) : bool :=
  String.prefix sub s ||
  match s with
  | EmptyString => false
  | String _ s' => string_includes s' sub
  end.

(** How a statement or an expression completes: normally, by a thrown
    [Error] with its message, or not at all. *)
Inductive pending := OutOfFuel | AwaitingInput.

Inductive completion (A : Type) :=
| Normal (a : A)
| Thrown (message : string)
| Never (why : pending).
Arguments Normal {A} a.
Arguments Thrown {A} message.
Arguments Never {A} why.

End JS.


(** ** BasicTokenizer: lexical analysis of one source line *)

Module BasicTokenizer.
Import JS.

(** A token [{ type, value, position }]; the type and the value it
    carries are one tagged union. *)
Inductive token_type :=
| NUMBER (value : number)
| STRING (value : string)
| KEYWORD (value : string)
| IDENTIFIER (value : string)
| OPERATOR (value : string)
| PUNCTUATION (value : string)
| EOL
| EOF.

Record token := createToken { type : token_type; position : nat }.

(** The [type] field as the string the error messages print. *)
Definition type_name (t : token_type) : string :=
  match t with
  | NUMBER _ => "NUMBER"
  | STRING _ => "STRING"
  | KEYWORD _ => "KEYWORD"
  | IDENTIFIER _ => "IDENTIFIER"
  | OPERATOR _ => "OPERATOR"
  | PUNCTUATION _ => "PUNCTUATION"
  | EOL => "EOL"
  | EOF => "EOF"
  end.

Definition KEYWORDS : list string :=
  ["PRINT"; "LET"; "INPUT"; "IF"; "THEN"; "GOTO"; "GOSUB"; "RETURN";
   "FOR"; "TO"; "STEP"; "NEXT"; "REM"; "END"; "LIST"; "RUN"; "NEW";
   "HOME"; "AND"; "OR"; "NOT"].

Definition OPERATORS : list string :=
  ["<>"; "<="; ">="; "="; "<"; ">"; "+"; "-"; "*"; "/"; "^"].

Definition PUNCTUATION_CHARS : list string := ["("; ")"; ","; ";"; ":"].

(** [Array.prototype.includes] on a list of strings. *)
Definition includes (l : list string) (s : string) : bool :=
  existsb (String.eqb s) l.

(** Character classes of the regular expressions [\s], [\d], [[A-Za-z]]
    and [[A-Za-z0-9$]], on code units below 256. *)
Definition is_whitespace (c : ascii) : bool :=
  let n := nat_of_ascii c in
  (((9 <=? n) && (n <=? 13)) || (n =? 32) || (n =? 160))%nat.

Definition is_digit (c : ascii) : bool :=
  let n := nat_of_ascii c in ((48 <=? n) && (n <=? 57))%nat.

Definition is_upper (c : ascii) : bool :=
  let n := nat_of_ascii c in ((65 <=? n) && (n <=? 90))%nat.

Definition is_lower (c : ascii) : bool :=
  let n := nat_of_ascii c in ((97 <=? n) && (n <=? 122))%nat.

(** The character that opens and closes a string literal. *)
Definition double_quote : ascii := ascii_of_nat 34.

Definition is_letter (c : ascii) : bool := is_upper c || is_lower c.

Definition is_word_char (c : ascii) : bool :=
  is_letter c || is_digit c || Ascii.eqb c "$"%char.

Definition upper_char (c : ascii) : ascii :=
  if is_lower c then ascii_of_nat (nat_of_ascii c - 32)%nat else c.

(** [String.prototype.toUpperCase] on the characters a word is made of. *)
Fixpoint toUpperCase (s : string) : string :=
  match s with
  | EmptyString => EmptyString
  | String c s' => String (upper_char c) (toUpperCase s')
  end.

Fixpoint trim_start (s : string) : string :=
  match s with
  | String c s' => if is_whitespace c then trim_start s' else s
  | EmptyString => EmptyString
  end.

(** [String.prototype.trim]. *)
Definition trim (s : string) : string :=
  String.rev (trim_start (String.rev (trim_start s))).

Definition isKeyword (word : string) : bool :=
  includes KEYWORDS (toUpperCase word).

(** [parseInt(numStr, 10)] on a run of decimal digits. *)
Definition digit_value (c : ascii) : Z := Z.of_nat (nat_of_ascii c - 48)%nat.

Fixpoint digits_value (acc : Z) (s : string) : Z :=
  match s with
  | EmptyString => acc
  | String c s' => digits_value (10 * acc + digit_value c) s'
  end.

Definition parseInt (numStr : string) : number := of_Z (digits_value 0 numStr).

(** The scanning loop of [readNumber], on the text from [startPos] on:
    the characters read and what is left after them. *)
Fixpoint readNumber_loop (s : string) (hasDecimal : bool)
  : string * bool * string :=
  match s with
  | EmptyString => (EmptyString, hasDecimal, EmptyString)
  | String char s' =>
      if is_digit char then
        let '(numStr, d, rest) := readNumber_loop s' hasDecimal in
        (String char numStr, d, rest)
      else if Ascii.eqb char "."%char && negb hasDecimal then
        let '(numStr, d, rest) := readNumber_loop s' true in
        (String char numStr, d, rest)
      else (EmptyString, hasDecimal, s)
  end.

Definition readNumber `{Runtime} (s : string) : number * string :=
  let '(numStr, hasDecimal, rest) := readNumber_loop s false in
  (if hasDecimal then parseFloat numStr else parseInt numStr, rest).

(** [readString], on the text after the opening quote: an unterminated
    string runs to the end of the line. *)
Fixpoint readString (s : string) : string * string :=
  match s with
  | EmptyString => (EmptyString, EmptyString)
  | String char s' =>
      if Ascii.eqb char double_quote then (EmptyString, s')
      else let '(value, rest) := readString s' in (String char value, rest)
  end.

Fixpoint readWord (s : string) : string * string :=
  match s with
  | EmptyString => (EmptyString, EmptyString)
  | String char s' =>
      if is_word_char char then
        let '(value, rest) := readWord s' in (String char value, rest)
      else (EmptyString, s)
  end.

(** [source.substring(startPos, startPos + 2)] and what follows it. *)
Definition take2 (s : string) : string * string :=
  match s with
  | String a (String b rest) => (String a (String b EmptyString), rest)
  | String a EmptyString => (String a EmptyString, EmptyString)
  | EmptyString => (EmptyString, EmptyString)
  end.

(** [readOperator]: the operator, the text left, and how far [endPos]
    is from [startPos]. *)
Definition readOperator (s : string) : option (string * string * nat) :=
  let '(twoChar, rest2) := take2 s in
  if includes OPERATORS twoChar then Some (twoChar, rest2, 2)
  else
    match s with
    | String oneChar rest1 =>
        if includes OPERATORS (String oneChar EmptyString)
        then Some (String oneChar EmptyString, rest1, 1)
        else None
    | EmptyString => None
    end.

(** The [while (pos < source.length)] loop; [s] is the text from [pos]
    on.  Every round consumes a character, so [fuel] is only the
    length of the line. *)
Fixpoint tokenize_loop `{Runtime} (fuel : nat) (s : string) (pos : nat)
  : completion (list token) :=
  match s with
  | EmptyString => Normal [createToken EOL pos]
  | String char s' =>
      match fuel with
      | O => Never OutOfFuel
      | S fuel' =>
          let continue (t : token_type) (rest : string) (endPos : nat) :=
            match tokenize_loop fuel' rest endPos with
            | Normal tokens => Normal (createToken t pos :: tokens)
            | other => other
            end in
          let consumed (rest : string) : nat :=
            (String.length s - String.length rest)%nat in
          if is_whitespace char then tokenize_loop fuel' s' (pos + 1)
          else if is_digit char then
            let '(value, rest) := readNumber s in
            continue (NUMBER value) rest (pos + consumed rest)
          else if Ascii.eqb char double_quote then
            let '(value, rest) := readString s' in
            continue (STRING value) rest (pos + consumed rest)
          else if is_letter char then
            let '(value, rest) := readWord s in
            let upperWord := toUpperCase value in
            if isKeyword upperWord
            then continue (KEYWORD upperWord) rest (pos + consumed rest)
            else continue (IDENTIFIER upperWord) rest (pos + consumed rest)
          else
            match readOperator s with
            | Some (value, rest, width) =>
                continue (OPERATOR value) rest (pos + width)
            | None =>
                if includes PUNCTUATION_CHARS (String char EmptyString)
                then continue (PUNCTUATION (String char EmptyString)) s' (pos + 1)
                else Thrown ("Unknown character: '" ++ String char EmptyString
                             ++ "' at position " ++ pretty pos)
            end
      end
  end.

Definition tokenize `{Runtime} (line : string) : completion (list token) :=
  let source := trim line in
  tokenize_loop (String.length source) source 0.

End BasicTokenizer.

(** ** BasicParser: from tokens to one syntax node *)

Module BasicParser.
Import JS.
Export BasicTokenizer.

(** The syntax nodes, tagged by their [type] field.  Token types are
    written [BasicTokenizer.NUMBER], nodes [NUMBER]. *)
#[warnings="-register-all"]
Inductive node :=
| PROGRAM_LINE (lineNumber : number) (statement : node)
| EMPTY
| PRINT (expressions : list node) (separators : list string)
| LET (variable : string) (value : node)
| INPUT (prompt : string) (variable : string)
| IF (condition : node) (thenStatement : node)
| GOTO (lineNumber : number)
| FOR (variable : string) (start : node) (end_ : node) (step : node)
| NEXT (variable : option string)
| REM
| END
| LIST (start : option number) (end_ : option number)
| RUN
| NEW
| HOME
| NUMBER (value : number)
| STRING (value : string)
| VARIABLE (name : string)
| BINARY (operator : string) (left : node) (right : node)
| UNARY (operator : string) (operand : node).

(** The [type] field of a node, as the interpreter's messages print it. *)
Definition node_type (n : node) : string :=
  match n with
  | PROGRAM_LINE _ _ => "PROGRAM_LINE"
  | EMPTY => "EMPTY"
  | PRINT _ _ => "PRINT"
  | LET _ _ => "LET"
  | INPUT _ _ => "INPUT"
  | IF _ _ => "IF"
  | GOTO _ => "GOTO"
  | FOR _ _ _ _ => "FOR"
  | NEXT _ => "NEXT"
  | REM => "REM"
  | END => "END"
  | LIST _ _ => "LIST"
  | RUN => "RUN"
  | NEW => "NEW"
  | HOME => "HOME"
  | NUMBER _ => "NUMBER"
  | STRING _ => "STRING"
  | VARIABLE _ => "VARIABLE"
  | BINARY _ _ _ => "BINARY"
  | UNARY _ _ => "UNARY"
  end.

#[global] Instance completion_ret : MRet completion := @Normal.
#[global] Instance completion_bind : MBind completion := λ A B f m,
  match m with
  | Normal a => f a
  | Thrown message => Thrown message
  | Never why => Never why
  end.

(** Reading a property of [undefined]: what [currentToken()] gives when
    the position is past the last token. *)
Definition TypeError_undefined : string :=
  "Cannot read properties of undefined".

(** The parser's state is [tokens] and [pos]; it is carried as the
    tokens from [pos] on, whose head is [currentToken()]. *)
Definition parser (A : Type) : Type :=
  list token → completion (A * list token).

Definition token_text `{Runtime} (t : token_type) : string :=
  match t with
  | BasicTokenizer.NUMBER n => number_to_string n
  | BasicTokenizer.STRING s | KEYWORD s | IDENTIFIER s
  | OPERATOR s | PUNCTUATION s => s
  | EOL | EOF => "null"
  end.

(** [token.value] where [expect] has just checked that the token is a
    number. *)
Definition token_number (t : token_type) : number :=
  match t with
  | BasicTokenizer.NUMBER n => n
  | _ => NaN
  end.

(** [token.value === value] for a string [value]. *)
Definition value_is (t : token_type) (value : string) : bool :=
  match t with
  | BasicTokenizer.STRING s | KEYWORD s | IDENTIFIER s
  | OPERATOR s | PUNCTUATION s => String.eqb s value
  | _ => false
  end.

Definition at_end (t : token) : bool :=
  match type t with EOL | EOF => true | _ => false end.

Definition isAtEnd (ts : list token) : completion bool :=
  match ts with
  | [] => Thrown TypeError_undefined
  | t :: _ => Normal (at_end t)
  end.

Definition advance (ts : list token) : completion (list token) :=
  match ts with
  | [] => Thrown TypeError_undefined
  | t :: rest => Normal (if at_end t then ts else rest)
  end.

Definition check (type_ : string) (value : option string)
    (ts : list token) : completion bool :=
  match ts with
  | [] => Thrown TypeError_undefined
  | t :: _ =>
      Normal
        (if at_end t then false
         else if negb (String.eqb (type_name (type t)) type_) then false
         else match value with
              | Some v => value_is (type t) v
              | None => true
              end)
  end.

Definition expect (type_ : string) (value : option string) : parser token :=
  λ ts,
  ok ← check type_ value ts;
  match ts with
  | [] => Thrown TypeError_undefined
  | t :: _ =>
      if ok : bool then rest ← advance ts; Normal (t, rest)
      else Thrown ("Expected " ++ type_
                   ++ match value with
                      | Some v => if String.eqb v "" then "" else " '" ++ v ++ "'"
                      | None => ""
                      end
                   ++ ", got " ++ type_name (type t))
  end.

(** The [while] loop shared by [parseComparison], [parseAddition] and
    [parseMultiplication]: fold operators of [ops] to the left, reading
    each right operand with [operand]. *)
Fixpoint binary_loop (ops : list string) (operand : parser node)
    (n : nat) (lhs : node) (ts : list token)
  : completion (node * list token) :=
  match ts with
  | [] => Thrown TypeError_undefined
  | t :: _ =>
      match type t with
      | OPERATOR op =>
          if includes ops op then
            match n with
            | O => Never OutOfFuel
            | S n' =>
                ts1 ← advance ts;
                '(rhs, ts2) ← operand ts1;
                binary_loop ops operand n' (BINARY op lhs rhs) ts2
            end
          else Normal (lhs, ts)
      | _ => Normal (lhs, ts)
      end
  end.

Definition parseMultiplication_with (parsePrimary : parser node) : parser node :=
  λ ts,
  '(lhs, ts1) ← parsePrimary ts;
  binary_loop ["*"; "/"] parsePrimary (length ts1) lhs ts1.

Definition parseAddition_with (parsePrimary : parser node) : parser node :=
  λ ts,
  '(lhs, ts1) ← parseMultiplication_with parsePrimary ts;
  binary_loop ["+"; "-"] (parseMultiplication_with parsePrimary)
    (length ts1) lhs ts1.

Definition parseComparison_with (parsePrimary : parser node) : parser node :=
  λ ts,
  '(lhs, ts1) ← parseAddition_with parsePrimary ts;
  binary_loop ["="; "<>"; "<"; ">"; "<="; ">="]
    (parseAddition_with parsePrimary) (length ts1) lhs ts1.

(** [parsePrimary]; [fuel] bounds the nesting of parentheses and unary
    minus signs. *)
Fixpoint parsePrimary `{Runtime} (fuel : nat) (ts : list token)
  : completion (node * list token) :=
  match fuel with
  | O => Never OutOfFuel
  | S fuel' =>
      match ts with
      | [] => Thrown TypeError_undefined
      | token :: _ =>
          match type token with
          | BasicTokenizer.NUMBER v =>
              ts1 ← advance ts; Normal (NUMBER v, ts1)
          | BasicTokenizer.STRING v =>
              ts1 ← advance ts; Normal (STRING v, ts1)
          | IDENTIFIER v =>
              ts1 ← advance ts; Normal (VARIABLE v, ts1)
          | _ =>
              paren ← check "PUNCTUATION" (Some "(") ts;
              if paren : bool then
                ts1 ← advance ts;
                '(expr, ts2) ← parseComparison_with (parsePrimary fuel') ts1;
                '(_, ts3) ← expect "PUNCTUATION" (Some ")") ts2;
                Normal (expr, ts3)
              else
                minus ← check "OPERATOR" (Some "-") ts;
                if minus : bool then
                  ts1 ← advance ts;
                  '(operand, ts2) ← parsePrimary fuel' ts1;
                  Normal (UNARY "-" operand, ts2)
                else
                  Thrown ("Unexpected token in expression: "
                          ++ type_name (type token)
                          ++ " (" ++ token_text (type token) ++ ")")
          end
      end
  end.

Definition parseExpression `{Runtime} : parser node :=
  λ ts, parseComparison_with (parsePrimary (S (length ts))) ts.

(** The [while] loop of [parsePrint]: the expressions and the
    separators read. *)
Fixpoint parsePrint_loop `{Runtime} (n : nat) (ts : list token)
  : completion (list node * list string * list token) :=
  atEnd ← isAtEnd ts;
  if atEnd : bool then Normal ([], [], ts)
  else
    match n with
    | O => Never OutOfFuel
    | S n' =>
        '(expr, ts1) ← parseExpression ts;
        semi ← check "PUNCTUATION" (Some ";") ts1;
        if semi : bool then
          ts2 ← advance ts1;
          '(expressions, separators, ts3) ← parsePrint_loop n' ts2;
          Normal (expr :: expressions, ";" :: separators, ts3)
        else
          comma ← check "PUNCTUATION" (Some ",") ts1;
          if comma : bool then
            ts2 ← advance ts1;
            '(expressions, separators, ts3) ← parsePrint_loop n' ts2;
            Normal (expr :: expressions, "," :: separators, ts3)
          else Normal ([expr], [], ts1)
    end.

Definition parsePrint `{Runtime} : parser node := λ ts,
  '(_, ts1) ← expect "KEYWORD" (Some "PRINT") ts;
  '(expressions, separators, ts2) ← parsePrint_loop (length ts1) ts1;
  Normal (PRINT expressions separators, ts2).

Definition parseLet `{Runtime} : parser node := λ ts,
  letKeyword ← check "KEYWORD" (Some "LET") ts;
  ts1 ← (if letKeyword : bool then advance ts else Normal ts);
  '(variable, ts2) ← expect "IDENTIFIER" None ts1;
  '(_, ts3) ← expect "OPERATOR" (Some "=") ts2;
  '(value, ts4) ← parseExpression ts3;
  Normal (LET (token_text (type variable)) value, ts4).

Definition parseInput `{Runtime} : parser node := λ ts,
  '(_, ts1) ← expect "KEYWORD" (Some "INPUT") ts;
  '(prompt, ts2) ←
    match ts1 with
    | [] => Thrown TypeError_undefined
    | t :: _ =>
        match type t with
        | BasicTokenizer.STRING v =>
            ts2 ← advance ts1;
            semi ← check "PUNCTUATION" (Some ";") ts2;
            if semi : bool then ts3 ← advance ts2; Normal (v, ts3)
            else
              comma ← check "PUNCTUATION" (Some ",") ts2;
              if comma : bool then ts3 ← advance ts2; Normal (v ++ ",", ts3)
              else Normal (v, ts2)
        | _ => Normal (EmptyString, ts1)
        end
    end;
  '(variable, ts3) ← expect "IDENTIFIER" None ts2;
  Normal (INPUT prompt (token_text (type variable)), ts3).

Definition parseGoto : parser node := λ ts,
  '(_, ts1) ← expect "KEYWORD" (Some "GOTO") ts;
  '(lineNumber, ts2) ← expect "NUMBER" None ts1;
  Normal (GOTO (token_number (type lineNumber)), ts2).

Definition parseFor `{Runtime} : parser node := λ ts,
  '(_, ts1) ← expect "KEYWORD" (Some "FOR") ts;
  '(variable, ts2) ← expect "IDENTIFIER" None ts1;
  '(_, ts3) ← expect "OPERATOR" (Some "=") ts2;
  '(start, ts4) ← parseExpression ts3;
  '(_, ts5) ← expect "KEYWORD" (Some "TO") ts4;
  '(end_, ts6) ← parseExpression ts5;
  stepKeyword ← check "KEYWORD" (Some "STEP") ts6;
  '(step, ts8) ←
    (if stepKeyword : bool
     then ts7 ← advance ts6; parseExpression ts7
     else Normal (NUMBER (of_Z 1), ts6));
  Normal (FOR (token_text (type variable)) start end_ step, ts8).

Definition parseNext : parser node := λ ts,
  '(_, ts1) ← expect "KEYWORD" (Some "NEXT") ts;
  match ts1 with
  | [] => Thrown TypeError_undefined
  | t :: _ =>
      match type t with
      | IDENTIFIER v => ts2 ← advance ts1; Normal (NEXT (Some v), ts2)
      | _ => Normal (NEXT None, ts1)
      end
  end.

Definition parseRem : parser node := λ ts,
  '(_, ts1) ← expect "KEYWORD" (Some "REM") ts;
  Normal (REM, ts1).

Definition parseList : parser node := λ ts,
  '(_, ts1) ← expect "KEYWORD" (Some "LIST") ts;
  match ts1 with
  | [] => Thrown TypeError_undefined
  | t :: _ =>
      match type t with
      | BasicTokenizer.NUMBER start =>
          ts2 ← advance ts1;
          dash ← check "OPERATOR" (Some "-") ts2;
          if dash : bool then
            ts3 ← advance ts2;
            match ts3 with
            | [] => Thrown TypeError_undefined
            | t' :: _ =>
                match type t' with
                | BasicTokenizer.NUMBER end_ =>
                    ts4 ← advance ts3;
                    Normal (LIST (Some start) (Some end_), ts4)
                | _ => Normal (LIST (Some start) None, ts3)
                end
            end
          else Normal (LIST (Some start) None, ts2)
      | _ => Normal (LIST None None, ts1)
      end
  end.

(** [parseIf], given the parser of the statement after [THEN]. *)
Definition parseIf_with `{Runtime} (parseStatement : parser node)
  : parser node := λ ts,
  '(_, ts1) ← expect "KEYWORD" (Some "IF") ts;
  '(condition, ts2) ← parseExpression ts1;
  '(_, ts3) ← expect "KEYWORD" (Some "THEN") ts2;
  match ts3 with
  | [] => Thrown TypeError_undefined
  | t :: _ =>
      match type t with
      | BasicTokenizer.NUMBER lineNumber =>
          ts4 ← advance ts3;
          Normal (IF condition (GOTO lineNumber), ts4)
      | _ =>
          '(thenStatement, ts4) ← parseStatement ts3;
          Normal (IF condition thenStatement, ts4)
      end
  end.

(** [parseStatement], with its [switch] on the keyword as a chain of
    comparisons; [fuel] bounds the nesting of [IF ... THEN]. *)
Fixpoint parseStatement `{Runtime} (fuel : nat) (ts : list token)
  : completion (node * list token) :=
  match fuel with
  | O => Never OutOfFuel
  | S fuel' =>
      match ts with
      | [] => Thrown TypeError_undefined
      | token :: _ =>
          match type token with
          | KEYWORD value =>
              if String.eqb value "PRINT" then parsePrint ts
              else if String.eqb value "LET" then parseLet ts
              else if String.eqb value "INPUT" then parseInput ts
              else if String.eqb value "IF"
                then parseIf_with (parseStatement fuel') ts
              else if String.eqb value "GOTO" then parseGoto ts
              else if String.eqb value "FOR" then parseFor ts
              else if String.eqb value "NEXT" then parseNext ts
              else if String.eqb value "REM" then parseRem ts
              else if String.eqb value "END"
                then ts1 ← advance ts; Normal (END, ts1)
              else if String.eqb value "LIST" then parseList ts
              else if String.eqb value "RUN"
                then ts1 ← advance ts; Normal (RUN, ts1)
              else if String.eqb value "NEW"
                then ts1 ← advance ts; Normal (NEW, ts1)
              else if String.eqb value "HOME"
                then ts1 ← advance ts; Normal (HOME, ts1)
              else Thrown ("Unknown keyword: " ++ value)
          | IDENTIFIER _ => parseLet ts
          | other => Thrown ("Unexpected token: " ++ type_name other)
          end
      end
  end.

Definition parse `{Runtime} (tokens : list token) : completion node :=
  atEnd ← isAtEnd tokens;
  if atEnd : bool then Normal EMPTY
  else
    match tokens with
    | [] => Thrown TypeError_undefined
    | t :: _ =>
        match type t with
        | BasicTokenizer.NUMBER lineNumber =>
            ts1 ← advance tokens;
            '(statement, _) ← parseStatement (S (length tokens)) ts1;
            Normal (PROGRAM_LINE lineNumber statement)
        | _ =>
            '(statement, _) ← parseStatement (S (length tokens)) tokens;
            Normal statement
        end
    end.

End BasicParser.

(** ** BasicInterpreter: the execution engine *)

Module BasicInterpreter.
Import JS.
Export BasicParser.

(** A stored program line [{ source, ast }]. *)
Record stored_line := { source : string; ast : node }.

(** A frame of [forStack]. *)
Record frame := {
  variable : string;
  endValue : value;
  stepValue : value;
  bodyStart : number
}.

(** What the interpreter asks of its four callbacks, in call order. *)
Inductive io_event :=
| Output (text : string)
| OutputLine (text : string)
| Input (promptText : string)
| Clear.

(** [BasicInterpreter.state].  [variables] holds the own properties of
    the object: variable names are upper-cased identifiers, which no
    property inherited from [Object.prototype] is.  [forStack] has its
    top (the last pushed frame) at the head.  [nextLine] is [None]
    while the property is [undefined].  A callback field tells whether
    the callback is registered; the calls made are logged in [trace],
    and [typed] holds the lines the user will still enter at the input
    prompts. *)
Record state := {
  program : gmap number stored_line;
  variables : gmap string value;
  forStack : list frame;
  currentLine : number;
  running : bool;
  nextLine : option number;
  outputCallback : bool;
  outputLineCallback : bool;
  inputCallback : bool;
  clearCallback : bool;
  typed : list string;
  trace : list io_event
}.

Definition set_program (p : gmap number stored_line) (st : state) : state :=
  {| program := p; variables := variables st; forStack := forStack st;
     currentLine := currentLine st; running := running st;
     nextLine := nextLine st; outputCallback := outputCallback st;
     outputLineCallback := outputLineCallback st;
     inputCallback := inputCallback st; clearCallback := clearCallback st;
     typed := typed st; trace := trace st |}.

Definition set_variables (v : gmap string value) (st : state) : state :=
  {| program := program st; variables := v; forStack := forStack st;
     currentLine := currentLine st; running := running st;
     nextLine := nextLine st; outputCallback := outputCallback st;
     outputLineCallback := outputLineCallback st;
     inputCallback := inputCallback st; clearCallback := clearCallback st;
     typed := typed st; trace := trace st |}.

Definition set_forStack (f : list frame) (st : state) : state :=
  {| program := program st; variables := variables st; forStack := f;
     currentLine := currentLine st; running := running st;
     nextLine := nextLine st; outputCallback := outputCallback st;
     outputLineCallback := outputLineCallback st;
     inputCallback := inputCallback st; clearCallback := clearCallback st;
     typed := typed st; trace := trace st |}.

Definition set_currentLine (n : number) (st : state) : state :=
  {| program := program st; variables := variables st;
     forStack := forStack st; currentLine := n; running := running st;
     nextLine := nextLine st; outputCallback := outputCallback st;
     outputLineCallback := outputLineCallback st;
     inputCallback := inputCallback st; clearCallback := clearCallback st;
     typed := typed st; trace := trace st |}.

Definition set_running (b : bool) (st : state) : state :=
  {| program := program st; variables := variables st;
     forStack := forStack st; currentLine := currentLine st; running := b;
     nextLine := nextLine st; outputCallback := outputCallback st;
     outputLineCallback := outputLineCallback st;
     inputCallback := inputCallback st; clearCallback := clearCallback st;
     typed := typed st; trace := trace st |}.

Definition set_nextLine (n : option number) (st : state) : state :=
  {| program := program st; variables := variables st;
     forStack := forStack st; currentLine := currentLine st;
     running := running st; nextLine := n;
     outputCallback := outputCallback st;
     outputLineCallback := outputLineCallback st;
     inputCallback := inputCallback st; clearCallback := clearCallback st;
     typed := typed st; trace := trace st |}.

Definition set_typed (l : list string) (st : state) : state :=
  {| program := program st; variables := variables st;
     forStack := forStack st; currentLine := currentLine st;
     running := running st; nextLine := nextLine st;
     outputCallback := outputCallback st;
     outputLineCallback := outputLineCallback st;
     inputCallback := inputCallback st; clearCallback := clearCallback st;
     typed := l; trace := trace st |}.

Definition log (e : io_event) (st : state) : state :=
  {| program := program st; variables := variables st;
     forStack := forStack st; currentLine := currentLine st;
     running := running st; nextLine := nextLine st;
     outputCallback := outputCallback st;
     outputLineCallback := outputLineCallback st;
     inputCallback := inputCallback st; clearCallback := clearCallback st;
     typed := typed st; trace := trace st ++ [e] |}.

(** The state of the module before [init]: nothing stored, no callback. *)
Definition initial_state : state :=
  {| program := ∅; variables := ∅; forStack := []; currentLine := of_Z 0;
     running := false; nextLine := None; outputCallback := false;
     outputLineCallback := false; inputCallback := false;
     clearCallback := false; typed := []; trace := [] |}.

(** [init(callbacks)] with the four callbacks given. *)
Definition init (st : state) : state :=
  {| program := program st; variables := variables st;
     forStack := forStack st; currentLine := currentLine st;
     running := running st; nextLine := nextLine st; outputCallback := true;
     outputLineCallback := true; inputCallback := true;
     clearCallback := true; typed := typed st; trace := trace st |}.

Definition newline : string := String (ascii_of_nat 10) EmptyString.

Definition print (text : string) (st : state) : state :=
  if outputCallback st then log (Output text) st else st.

Definition println (text : string) (st : state) : state :=
  if outputLineCallback st then log (OutputLine text) st else st.

Definition storeLine (lineNumber : number) (src : string) (a : node)
    (st : state) : state :=
  match a with
  | EMPTY => set_program (delete (Map_key lineNumber) (program st)) st
  | REM =>
      if negb (string_includes src "REM")
      then set_program (delete (Map_key lineNumber) (program st)) st
      else set_program
             (<[Map_key lineNumber := {| source := src; ast := a |}]>
                (program st)) st
  | _ =>
      set_program
        (<[Map_key lineNumber := {| source := src; ast := a |}]> (program st))
        st
  end.

Definition bool_to_number (b : bool) : value :=
  VNum (of_Z (if b then 1 else 0)).

(** [evaluate]; it reads and writes [state.variables] only. *)
Fixpoint evaluate `{Runtime} (nd : node) (vars : gmap string value)
  : gmap string value * completion value :=
  match nd with
  | NUMBER v => (vars, Normal (VNum v))
  | STRING v => (vars, Normal (VStr v))
  | VARIABLE name =>
      let vars' :=
        match vars !! name with
        | Some _ => vars
        | None =>
            <[name := if endsWith name "$" then VStr EmptyString
                      else VNum (of_Z 0)]> vars
        end in
      (vars', Normal (default VUndefined (vars' !! name)))
  | BINARY operator l r =>
      let '(vars1, cl) := evaluate l vars in
      match cl with
      | Normal lhs =>
          let '(vars2, cr) := evaluate r vars1 in
          match cr with
          | Normal rhs =>
              (vars2,
               match operator with
               | "+" => Normal (plus lhs rhs)
               | "-" => Normal (minus lhs rhs)
               | "*" => Normal (times lhs rhs)
               | "/" =>
                   if strict_equal rhs (VNum (of_Z 0))
                   then Thrown "?DIVISION BY ZERO ERROR"
                   else Normal (divide lhs rhs)
               | "=" => Normal (bool_to_number (strict_equal lhs rhs))
               | "<>" => Normal (bool_to_number (negb (strict_equal lhs rhs)))
               | "<" => Normal (bool_to_number (less_than lhs rhs))
               | ">" => Normal (bool_to_number (less_than rhs lhs))
               | "<=" => Normal (bool_to_number (less_equal lhs rhs))
               | ">=" => Normal (bool_to_number (less_equal rhs lhs))
               | _ => Thrown ("Unknown operator: " ++ operator)
               end)
          | other => (vars2, other)
          end
      | other => (vars1, other)
      end
  | UNARY operator operand =>
      let '(vars1, c) := evaluate operand vars in
      match c with
      | Normal v =>
          (vars1,
           if String.eqb operator "-" then Normal (negate v)
           else Thrown ("Unknown unary operator: " ++ operator))
      | other => (vars1, other)
      end
  | other => (vars, Thrown ("Cannot evaluate node type: " ++ node_type other))
  end.

(** The [for] loop of [executePrint]: [separators] is what is left of
    the separator array from index [i] on. *)
Fixpoint executePrint_loop `{Runtime} (expressions : list node)
    (separators : list string) (output : string) (vars : gmap string value)
  : gmap string value * completion string :=
  match expressions with
  | [] => (vars, Normal output)
  | e :: es =>
      let '(vars1, c) := evaluate e vars in
      match c with
      | Normal v =>
          let output1 := output ++ ToString v in
          match separators with
          | sep :: seps =>
              executePrint_loop es seps
                (if String.eqb sep ";" then output1
                 else if String.eqb sep "," then output1 ++ "     "
                 else output1) vars1
          | [] => executePrint_loop es [] output1 vars1
          end
      | Thrown m => (vars1, Thrown m)
      | Never w => (vars1, Never w)
      end
  end.

Definition executePrint `{Runtime} (expressions : list node)
    (separators : list string) (st : state) : state * completion unit :=
  let '(vars, c) :=
    executePrint_loop expressions separators EmptyString (variables st) in
  let st1 := set_variables vars st in
  match c with
  | Normal output =>
      match last separators with
      | Some ";" => (print output st1, Normal ())
      | _ => (println output st1, Normal ())
      end
  | Thrown m => (st1, Thrown m)
  | Never w => (st1, Never w)
  end.

Definition executeLet `{Runtime} (name : string) (e : node) (st : state)
  : state * completion unit :=
  let '(vars, c) := evaluate e (variables st) in
  match c with
  | Normal v => (set_variables (<[name := v]> vars) st, Normal ())
  | Thrown m => (set_variables vars st, Thrown m)
  | Never w => (set_variables vars st, Never w)
  end.

(** Calling a callback that was never registered. *)
Definition TypeError_not_a_function : string :=
  "this.state.inputCallback is not a function".

Definition executeInput `{Runtime} (prompt name : string) (st : state)
  : state * completion unit :=
  let promptText := if String.eqb prompt "" then "? " else prompt in
  if negb (inputCallback st) then (st, Thrown TypeError_not_a_function)
  else
    let st1 := log (Input promptText) st in
    match typed st1 with
    | [] => (st1, Never AwaitingInput)
    | input :: later =>
        let st2 := set_typed later st1 in
        if endsWith name "$" then
          (set_variables (<[name := VStr input]> (variables st2)) st2,
           Normal ())
        else
          let num := parseFloat input in
          if is_nan num then (st2, Thrown "?TYPE MISMATCH ERROR")
          else (set_variables (<[name := VNum num]> (variables st2)) st2,
                Normal ())
    end.

Definition executeGoto (lineNumber : number) (st : state)
  : state * completion unit :=
  match program st !! Map_key lineNumber with
  | None => (st, Thrown "?UNDEF'D STATEMENT ERROR")
  | Some _ => (set_nextLine (Some lineNumber) st, Normal ())
  end.

Definition executeFor `{Runtime} (name : string) (start end_ step : node)
    (st : state) : state * completion unit :=
  let '(vars1, c1) := evaluate start (variables st) in
  match c1 with
  | Normal startValue =>
      let '(vars2, c2) := evaluate end_ vars1 in
      match c2 with
      | Normal endValue_ =>
          let '(vars3, c3) := evaluate step vars2 in
          match c3 with
          | Normal stepValue_ =>
              let st1 := set_variables (<[name := startValue]> vars3) st in
              (set_forStack
                 ({| variable := name; endValue := endValue_;
                     stepValue := stepValue_;
                     bodyStart := currentLine st1 |} :: forStack st1) st1,
               Normal ())
          | Thrown m => (set_variables vars3 st, Thrown m)
          | Never w => (set_variables vars3 st, Never w)
          end
      | Thrown m => (set_variables vars2 st, Thrown m)
      | Never w => (set_variables vars2 st, Never w)
      end
  | Thrown m => (set_variables vars1 st, Thrown m)
  | Never w => (set_variables vars1 st, Never w)
  end.

(** [node.variable && node.variable !== loop.variable]. *)
Definition names_other_variable (v : option string) (loop : frame) : bool :=
  match v with
  | Some name =>
      negb (String.eqb name "") && negb (String.eqb name (variable loop))
  | None => false
  end.

Definition executeNext `{Runtime} (v : option string) (st : state)
  : state * completion unit :=
  match forStack st with
  | [] => (st, Thrown "?NEXT WITHOUT FOR ERROR")
  | loop :: below =>
      if names_other_variable v loop
      then (st, Thrown "?NEXT WITHOUT FOR ERROR")
      else
        let currentValue :=
          default VUndefined (variables st !! variable loop) in
        let newValue := plus currentValue (stepValue loop) in
        if (less_than (VNum (of_Z 0)) (stepValue loop)
            && less_equal newValue (endValue loop))
           || (less_than (stepValue loop) (VNum (of_Z 0))
               && less_equal (endValue loop) newValue)
        then
          (set_nextLine (Some (bodyStart loop))
             (set_variables (<[variable loop := newValue]> (variables st)) st),
           Normal ())
        else (set_forStack below st, Normal ())
  end.

(** The sorted line numbers of the program,
    [Array.from(program.keys()).sort((a, b) => a - b)]. *)
Definition sorted_lines (st : state) : list number :=
  sort_ascending (map_to_list (program st)).*1.

(** Removing a leading run of digits and the white space after it, as
    the regular expression of [executeList] does. *)
Fixpoint drop_while (p : ascii → bool) (s : string) : string :=
  match s with
  | String c s' => if p c then drop_while p s' else s
  | EmptyString => EmptyString
  end.

Definition strip_line_number (src : string) : string :=
  match src with
  | String c _ =>
      if is_digit c then drop_while is_whitespace (drop_while is_digit src)
      else src
  | EmptyString => EmptyString
  end.

Fixpoint executeList_loop `{Runtime} (lines : list number)
    (start end_ : number) (st : state) : state * completion unit :=
  match lines with
  | [] => (st, Normal ())
  | lineNum :: rest =>
      if leb start lineNum && leb lineNum end_ then
        match program st !! Map_key lineNum with
        | None => (st, Thrown TypeError_undefined)
        | Some line =>
            executeList_loop rest start end_
              (println (number_to_string lineNum ++ " "
                        ++ strip_line_number (source line)) st)
        end
      else executeList_loop rest start end_ st
  end.

Definition executeList `{Runtime} (start end_ : option number) (st : state)
  : state * completion unit :=
  let lines := sorted_lines st in
  match lines with
  | [] => (println EmptyString st, Normal ())
  | first :: _ =>
      executeList_loop lines (default first start)
        (default (List.last lines first) end_) st
  end.

Definition executeNew (st : state) : state :=
  println EmptyString (set_forStack [] (set_variables ∅ (set_program ∅ st))).

Definition executeHome (st : state) : state :=
  if clearCallback st then log Clear st else st.

(** The [for] loop of [run] from index [i] on, with [exec] for
    [executeNode]; [n] bounds the number of lines executed. *)
Fixpoint run_loop `{Runtime} (exec : node → state → state * completion unit)
    (lines : list number) (n : nat) (i : nat) (st : state)
  : state * completion unit :=
  match lines !! i with
  | None => (st, Normal ())
  | Some lineNumber =>
      if negb (running st) then (st, Normal ())
      else
        match n with
        | O => (st, Never OutOfFuel)
        | S n' =>
            let st1 := set_currentLine lineNumber st in
            match program st1 !! Map_key (currentLine st1) with
            | None => (st1, Thrown TypeError_undefined)
            | Some line =>
                let '(st2, c) := exec (ast line) st1 in
                match c with
                | Normal _ =>
                    match nextLine st2 with
                    | Some target =>
                        match indexOf lines target with
                        | None =>
                            (st2,
                             Thrown ("?UNDEF'D STATEMENT ERROR IN LINE "
                                     ++ number_to_string (currentLine st2)))
                        | Some nextIdx =>
                            run_loop exec lines n' nextIdx
                              (set_nextLine None st2)
                        end
                    | None => run_loop exec lines n' (S i) st2
                    end
                | other => (st2, other)
                end
            end
        end
  end.

Definition run `{Runtime} (exec : node → state → state * completion unit)
    (n : nat) (st : state) : state * completion unit :=
  if decide (size (program st) = 0%nat)
  then (print ("?NO PROGRAM" ++ newline) st, Normal ())
  else
    let st1 := set_forStack [] (set_variables ∅ (set_running true st)) in
    let lines := sorted_lines st1 in
    let '(st2, c) := run_loop exec lines n 0 st1 in
    match c with
    | Normal _ => (set_running false st2, Normal ())
    | Thrown message =>
        (set_running false
           (print (message ++ newline) st2),
         Normal ())
    | Never w => (st2, Never w)
    end.

(** [executeNode].  Statements nest through [IF] only; [fuel] bounds the
    lines a [RUN] may execute, nested runs included. *)
Fixpoint executeNode `{Runtime} (fuel : nat) : node → state → state * completion unit :=
  fix go (nd : node) (st : state) {struct nd} : state * completion unit :=
  match nd with
  | PRINT expressions separators => executePrint expressions separators st
  | LET name e => executeLet name e st
  | INPUT prompt name => executeInput prompt name st
  | IF condition thenStatement =>
      let '(vars, c) := evaluate condition (variables st) in
      let st1 := set_variables vars st in
      match c with
      | Normal v => if ToBoolean v then go thenStatement st1
                    else (st1, Normal ())
      | Thrown m => (st1, Thrown m)
      | Never w => (st1, Never w)
      end
  | GOTO lineNumber => executeGoto lineNumber st
  | FOR name start end_ step => executeFor name start end_ step st
  | NEXT v => executeNext v st
  | END => (set_running false st, Normal ())
  | RUN =>
      match fuel with
      | O => (st, Never OutOfFuel)
      | S fuel' => run (executeNode fuel') fuel' st
      end
  | LIST start end_ => executeList start end_ st
  | NEW => (executeNew st, Normal ())
  | HOME => (executeHome st, Normal ())
  | REM => (st, Normal ())
  | other => (st, Thrown ("Unknown node type: " ++ node_type other))
  end.

(** [executeImmediate(line)]. *)
Definition executeImmediate `{Runtime} (fuel : nat) (line : string)
    (st : state) : state * completion unit :=
  if String.eqb (trim line) "" then (st, Normal ())
  else
    let report (message : string) (st' : state) :=
      (print ("?SYNTAX ERROR" ++ newline ++ message ++ newline) st',
       Normal ()) in
    match tokenize line with
    | Normal tokens =>
        match parse tokens with
        | Normal (PROGRAM_LINE lineNumber statement) =>
            (storeLine lineNumber line statement st, Normal ())
        | Normal EMPTY => (st, Normal ())
        | Normal a =>
            let '(st1, c) := executeNode fuel a st in
            match c with
            | Normal _ => (st1, Normal ())
            | Thrown message => report message st1
            | Never w => (st1, Never w)
            end
        | Thrown message => report message st
        | Never w => (st, Never w)
        end
    | Thrown message => report message st
    | Never w => (st, Never w)
    end.

End BasicInterpreter.

(** ** BasicScreen: the 40-column terminal *)

Module BasicScreen.
Import JS.

Definition COLS : nat := 40.
Definition ROWS : nat := 24.

(** A row is an array of one-character strings; [None] is an empty
    slot, which an assignment past the end of an array leaves behind. *)
Abbreviation row := (list (option ascii)).

(** The part of [BasicScreen.state] that printing touches. *)
Record state := {
  buffer : list row;
  cursorX : nat;
  cursorY : nat
}.

Definition blank_row : row := replicate COLS (Some " "%char).

(** [a[i] = x] on an array: in place below its length, extending it
    otherwise. *)
Definition array_set {A : Type} (i : nat) (x : A) (a : list (option A))
  : list (option A) :=
  if (i <? length a)%nat then <[i := Some x]> a
  else a ++ replicate (i - length a) None ++ [Some x].

Definition initBuffer : state :=
  {| buffer := replicate ROWS blank_row; cursorX := 0; cursorY := 0 |}.

Definition scroll (st : state) : state :=
  {| buffer := tail (buffer st) ++ [blank_row];
     cursorX := cursorX st;
     cursorY := ROWS - 1 |}.

Definition newline (st : state) : state :=
  let st1 := {| buffer := buffer st; cursorX := 0;
                cursorY := S (cursorY st) |} in
  if (ROWS <=? cursorY st1)%nat then scroll st1 else st1.

Definition TypeError_set_undefined : string :=
  "Cannot set properties of undefined".

Definition putChar (char : ascii) (st : state) : completion state :=
  let st1 := if (COLS <=? cursorX st)%nat then newline st else st in
  let st2 := if (ROWS <=? cursorY st1)%nat then scroll st1 else st1 in
  match buffer st2 !! cursorY st2 with
  | None => Thrown TypeError_set_undefined
  | Some r =>
      Normal {| buffer := <[cursorY st2 := array_set (cursorX st2) char r]>
                            (buffer st2);
                cursorX := S (cursorX st2);
                cursorY := cursorY st2 |}
  end.

(** [print(text)], without the redrawing of the page. *)
Fixpoint print (text : string) (st : state) : completion state :=
  match text with
  | EmptyString => Normal st
  | String char rest =>
      if Ascii.eqb char (ascii_of_nat 10) then print rest (newline st)
      else
        match putChar char st with
        | Normal st1 => print rest st1
        | other => other
        end
  end.

Definition println (text : string) (st : state) : completion state :=
  print (text ++ String (ascii_of_nat 10) EmptyString) st.

Definition clear (st : state) : state := initBuffer.

(** The operations a client applies to the screen. *)
Inductive operation :=
| Print (text : string)
| Println (text : string)
| ClearScreen.

Definition apply (op : operation) (st : state) : completion state :=
  match op with
  | Print text => print text st
  | Println text => println text st
  | ClearScreen => Normal (clear st)
  end.

Fixpoint apply_all (ops : list operation) (st : state) : completion state :=
  match ops with
  | [] => Normal st
  | op :: rest =>
      match apply op st with
      | Normal st1 => apply_all rest st1
      | other => other
      end
  end.

End BasicScreen.

(** ** BasicScreen: the input mode *)

Module BasicScreenInput.
Import JS.

(** [String.prototype.toUpperCase] is written out for the code units
    of ASCII; what it makes of another code unit is left to the
    engine. *)
Class Casing := { toUpperCase_other : ascii → string }.

Definition char_toUpperCase `{Casing} (c : ascii) : string :=
  if (nat_of_ascii c <? 128)%nat
  then String (BasicTokenizer.upper_char c) EmptyString
  else toUpperCase_other c.

Fixpoint toUpperCase `{Casing} (s : string) : string :=
  match s with
  | EmptyString => EmptyString
  | String c s' => char_toUpperCase c ++ toUpperCase s'
  end.

(** The fields of a [KeyboardEvent] that the handler reads. *)
Record key_event := {
  key : string;
  ctrlKey : bool;
  altKey : bool;
  metaKey : bool
}.

(** [BasicScreen.state] with its input fields.  [container] tells
    whether the container element is set.  A promise is known by its
    number; [inputResolve] holds the promise whose [resolve] function
    is kept, [promises] counts the promises made, and [resolved] logs
    the calls of [resolve] functions with their argument. *)
Record state := {
  screen : BasicScreen.state;
  container : bool;
  inputBuffer : string;
  inputMode : bool;
  inputResolve : option nat;
  promises : nat;
  resolved : list (nat * string)
}.

(** The state object as the module declares it. *)
Definition initial_state : state :=
  {| screen := {| BasicScreen.buffer := []; BasicScreen.cursorX := 0;
                  BasicScreen.cursorY := 0 |};
     container := false; inputBuffer := EmptyString; inputMode := false;
     inputResolve := None; promises := 0; resolved := [] |}.

(** [init(container)], without the page elements. *)
Definition init (st : state) : state :=
  {| screen := BasicScreen.initBuffer; container := true;
     inputBuffer := inputBuffer st; inputMode := inputMode st;
     inputResolve := inputResolve st; promises := promises st;
     resolved := resolved st |}.

(** [s.slice(0, -1)]. *)
Definition slice_but_last (s : string) : string :=
  String.substring 0 (String.length s - 1) s.

(** [handleInputKeydown(e)], without the redrawing of the page. *)
Definition handleInputKeydown `{Casing} (e : key_event) (st : state) : state :=
  if String.eqb (key e) "Enter" then
    let input := inputBuffer st in
    {| screen := BasicScreen.newline (screen st);
       container := container st;
       inputBuffer := EmptyString;
       inputMode := false;
       inputResolve := None;
       promises := promises st;
       resolved := match inputResolve st with
                   | Some promise => resolved st ++ [(promise, input)]
                   | None => resolved st
                   end |}
  else if String.eqb (key e) "Backspace" then
    if (0 <? String.length (inputBuffer st))%nat then
      {| screen := screen st; container := container st;
         inputBuffer := slice_but_last (inputBuffer st);
         inputMode := inputMode st; inputResolve := inputResolve st;
         promises := promises st; resolved := resolved st |}
    else st
  else if (String.length (key e) =? 1)%nat
          && negb (ctrlKey e) && negb (altKey e) && negb (metaKey e) then
    {| screen := screen st; container := container st;
       inputBuffer := inputBuffer st ++ toUpperCase (key e);
       inputMode := inputMode st; inputResolve := inputResolve st;
       promises := promises st; resolved := resolved st |}
  else st.

(** The [keydown] listener that [attachKeyboardHandler] installs. *)
Definition keyHandler `{Casing} (e : key_event) (st : state) : state :=
  if negb (container st) then st
  else if inputMode st then handleInputKeydown e st
  else st.

(** [getInput(prompt)]: the new state and the promise returned. *)
Definition getInput (prompt : string) (st : state)
  : completion (state * nat) :=
  match (if negb (String.eqb prompt "")
         then BasicScreen.print prompt (screen st)
         else Normal (screen st)) with
  | Normal scr =>
      Normal ({| screen := scr; container := container st;
                 inputBuffer := EmptyString; inputMode := true;
                 inputResolve := Some (promises st);
                 promises := S (promises st);
                 resolved := resolved st |},
              promises st)
  | Thrown message => Thrown message
  | Never why => Never why
  end.

Definition PROMPT : string := "]".

(** [showPrompt()]. *)
Definition showPrompt (st : state) : completion (state * nat) :=
  match BasicScreen.print (PROMPT ++ " ") (screen st) with
  | Normal scr =>
      getInput EmptyString
        {| screen := scr; container := container st;
           inputBuffer := inputBuffer st; inputMode := inputMode st;
           inputResolve := inputResolve st; promises := promises st;
           resolved := resolved st |}
  | Thrown message => Thrown message
  | Never why => Never why
  end.

End BasicScreenInput.

(** ** TutorialValidator: checking what a program printed *)

Module TutorialValidator.
Import JS BasicScreenInput.

Definition line_feed : ascii := ascii_of_nat 10.

(** [s.split('\n')]. *)
Fixpoint split_lines (s : string) : list string :=
  match s with
  | EmptyString => [EmptyString]
  | String c s' =>
      if Ascii.eqb c line_feed then EmptyString :: split_lines s'
      else
        match split_lines s' with
        | l :: ls => String c l :: ls
        | [] => [String c EmptyString]
        end
  end.

(** [array.join(separator)] on strings. *)
Fixpoint join (separator : string) (l : list string) : string :=
  match l with
  | [] => EmptyString
  | [s] => s
  | s :: rest => s ++ separator ++ join separator rest
  end.

(** [getCapturedOutput()], given [state.capturedOutput]. *)
Definition getCapturedOutput (capturedOutput : list string) : string :=
  BasicTokenizer.trim (join EmptyString capturedOutput).

Definition nonempty (l : string) : bool := (0 <? String.length l)%nat.

(** [getCapturedLines()]. *)
Definition getCapturedLines (capturedOutput : list string) : list string :=
  List.filter nonempty
    (List.map BasicTokenizer.trim
       (split_lines (getCapturedOutput capturedOutput))).

(** [patterns.every((pattern, index) => actualLines[index] === pattern)],
    from [index] on. *)
Fixpoint every_line (actualLines : list string) (index : nat)
    (patterns : list string) : bool :=
  match patterns with
  | [] => true
  | pattern :: rest =>
      match actualLines !! index with
      | Some l => String.eqb l pattern
      | None => false
      end
      && every_line actualLines (S index) rest
  end.

(** [compareOutput(actual, expected, { caseSensitive, partialMatch })]. *)
Definition compareOutput `{Casing} (actual : string) (expected : list string)
    (caseSensitive partialMatch : bool) : bool :=
  if (length expected =? 0)%nat then (0 <? String.length actual)%nat
  else
    let normalizedActual :=
      if negb caseSensitive then toUpperCase actual else actual in
    let normalizedExpected :=
      if negb caseSensitive then List.map toUpperCase expected
      else expected in
    if partialMatch then
      forallb (λ pattern, string_includes normalizedActual pattern)
        normalizedExpected
    else
      let actualLines :=
        List.filter nonempty
          (List.map BasicTokenizer.trim (split_lines normalizedActual)) in
      every_line actualLines 0 normalizedExpected.

(** What [validate] returns. *)
Record result := { success : bool; message : string }.

Fixpoint all_digits (l : string) : bool :=
  match l with
  | EmptyString => true
  | String c l' => BasicTokenizer.is_digit c && all_digits l'
  end.

(** [/^\d+$/.test(line)]. *)
Definition is_number_line (l : string) : bool :=
  nonempty l && all_digits l.

(** [validateSum(actual)]. *)
Definition validateSum (actual : string) : result :=
  let lines := List.map BasicTokenizer.trim (split_lines actual) in
  if existsb is_number_line lines
  then {| success := true; message := "Correct! Your calculator works!" |}
  else {| success := false;
          message := "Make sure your program prints the sum (A + B) and "
                     ++ "then run it with RUN." |}.

(** The validation block of a lesson; a field is [None] when it is
    absent. *)
Record validation := {
  expectedOutput : option (list string);
  customCheck : option string;
  caseSensitive : option bool;
  partialMatch : option bool
}.

(** [validate(validation)], given [state.capturedOutput]. *)
Definition validate `{Casing} (v : validation) (capturedOutput : list string)
  : result :=
  let actual := getCapturedOutput capturedOutput in
  let expected := default [] (expectedOutput v) in
  if match customCheck v with
     | Some check => String.eqb check "sum"
     | None => false
     end
  then validateSum actual
  else
    let caseSensitive_ :=
      match caseSensitive v with Some false => false | _ => true end in
    let partialMatch_ :=
      match partialMatch v with Some true => true | _ => false end in
    if compareOutput actual expected caseSensitive_ partialMatch_ then
      {| success := true;
         message := "Correct! Your output matches the expected result." |}
    else
      {| success := false;
         message := "Not quite. Expected: " ++ join ", " expected
                    ++ String line_feed EmptyString ++ "Your output: "
                    ++ (if String.eqb actual "" then "(no output)"
                        else actual) |}.

End TutorialValidator.

(** * Properties *)

(** ** Predicates used in the statements *)

Module ScreenSpec.
Import JS BasicScreen.

(** A row of exactly [COLS] characters. *)
Definition full_row (r : row) : Prop :=
  length r = COLS ∧ Forall is_Some r.

(** The grid has [ROWS] rows of [COLS] characters and the cursor is on
    one of them, at most one column past the last one. *)
Record grid (st : state) : Prop := {
  grid_rows : length (buffer st) = ROWS;
  grid_cols : Forall full_row (buffer st);
  grid_cursorY : (cursorY st ≤ ROWS - 1)%nat;
  grid_cursorX : (cursorX st ≤ COLS)%nat
}.

(** The screen after its top row is dropped, [last_row] is added at the
    bottom and the cursor is put on it at column [x]. *)
Definition scrolled (st : state) (last_row : row) (x : nat) : state :=
  {| buffer := tail (buffer st) ++ [last_row];
     cursorX := x;
     cursorY := ROWS - 1 |}.

End ScreenSpec.

Module ParserSpec.
Import JS BasicParser.

(** A parser step completes on [ts], and what it hands back is the
    end of [ts]. *)
Definition completes {A : Type} (ts : list token)
    (r : completion (A * list token)) : Prop :=
  match r with
  | Normal (_, ts') => ts' `suffix_of` ts
  | Thrown _ => True
  | Never _ => False
  end.

(** It completes and, when it succeeds, has read at least one token. *)
Definition consumes {A : Type} (ts : list token)
    (r : completion (A * list token)) : Prop :=
  match r with
  | Normal (_, ts') => ts' `suffix_of` ts ∧ (length ts' < length ts)%nat
  | Thrown _ => True
  | Never _ => False
  end.

(** Every NEXT in the node names no variable or a non-empty one. *)
Fixpoint explicit_names (nd : node) : Prop :=
  match nd with
  | NEXT (Some name) => name ≠ EmptyString
  | IF _ thenStatement => explicit_names thenStatement
  | PROGRAM_LINE _ statement => explicit_names statement
  | _ => True
  end.

End ParserSpec.

Module InterpreterSpec.
Import JS BasicInterpreter.

(** The value an unset variable springs to when it is first read. *)
Definition default_value (name : string) : value :=
  if endsWith name "$" then VStr EmptyString else VNum (of_Z 0).

(** Every character of [s] satisfies [p]. *)
Fixpoint all_chars (p : ascii → bool) (s : string) : bool :=
  match s with
  | EmptyString => true
  | String c s' => p c && all_chars p s'
  end.

(** [vars'] is [vars] where some names that were unbound are now bound
    to their default value; every binding of [vars] is kept. *)
Definition vivified (vars vars' : gmap string value) : Prop :=
  ∀ name,
    vars' !! name = vars !! name
    ∨ (vars !! name = None ∧ vars' !! name = Some (default_value name)).

(** [st'] has the program store of [st] and all its bindings. *)
Definition keeps (st st' : state) : Prop :=
  program st' = program st ∧ vivified (variables st) (variables st').

(** The line fed to [executeImmediate] fails with [message], leaving the
    interpreter in [st']: the tokenizer throws, or the parser throws, or
    the statement parsed throws while it executes. *)
Inductive fails `{Runtime} (fuel : nat) (line : string) (st : state)
    (message : string) (st' : state) : Prop :=
| tokenizing_fails :
    tokenize line = Thrown message → st' = st →
    fails fuel line st message st'
| parsing_fails tokens :
    tokenize line = Normal tokens → parse tokens = Thrown message →
    st' = st → fails fuel line st message st'
| executing_fails tokens statement :
    tokenize line = Normal tokens → parse tokens = Normal statement →
    node_type statement ≠ "PROGRAM_LINE" →
    node_type statement ≠ "EMPTY" →
    executeNode fuel statement st = (st', Thrown message) →
    fails fuel line st message st'.

(** What [executeImmediate] sends to the output callback when the line
    fails with [message]. *)
Definition report (message : string) (st : state) : state :=
  print ("?SYNTAX ERROR" ++ newline ++ message ++ newline) st.

(** NEXT names an explicit variable, other than the one of [loop]. *)
Definition names_another (v : option string) (loop : frame) : Prop :=
  ∃ name, v = Some name ∧ name ≠ variable loop.

(** An engine for the closed examples below.  They print and read small
    integers only, which [number_to_string], [parseInt] and the
    arithmetic above handle by themselves, so that these three
    functions are never called. *)
Definition sample_runtime : Runtime :=
  {| number_to_string_other := λ _, "NaN";
     string_to_number := λ _, NaN;
     parseFloat := λ _, NaN |}.

(** An interpreter whose callbacks are registered and which holds
    nothing yet. *)
Definition fresh : state := init initial_state.

(** Feeding lines to [executeImmediate] one after the other, as the
    read-eval-print loop does. *)
Fixpoint session `{Runtime} (fuel : nat) (lines : list string) (st : state)
  : state * completion unit :=
  match lines with
  | [] => (st, Normal ())
  | line :: rest =>
      let '(st1, c) := executeImmediate fuel line st in
      match c with
      | Normal _ => session fuel rest st1
      | other => (st1, other)
      end
  end.

(** Three lines that print 1, 2 and 3. *)
Definition printing_lines : list string :=
  ["10 PRINT 1"; "20 PRINT 2"; "30 PRINT 3"].

(** The FOR/NEXT program of the specification, as typed and as stored. *)
Definition counting_lines : list string :=
  ["10 FOR I=1 TO 3"; "20 PRINT I"; "30 NEXT I"].

Definition counting_program : gmap number stored_line :=
  <[of_Z 10 := {| source := "10 FOR I=1 TO 3";
                  ast := FOR "I" (NUMBER (of_Z 1)) (NUMBER (of_Z 3))
                           (NUMBER (of_Z 1)) |}]>
  (<[of_Z 20 := {| source := "20 PRINT I"; ast := PRINT [VARIABLE "I"] [] |}]>
  (<[of_Z 30 := {| source := "30 NEXT I"; ast := NEXT (Some "I") |}]> ∅)).

(** The frame that the FOR line pushes. *)
Definition counting_frame : frame :=
  {| variable := "I"; endValue := VNum (of_Z 3); stepValue := VNum (of_Z 1);
     bodyStart := of_Z 10 |}.

(** The interpreter while it runs that program. *)
Definition counting_state (vars : gmap string value) (stack : list frame)
    (line : number) (tr : list io_event) : state :=
  {| program := counting_program; variables := vars; forStack := stack;
     currentLine := line; running := true; nextLine := None;
     outputCallback := true; outputLineCallback := true;
     inputCallback := true; clearCallback := true; typed := [];
     trace := tr |}.

End InterpreterSpec.

Module SessionSpec.
Import JS BasicInterpreter InterpreterSpec.

(** Every frame of the loop stack names a variable that is bound. *)
Definition loops_bound (st : state) : Prop :=
  Forall (λ loop, is_Some (variables st !! variable loop)) (forStack st).

(** Every stored line sits under the key of its own line number, with
    the text that was typed and the statement this text parses to. *)
Definition stored_as_typed `{Runtime} (st : state) : Prop :=
  ∀ key line, program st !! key = Some line →
    ∃ tokens lineNumber,
      tokenize (source line) = Normal tokens
      ∧ parse tokens = Normal (PROGRAM_LINE lineNumber (ast line))
      ∧ Map_key lineNumber = key.

(** What executing a statement may do to the parts of the state that
    are not its variables: the store is kept or emptied, the calls made
    so far stay made, typed lines are only consumed, and the callbacks
    stay registered as they were. *)
Record proceeds (st st' : state) : Prop := {
  proceeds_program : program st' = program st ∨ program st' = ∅;
  proceeds_trace : trace st `prefix_of` trace st';
  proceeds_typed : typed st' `suffix_of` typed st;
  proceeds_output : outputCallback st' = outputCallback st;
  proceeds_outputLine : outputLineCallback st' = outputLineCallback st;
  proceeds_input : inputCallback st' = inputCallback st;
  proceeds_clear : clearCallback st' = clearCallback st
}.

End SessionSpec.

Module ListingSpec.
Import JS BasicInterpreter InterpreterSpec.




End ListingSpec.

Module SyntaxSpec.
Import JS BasicParser.

(** The operators [evaluate] knows. *)
Definition BINARY_OPERATORS : list string :=
  ["+"; "-"; "*"; "/"; "="; "<>"; "<"; ">"; "<="; ">="].

(** Nodes that [evaluate] handles, with operators it knows. *)
Fixpoint is_expression (nd : node) : bool :=
  match nd with
  | NUMBER _ | STRING _ | VARIABLE _ => true
  | BINARY operator l r =>
      includes BINARY_OPERATORS operator && is_expression l && is_expression r
  | UNARY operator operand => String.eqb operator "-" && is_expression operand
  | _ => false
  end.

(** Nodes that [executeNode] handles, holding expressions where it
    evaluates and a statement after THEN. *)
Fixpoint is_statement (nd : node) : bool :=
  match nd with
  | PRINT expressions _ => forallb is_expression expressions
  | LET _ e => is_expression e
  | IF condition thenStatement =>
      is_expression condition && is_statement thenStatement
  | FOR _ start end_ step =>
      is_expression start && is_expression end_ && is_expression step
  | INPUT _ _ | GOTO _ | NEXT _ | REM | END | LIST _ _ | RUN | NEW | HOME =>
      true
  | _ => false
  end.

(** What [parse] may return for [executeImmediate]. *)
Definition is_line (nd : node) : bool :=
  match nd with
  | EMPTY => true
  | PROGRAM_LINE _ statement => is_statement statement
  | statement => is_statement statement
  end.

End SyntaxSpec.

Module ErrorSpec.
Import JS BasicInterpreter.


End ErrorSpec.

Module TokenSpec.
Import JS BasicTokenizer InterpreterSpec.

(** What the tokenizer makes of a word, an operator, a punctuation
    sign or a string literal: a keyword is one of [KEYWORDS]; an
    identifier is not, starts with an upper-case letter and is made of
    upper-case letters, digits and dollar signs; a string literal
    holds no double quote. *)
Definition well_classified (t : token_type) : bool :=
  match t with
  | NUMBER _ => true
  | STRING v => all_chars (λ c, negb (Ascii.eqb c double_quote)) v
  | KEYWORD v => includes KEYWORDS v
  | IDENTIFIER v =>
      negb (includes KEYWORDS v)
      && match v with String c _ => is_upper c | EmptyString => false end
      && all_chars (λ c, is_upper c || is_digit c || Ascii.eqb c "$"%char) v
  | OPERATOR v => includes OPERATORS v
  | PUNCTUATION v => includes PUNCTUATION_CHARS v
  | EOL | EOF => false
  end.

(** A character that starts no token. *)
Definition unknown_character (c : ascii) : bool :=
  negb (is_whitespace c || is_digit c || Ascii.eqb c double_quote
        || is_letter c || includes OPERATORS (String c EmptyString)
        || includes PUNCTUATION_CHARS (String c EmptyString)).

(** The message thrown for the character [c] found at [pos]. *)
Definition unknown_character_message (c : ascii) (pos : nat) : string :=
  "Unknown character: '" ++ String c EmptyString ++ "' at position "
  ++ pretty pos.

(** Each number is less than the one after it. *)
Fixpoint ascending (l : list nat) : bool :=
  match l with
  | a :: (b :: _) as rest => (a <? b)%nat && ascending rest
  | _ => true
  end.

End TokenSpec.

Module PrecedenceSpec.
Import JS BasicParser.

(** The node of a token that is an expression by itself. *)
Definition atom (t : token) : option node :=
  match type t with
  | BasicTokenizer.NUMBER v => Some (NUMBER v)
  | BasicTokenizer.STRING v => Some (STRING v)
  | IDENTIFIER v => Some (VARIABLE v)
  | _ => None
  end.

(** Operator tokens, and the operators of the three levels. *)
Definition is_operator (t : token) : bool :=
  match type t with OPERATOR _ => true | _ => false end.

Definition ADDITIVE : list string := ["+"; "-"].
Definition MULTIPLICATIVE : list string := ["*"; "/"].
Definition COMPARISON : list string := ["="; "<>"; "<"; ">"; "<="; ">="].

End PrecedenceSpec.

Module BoundsSpec.
Import JS BasicParser.

(** The last token is an end of line. *)
Definition closed (ts : list token) : Prop :=
  ∃ body t, ts = (body ++ [t])%list ∧ at_end t = true.

(** A parsing step hands back tokens that still end the same way, and
    if it throws it is not for having read past the last token. *)
Definition in_bounds {A : Type} (r : completion (A * list token)) : Prop :=
  match r with
  | Normal (_, ts') => closed ts'
  | Thrown message => message ≠ TypeError_undefined
  | Never _ => True
  end.

End BoundsSpec.

Module TextSpec.
Import JS BasicScreen.

(** The characters of a text, as the cells of a row hold them. *)
Definition cells (text : string) : row :=
  Some <$> list_ascii_of_string text.

(** No character of the text is a line feed. *)
Fixpoint no_line_break (text : string) : bool :=
  match text with
  | EmptyString => true
  | String c rest => negb (Ascii.eqb c (ascii_of_nat 10)) && no_line_break rest
  end.

End TextSpec.

Module InputSpec.
Import JS BasicScreenInput.

(** The key of one character, pressed with no modifier. *)
Definition plain_key (c : ascii) : key_event :=
  {| key := String c EmptyString; ctrlKey := false; altKey := false;
     metaKey := false |}.

(** The keys of a text, pressed one after the other. *)
Definition keys_of (text : string) : list key_event :=
  plain_key <$> list_ascii_of_string text.

(** The Enter and the Backspace key, with whatever modifier. *)
Definition is_enter (e : key_event) : Prop := key e = "Enter".
Definition is_backspace (e : key_event) : Prop := key e = "Backspace".

(** The events reach the listener one after the other. *)
Definition press `{Casing} (events : list key_event) (st : state) : state :=
  foldl (λ s e, keyHandler e s) st events.

(** An engine for the closed examples: they type ASCII only. *)
Definition sample_casing : Casing :=
  {| toUpperCase_other := λ c, String c EmptyString |}.

End InputSpec.


(** ** Strings *)

Section strings.
Import JS BasicTokenizer InterpreterSpec.

Lemma append_cons (c : ascii) (s1 s2 : string) :
  String c s1 ++ s2 = String c (s1 ++ s2).
Proof. reflexivity. Qed.

Lemma append_empty_r (s : string) : s ++ "" = s.
Proof.
  induction s as [|c s IH]; [done|]. by rewrite append_cons, IH.
Qed.

Lemma append_assoc (s1 s2 s3 : string) : (s1 ++ s2) ++ s3 = s1 ++ s2 ++ s3.
Proof.
  induction s1 as [|c s1 IH]; [done|]. by rewrite !append_cons, IH.
Qed.

Lemma rev_app_rev_app (s1 s2 s3 : string) :
  String.rev_app (String.rev_app s1 s2) s3 = String.rev_app s2 (s1 ++ s3).
Proof.
  revert s2 s3. induction s1 as [|c s1 IH]; intros s2 s3; [done|].
  cbn [String.rev_app]. by rewrite IH.
Qed.

Lemma rev_involutive (s : string) : String.rev (String.rev s) = s.
Proof.
  unfold String.rev. rewrite rev_app_rev_app. apply append_empty_r.
Qed.

Lemma rev_app_append (s1 s2 : string) :
  String.rev_app s1 s2 = String.rev s1 ++ s2.
Proof.
  unfold String.rev. revert s2. induction s1 as [|c s1 IH]; intros s2; [done|].
  cbn [String.rev_app]. by rewrite (IH (String c "")), IH, append_assoc.
Qed.

Lemma rev_append (s1 s2 : string) :
  String.rev (s1 ++ s2) = String.rev s2 ++ String.rev s1.
Proof.
  induction s1 as [|c s1 IH].
  - by rewrite append_empty_r.
  - rewrite append_cons. unfold String.rev. cbn [String.rev_app].
    rewrite (rev_app_append (s1 ++ s2)), (rev_app_append s1).
    by rewrite IH, append_assoc.
Qed.

Lemma prefix_spec (s1 s2 : string) :
  String.prefix s1 s2 = true ↔ ∃ q, s2 = s1 ++ q.
Proof.
  revert s2. induction s1 as [|c s1 IH]; intros s2.
  - split; [|by destruct s2]. intros _. by exists s2.
  - destruct s2 as [|c' s2]; cbn.
    + split; [done|]. intros [q Hq]. by rewrite append_cons in Hq.
    + destruct (ascii_dec c c') as [<-|Hne].
      * rewrite IH. split; intros [q Hq]; exists q;
          rewrite ?append_cons in *; congruence.
      * split; [done|]. intros [q Hq]. rewrite append_cons in Hq. congruence.
Qed.

(** [endsWith] is true exactly of the strings that end with [suffix]. *)
Lemma endsWith_spec (s suffix : string) :
  endsWith s suffix = true ↔ ∃ p, s = p ++ suffix.
Proof.
  unfold endsWith. rewrite prefix_spec. split.
  - intros [q Hq]. exists (String.rev q).
    rewrite <-(rev_involutive s), Hq, rev_append. by rewrite rev_involutive.
  - intros [p ->]. exists (String.rev p). apply rev_append.
Qed.

(** [string_includes] is true exactly of the strings that have [sub] as
    a substring. *)
Lemma string_includes_spec (s sub : string) :
  string_includes s sub = true ↔ ∃ p q, s = p ++ sub ++ q.
Proof.
  induction s as [|c s IH].
  - cbn [string_includes]. rewrite orb_false_r, prefix_spec. split.
    + intros [q Hq]. by exists "", q.
    + intros (p & q & Hpq). destruct p; [by exists q|done].
  - cbn [string_includes]. rewrite orb_true_iff, prefix_spec, IH. split.
    + intros [[q Hq]|(p & q & ->)].
      * by exists "", q.
      * by exists (String c p), q.
    + intros (p & q & Hpq). destruct p as [|c' p].
      * left. by exists q.
      * right. exists p, q. rewrite append_cons in Hpq. congruence.
Qed.

Lemma all_chars_rev_app p (s1 s2 : string) :
  all_chars p (String.rev_app s1 s2) = all_chars p s1 && all_chars p s2.
Proof.
  revert s2. induction s1 as [|c s1 IH]; intros s2; [done|].
  cbn. rewrite IH. cbn. btauto.
Qed.

Lemma trim_start_no_space (s : string) :
  all_chars (λ c, negb (is_whitespace c)) s = true → trim_start s = s.
Proof.
  destruct s as [|c s]; [done|]. cbn.
  intros [Hc _]%andb_true_iff. apply negb_true_iff in Hc. by rewrite Hc.
Qed.

(** A string without white space is its own [trim]. *)
Lemma trim_no_space (s : string) :
  all_chars (λ c, negb (is_whitespace c)) s = true → trim s = s.
Proof.
  intros Hs. unfold trim. rewrite (trim_start_no_space s Hs).
  rewrite trim_start_no_space; [apply rev_involutive|].
  unfold String.rev. by rewrite all_chars_rev_app, Hs.
Qed.

Lemma digit_not_whitespace (c : ascii) :
  is_digit c = true → is_whitespace c = false.
Proof. by destruct c as [[] [] [] [] [] [] [] []]. Qed.

Lemma all_chars_impl (p q : ascii → bool) (s : string) :
  (∀ c, p c = true → q c = true) →
  all_chars p s = true → all_chars q s = true.
Proof.
  intros Hpq. induction s as [|c s IH]; [done|]. cbn.
  rewrite !andb_true_iff. intros [??]. auto.
Qed.

End strings.

(** ** The tokenizer on a line number *)

Section line_numbers.
Import JS BasicTokenizer InterpreterSpec.
Context `{Runtime}.

Lemma readNumber_loop_digits (s : string) (d : bool) :
  all_chars is_digit s = true → readNumber_loop s d = (s, d, EmptyString).
Proof.
  induction s as [|c s IH]; [done|]. cbn.
  intros [Hc Hs]%andb_true_iff. by rewrite Hc, (IH Hs).
Qed.

(** A line made of decimal digits only is one NUMBER token. *)
Lemma tokenize_digits (digits : string) :
  digits ≠ EmptyString → all_chars is_digit digits = true →
  tokenize digits
  = Normal [createToken (NUMBER (parseInt digits)) 0;
            createToken EOL (String.length digits)].
Proof.
  intros Hne Hdigits. unfold tokenize.
  rewrite trim_no_space; last first.
  { eapply all_chars_impl; [|exact Hdigits].
    intros c Hc. by rewrite (digit_not_whitespace c Hc). }
  destruct digits as [|c s]; [done|].
  pose proof Hdigits as [Hc Hs]%andb_true_iff.
  cbn [String.length tokenize_loop].
  rewrite (digit_not_whitespace c Hc), Hc.
  unfold readNumber. rewrite (readNumber_loop_digits _ _ Hdigits).
  cbn [tokenize_loop String.length]. destruct (String.length s); cbn; done.
Qed.

End line_numbers.

(** ** The tokenizer and the parser always complete *)

Section always_complete.
Import JS BasicParser InterpreterSpec.
Context `{Runtime}.

Lemma readNumber_loop_length (s : string) : ∀ d,
  (String.length (readNumber_loop s d).2 ≤ String.length s)%nat.
Proof.
  induction s as [|c s IH]; intros d; [done|]. cbn [readNumber_loop].
  destruct (is_digit c).
  - specialize (IH d). destruct (readNumber_loop s d) as [[??]?].
    cbn in *. lia.
  - destruct (Ascii.eqb c "." && negb d); [|done].
    specialize (IH true). destruct (readNumber_loop s true) as [[??]?].
    cbn in *. lia.
Qed.

Lemma readString_length (s : string) :
  (String.length (readString s).2 ≤ String.length s)%nat.
Proof.
  induction s as [|c s IH]; [done|]. cbn [readString].
  destruct (Ascii.eqb c double_quote); [cbn; lia|].
  destruct (readString s). cbn in *. lia.
Qed.

Lemma readWord_length (s : string) :
  (String.length (readWord s).2 ≤ String.length s)%nat.
Proof.
  induction s as [|c s IH]; [done|]. cbn [readWord].
  destruct (is_word_char c); [|done].
  destruct (readWord s). cbn in *. lia.
Qed.

Lemma readOperator_length (c : ascii) (s : string) value rest width :
  readOperator (String c s) = Some (value, rest, width) →
  (String.length rest ≤ String.length s)%nat.
Proof.
  unfold readOperator.
  assert (String.length (take2 (String c s)).2 ≤ String.length s)%nat as Htake.
  { destruct s as [|c' s]; cbn; lia. }
  destruct (take2 (String c s)) as [twoChar rest2]. cbn [snd] in Htake.
  destruct (includes OPERATORS twoChar); [by intros [= <- <- <-]|].
  destruct (includes OPERATORS (String c "")); [|done].
  by intros [= <- <- <-].
Qed.

Lemma tokenize_loop_completes (fuel : nat) : ∀ s pos w,
  (String.length s ≤ fuel)%nat → tokenize_loop fuel s pos ≠ Never w.
Proof.
  induction fuel as [|fuel IH]; intros [|c s] pos w Hlen; try done.
  { cbn in Hlen. lia. }
  cbn [String.length] in Hlen.
  assert (∀ t rest endPos,
    (String.length rest ≤ String.length s)%nat →
    match tokenize_loop fuel rest endPos with
    | Normal tokens => Normal (createToken t pos :: tokens)
    | other => other
    end ≠ Never w) as Hcontinue.
  { intros t rest endPos Hrest.
    pose proof (IH rest endPos w) as Hnever.
    destruct (tokenize_loop fuel rest endPos); [done|done|].
    intros [= ->]. apply Hnever; [lia|done]. }
  cbn [tokenize_loop]. destruct (is_whitespace c).
  { apply IH. lia. }
  destruct (is_digit c) eqn:Hdigit.
  { unfold readNumber. cbn [readNumber_loop]. rewrite Hdigit.
    pose proof (readNumber_loop_length s false) as Hrest.
    destruct (readNumber_loop s false) as [[numStr d] rest].
    by apply Hcontinue. }
  destruct (Ascii.eqb c double_quote).
  { pose proof (readString_length s) as Hrest.
    destruct (readString s) as [value rest]. by apply Hcontinue. }
  destruct (is_letter c) eqn:Hletter.
  { cbn [readWord]. unfold is_word_char. rewrite Hletter. cbn [orb].
    pose proof (readWord_length s) as Hrest.
    destruct (readWord s) as [value rest].
    destruct (isKeyword _); by apply Hcontinue. }
  destruct (readOperator (String c s)) as [[[value rest] width]|] eqn:Hop.
  { apply Hcontinue. by eapply readOperator_length. }
  destruct (includes PUNCTUATION_CHARS _); [by apply Hcontinue|done].
Qed.

(** Tokenizing a line returns its tokens or throws. *)
Lemma tokenize_completes (line : string) (w : pending) :
  tokenize line ≠ Never w.
Proof. unfold tokenize. by apply tokenize_loop_completes. Qed.

End always_complete.

(** Bounds on lengths from what is known of suffixes, then the goal: a
    chain of suffixes or a comparison of lengths. *)
Ltac suffix_facts :=
  repeat match goal with
  | F : _ ∧ _ |- _ => destruct F
  | F : ?a `suffix_of` ?b |- _ =>
      lazymatch goal with
      | _ : (length a ≤ length b)%nat |- _ => fail
      | _ => pose proof (suffix_length _ _ F)
      end
  end.

Ltac suffix_chain :=
  solve [repeat first
           [reflexivity | eassumption | (apply suffix_cons_r; reflexivity)
           | (etrans; [eassumption|])]].

Ltac parser_done :=
  cbn [ParserSpec.completes ParserSpec.consumes mbind
       BasicParser.completion_bind length] in *;
  suffix_facts;
  first [done | lia | suffix_chain | (split; [suffix_chain|lia])].

Section parser_completes.
Import JS BasicParser ParserSpec.
Context `{Runtime}.

Lemma consumes_completes {A : Type} ts (r : completion (A * list token)) :
  consumes ts r → completes ts r.
Proof. destruct r as [[??]| |]; cbn; [by intros [??]|done|done]. Qed.

Lemma advance_spec (ts : list token) :
  match advance ts with
  | Normal ts' =>
      ts' `suffix_of` ts
      ∧ ∀ t rest, ts = t :: rest → at_end t = false → ts' = rest
  | Thrown _ => True
  | Never _ => False
  end.
Proof.
  destruct ts as [|t rest]; [done|]. cbn [advance]. split.
  - destruct (at_end t); [done|]. by apply suffix_cons_r.
  - by intros ?? [= <- <-] ->.
Qed.

Lemma check_spec type_ value (ts : list token) :
  match check type_ value ts with
  | Normal b => b = true → ∃ t rest, ts = t :: rest ∧ at_end t = false
  | Thrown _ => True
  | Never _ => False
  end.
Proof.
  destruct ts as [|t rest]; [done|]. cbn [check].
  destruct (at_end t) eqn:Hend; [done|]. intros _. by exists t, rest.
Qed.

Lemma isAtEnd_spec (ts : list token) :
  match isAtEnd ts with
  | Normal b => b = false → ∃ t rest, ts = t :: rest ∧ at_end t = false
  | Thrown _ => True
  | Never _ => False
  end.
Proof.
  destruct ts as [|t rest]; [done|]. cbn [isAtEnd]. intros ?. by exists t, rest.
Qed.

Lemma expect_consumes type_ value (ts : list token) :
  consumes ts (expect type_ value ts).
Proof.
  unfold expect. pose proof (check_spec type_ value ts) as Hcheck.
  destruct (check type_ value ts) as [[]| |];
    cbn [mbind completion_bind]; try done.
  - destruct Hcheck as (t & rest & -> & Hend); [done|].
    cbn [advance]. rewrite Hend. cbn. split; [by apply suffix_cons_r|lia].
  - by destruct ts.
Qed.

Lemma binary_loop_completes ops (operand : parser node) (n : nat) :
  ∀ lhs ts,
    (length ts ≤ n)%nat →
    (∀ ts1, (length ts1 < length ts)%nat → completes ts1 (operand ts1)) →
    completes ts (binary_loop ops operand n lhs ts).
Proof.
  induction n as [|n IH]; intros lhs [|t rest] Hlen Hoperand; try done.
  { cbn in Hlen. lia. }
  cbn [binary_loop length] in *.
  destruct (type t) as [?|?|?|?|op|?| |] eqn:Htype; try parser_done.
  destruct (includes ops op); [|parser_done].
  unfold advance, at_end. rewrite Htype. cbn [mbind completion_bind].
  assert (completes rest (operand rest)) as Hrest by (apply Hoperand; lia).
  destruct (operand rest) as [[rhs ts2]| |];
    cbn [mbind completion_bind completes] in *; [|done|done].
  assert (completes ts2 (binary_loop ops operand n (BINARY op lhs rhs) ts2))
    as Hloop.
  { pose proof (suffix_length _ _ Hrest).
    apply IH; [lia|]. intros ts1 ?. apply Hoperand. lia. }
  destruct (binary_loop ops operand n (BINARY op lhs rhs) ts2)
    as [[e ts3]| |]; parser_done.
Qed.

Lemma binary_level_consumes ops (operand : parser node) (ts : list token) :
  (∀ ts1, (length ts1 ≤ length ts)%nat → consumes ts1 (operand ts1)) →
  consumes ts
    ('(lhs, ts1) ← operand ts; binary_loop ops operand (length ts1) lhs ts1).
Proof.
  intros Hoperand.
  assert (consumes ts (operand ts)) as Hfirst by (by apply Hoperand).
  destruct (operand ts) as [[lhs ts1]| |];
    cbn [mbind completion_bind consumes] in *; [|done|done].
  destruct Hfirst as [Hsuffix Hshorter].
  assert (completes ts1 (binary_loop ops operand (length ts1) lhs ts1))
    as Hloop.
  { apply binary_loop_completes; [lia|].
    intros ts' ?. apply consumes_completes, Hoperand. lia. }
  destruct (binary_loop ops operand (length ts1) lhs ts1) as [[e ts2]| |];
    parser_done.
Qed.

Lemma parseComparison_with_consumes (prim : parser node) (ts : list token) :
  (∀ ts1, (length ts1 ≤ length ts)%nat → consumes ts1 (prim ts1)) →
  consumes ts (parseComparison_with prim ts).
Proof.
  intros Hprim. apply binary_level_consumes. intros ts1 Hts1.
  apply binary_level_consumes. intros ts2 Hts2.
  apply binary_level_consumes. intros ts3 Hts3. apply Hprim. lia.
Qed.

Lemma parsePrimary_consumes (fuel : nat) : ∀ ts,
  (length ts < fuel)%nat → consumes ts (parsePrimary fuel ts).
Proof.
  induction fuel as [|fuel IH]; intros ts Hlen; [lia|].
  destruct ts as [|tok rest]; [done|]. cbn [parsePrimary length] in *.
  assert (∀ k : list token → completion (node * list token),
            at_end tok = false →
            consumes (tok :: rest) (k rest) →
            consumes (tok :: rest) (advance (tok :: rest) ≫= k))
    as Hadvance.
  { intros k Hend Hk. cbn [advance mbind completion_bind]. by rewrite Hend. }
  assert (∀ b,
    consumes (tok :: rest)
      (paren ← check "PUNCTUATION" (Some "(") (tok :: rest);
       if paren : bool then
         ts1 ← advance (tok :: rest);
         '(expr, ts2) ← parseComparison_with (parsePrimary fuel) ts1;
         '(_, ts3) ← expect "PUNCTUATION" (Some ")") ts2;
         Normal (expr, ts3)
       else
         minus ← check "OPERATOR" (Some "-") (tok :: rest);
         if minus : bool then
           ts1 ← advance (tok :: rest);
           '(operand, ts2) ← parsePrimary fuel ts1;
           Normal (UNARY "-" operand, ts2)
         else Thrown b)) as Hother.
  { intros b.
    pose proof (check_spec "PUNCTUATION" (Some "(") (tok :: rest)) as Hparen.
    destruct (check "PUNCTUATION" (Some "(") (tok :: rest)) as [[]| |];
      cbn [mbind completion_bind]; [| |done|done].
    - destruct Hparen as (t & rest' & [= <- <-] & Hend); [done|].
      apply Hadvance; [done|].
      assert (consumes rest (parseComparison_with (parsePrimary fuel) rest))
        as Hexpr.
      { apply parseComparison_with_consumes. intros ts1 ?. apply IH. lia. }
      destruct (parseComparison_with (parsePrimary fuel) rest)
        as [[expr ts2]| |]; cbn [mbind completion_bind consumes] in *;
        [|done|done].
      pose proof (expect_consumes "PUNCTUATION" (Some ")") ts2) as Hclose.
      destruct (expect "PUNCTUATION" (Some ")") ts2) as [[? ts3]| |];
        parser_done.
    - pose proof (check_spec "OPERATOR" (Some "-") (tok :: rest)) as Hminus.
      destruct (check "OPERATOR" (Some "-") (tok :: rest)) as [[]| |];
        cbn [mbind completion_bind]; [|done|done|done].
      destruct Hminus as (t & rest' & [= <- <-] & Hend); [done|].
      apply Hadvance; [done|].
      assert (consumes rest (parsePrimary fuel rest)) as Hoperand.
      { apply IH. lia. }
      destruct (parsePrimary fuel rest) as [[operand ts2]| |]; parser_done. }
  destruct (type tok) eqn:Htype; try apply Hother;
    (apply Hadvance; [unfold at_end; by rewrite Htype|]);
    parser_done.
Qed.

Lemma parseExpression_consumes (ts : list token) :
  consumes ts (parseExpression ts).
Proof.
  unfold parseExpression. apply parseComparison_with_consumes.
  intros ts1 Hts1. apply parsePrimary_consumes. lia.
Qed.

End parser_completes.

Section identifiers.
Import JS BasicTokenizer InterpreterSpec.
Context `{Runtime}.

Lemma tokenize_loop_identifiers (fuel : nat) : ∀ s pos tokens,
  tokenize_loop fuel s pos = Normal tokens →
  Forall (λ t, type t ≠ IDENTIFIER EmptyString) tokens.
Proof.
  induction fuel as [|fuel IH]; intros [|c s] pos tokens; cbn [tokenize_loop].
  - intros [= <-]. by repeat constructor.
  - done.
  - intros [= <-]. by repeat constructor.
  - assert (∀ t rest endPos,
      t ≠ IDENTIFIER EmptyString →
      match tokenize_loop fuel rest endPos with
      | Normal tokens => Normal (createToken t pos :: tokens)
      | other => other
      end = Normal tokens →
      Forall (λ t, type t ≠ IDENTIFIER EmptyString) tokens) as Hcontinue.
    { intros t rest endPos Ht Heq.
      destruct (tokenize_loop fuel rest endPos) as [tokens'| |] eqn:Hrest;
        [|done|done].
      injection Heq as <-. constructor; [done|by eapply IH]. }
    destruct (is_whitespace c); [apply IH|].
    destruct (is_digit c).
    { destruct (readNumber (String c s)). by apply Hcontinue. }
    destruct (Ascii.eqb c double_quote).
    { destruct (readString s). by apply Hcontinue. }
    destruct (is_letter c) eqn:Hletter.
    { cbn [readWord]. unfold is_word_char. rewrite Hletter. cbn [orb].
      destruct (readWord s) as [value rest]. cbn [toUpperCase].
      destruct (isKeyword _); by apply Hcontinue. }
    destruct (readOperator (String c s)) as [[[value rest] width]|].
    { by apply Hcontinue. }
    destruct (includes PUNCTUATION_CHARS _); [by apply Hcontinue|done].
Qed.

(** The tokenizer never makes an identifier of the empty string, so
    that a variable named after NEXT is always a non-empty name. *)
Lemma tokenize_identifiers (line : string) (tokens : list token) :
  tokenize line = Normal tokens →
  Forall (λ t, type t ≠ IDENTIFIER EmptyString) tokens.
Proof. apply tokenize_loop_identifiers. Qed.

End identifiers.

Section evaluation_completes.
Import JS BasicInterpreter InterpreterSpec.
Context `{Runtime}.

(** Evaluating an expression returns a value or throws. *)
Lemma evaluate_completes nd : ∀ vars w, (evaluate nd vars).2 ≠ Never w.
Proof.
  induction nd; intros vars w; try done.
  - cbn [evaluate]. specialize (IHnd1 vars).
    destruct (evaluate nd1 vars) as [vars1 [lv| |]]; cbn [snd] in *;
      [|done|by apply IHnd1].
    specialize (IHnd2 vars1).
    destruct (evaluate nd2 vars1) as [vars2 [rv| |]]; cbn [snd] in *;
      [|done|by apply IHnd2].
    repeat case_match; done.
  - cbn [evaluate]. specialize (IHnd vars).
    destruct (evaluate nd vars) as [vars1 [v| |]]; cbn [snd] in *;
      [|done|by apply IHnd].
    by case_match.
Qed.

(** No error escapes [executeImmediate]: it returns, or it never does. *)
Lemma executeImmediate_never_throws fuel line st message :
  (executeImmediate fuel line st).2 ≠ Thrown message.
Proof.
  unfold executeImmediate. repeat case_match; done.
Qed.

End evaluation_completes.

Section statements_complete.
Import JS BasicParser ParserSpec.
Context `{Runtime}.

(** One more call of the body is destructed, with what is known about
    its result; then the matches on tokens. *)
Ltac statement_step :=
  match goal with
  | |- context [parseExpression ?x] =>
      let F := fresh "Hexpression" in
      pose proof (parseExpression_consumes x) as F;
      destruct (parseExpression x) as [[? ?]|?|?]
  | |- context [expect ?a ?b ?x] =>
      let F := fresh "Hexpect" in
      pose proof (expect_consumes a b x) as F;
      destruct (expect a b x) as [[? ?]|?|?]
  | |- context [advance ?x] =>
      let F := fresh "Hadvance" in
      pose proof (advance_spec x) as F;
      destruct (advance x) as [?|?|?];
      [destruct F as [F _]|clear F|exfalso; exact F]
  | |- context [check ?a ?b ?x] =>
      let F := fresh "Hcheck" in
      pose proof (check_spec a b x) as F;
      destruct (check a b x) as [[]|?|?];
      [clear F|clear F|clear F|exfalso; exact F]
  | |- context [match ?l with [] => _ | _ :: _ => _ end] => destruct l
  | |- context [match type ?t with _ => _ end] => destruct (type t)
  end;
  cbn [mbind completion_bind completes consumes] in *;
  try done; try parser_done.

Ltac statement_steps := repeat statement_step.

Lemma parsePrint_loop_completes (n : nat) : ∀ ts,
  (length ts ≤ n)%nat → completes ts (parsePrint_loop n ts).
Proof.
  induction n as [|n IH]; intros [|t rest] Hlen; try done.
  { cbn in Hlen. lia. }
  cbn [parsePrint_loop isAtEnd mbind completion_bind length] in *.
  destruct (at_end t); [parser_done|].
  pose proof (parseExpression_consumes (t :: rest)) as Hexpression.
  destruct (parseExpression (t :: rest)) as [[expr ts1]| |];
    cbn [mbind completion_bind consumes length] in *; [|done|done].
  destruct Hexpression as [Hsuffix Hshorter].
  assert (∀ sep ts2, ts2 `suffix_of` ts1 →
    completes (t :: rest)
      ('(expressions, separators, ts3) ← parsePrint_loop n ts2;
       Normal (expr :: expressions, sep :: separators, ts3))) as Hnext.
  { intros sep ts2 Hts2. pose proof (suffix_length _ _ Hts2).
    assert (completes ts2 (parsePrint_loop n ts2)) as Hloop
      by (apply IH; lia).
    destruct (parsePrint_loop n ts2) as [[[es seps] ts3]| |]; parser_done. }
  statement_steps; by apply Hnext.
Qed.

Lemma parsePrint_completes ts : completes ts (parsePrint ts).
Proof.
  unfold parsePrint. statement_step.
  match goal with
  | |- context [parsePrint_loop (length ?l) ?l] =>
      assert (completes l (parsePrint_loop (length l) l)) as Hloop
        by (by apply parsePrint_loop_completes);
      destruct (parsePrint_loop (length l) l) as [[[es seps] ts2]| |];
      parser_done
  end.
Qed.

Lemma parseLet_completes ts : completes ts (parseLet ts).
Proof. unfold parseLet. statement_steps. Qed.

Lemma parseInput_completes ts : completes ts (parseInput ts).
Proof. unfold parseInput. statement_steps. Qed.

Lemma parseGoto_completes ts : completes ts (parseGoto ts).
Proof. unfold parseGoto. statement_steps. Qed.

Lemma parseFor_completes ts : completes ts (parseFor ts).
Proof. unfold parseFor. statement_steps. Qed.

Lemma parseNext_completes ts : completes ts (parseNext ts).
Proof. unfold parseNext. statement_steps. Qed.

Lemma parseRem_completes ts : completes ts (parseRem ts).
Proof. unfold parseRem. statement_steps. Qed.

Lemma parseList_completes ts : completes ts (parseList ts).
Proof. unfold parseList. statement_steps. Qed.

Lemma parseIf_with_completes (parseStatement : parser node) ts :
  (∀ ts1, (length ts1 < length ts)%nat → completes ts1 (parseStatement ts1)) →
  completes ts (parseIf_with parseStatement ts).
Proof.
  intros Hstatement. unfold parseIf_with. statement_step. statement_step.
  statement_step.
  match goal with
  | |- context [match ?l with [] => _ | _ :: _ => _ end] =>
      destruct l as [|tk tks]
  end; [done|].
  assert (completes (tk :: tks) (parseStatement (tk :: tks))) as Hthen.
  { apply Hstatement. suffix_facts. lia. }
  destruct (type tk); statement_steps;
    destruct (parseStatement (tk :: tks)) as [[? ?]| |]; parser_done.
Qed.

Lemma parseStatement_completes (fuel : nat) : ∀ ts,
  (length ts < fuel)%nat → completes ts (parseStatement fuel ts).
Proof.
  induction fuel as [|fuel IH]; intros ts Hlen; [lia|].
  destruct ts as [|tok rest]; [done|]. cbn [parseStatement].
  destruct (type tok) as [?|?|keyword|?|?|?| |]; try done.
  - repeat case_match;
      auto using parsePrint_completes, parseLet_completes,
        parseInput_completes, parseGoto_completes, parseFor_completes,
        parseNext_completes, parseRem_completes, parseList_completes;
      try (by statement_steps).
    apply parseIf_with_completes. intros ts1 ?. apply IH. lia.
  - apply parseLet_completes.
Qed.

(** Parsing a token sequence returns a node or throws. *)
Lemma parse_completes (tokens : list token) (w : pending) :
  parse tokens ≠ Never w.
Proof.
  unfold parse. destruct tokens as [|t rest]; [done|].
  cbn [isAtEnd mbind completion_bind]. destruct (at_end t) eqn:Hend; [done|].
  assert (∀ ts, (length ts ≤ length (t :: rest))%nat →
            ∀ k : node → node,
              ('(statement, _) ← parseStatement (S (length (t :: rest))) ts;
               Normal (k statement)) ≠ Never w) as Hstatement.
  { intros ts Hts k.
    pose proof (parseStatement_completes (S (length (t :: rest))) ts) as Hc.
    destruct (parseStatement (S (length (t :: rest))) ts) as [[? ?]| |];
      cbn [mbind completion_bind completes] in *; try done.
    intros _. apply Hc. lia. }
  destruct (type t) as [lineNumber|?|?|?|?|?| |];
    try (apply (Hstatement (t :: rest) (reflexivity _) (λ s, s))).
  cbn [advance]. rewrite Hend. cbn [mbind completion_bind].
  apply (Hstatement rest); cbn; lia.
Qed.

End statements_complete.

Section next_names.
Import JS BasicParser ParserSpec.
Context `{Runtime}.

Lemma Forall_suffix {A : Type} (P : A → Prop) (l1 l2 : list A) :
  l1 `suffix_of` l2 → Forall P l2 → Forall P l1.
Proof. intros [k ->] Hall. by apply Forall_app in Hall as [_ ?]. Qed.

(** A statement that is neither NEXT nor IF holds no NEXT. *)
Lemma explicit_names_other nd :
  node_type nd ≠ "NEXT" → node_type nd ≠ "IF" →
  node_type nd ≠ "PROGRAM_LINE" → explicit_names nd.
Proof. by destruct nd as [| | | | | | | |[]| | | | | | | | | | |]. Qed.

Ltac parser_result :=
  unfold mbind, completion_bind; intros;
  repeat case_match; simplify_eq; done.

Lemma parsePrint_type ts nd ts' :
  parsePrint ts = Normal (nd, ts') → node_type nd = "PRINT".
Proof. unfold parsePrint. parser_result. Qed.

Lemma parseLet_type ts nd ts' :
  parseLet ts = Normal (nd, ts') → node_type nd = "LET".
Proof. unfold parseLet. parser_result. Qed.

Lemma parseInput_type ts nd ts' :
  parseInput ts = Normal (nd, ts') → node_type nd = "INPUT".
Proof. unfold parseInput. parser_result. Qed.

Lemma parseGoto_type ts nd ts' :
  parseGoto ts = Normal (nd, ts') → node_type nd = "GOTO".
Proof. unfold parseGoto. parser_result. Qed.

Lemma parseFor_type ts nd ts' :
  parseFor ts = Normal (nd, ts') → node_type nd = "FOR".
Proof. unfold parseFor. parser_result. Qed.

Lemma parseRem_type ts nd ts' :
  parseRem ts = Normal (nd, ts') → node_type nd = "REM".
Proof. unfold parseRem. parser_result. Qed.

Lemma parseList_type ts nd ts' :
  parseList ts = Normal (nd, ts') → node_type nd = "LIST".
Proof. unfold parseList. parser_result. Qed.

Lemma parseNext_explicit_names ts nd ts' :
  Forall (λ t, type t ≠ IDENTIFIER EmptyString) ts →
  parseNext ts = Normal (nd, ts') → explicit_names nd.
Proof.
  intros Hnamed. unfold parseNext.
  pose proof (expect_consumes "KEYWORD" (Some "NEXT") ts) as Hexpect.
  destruct (expect "KEYWORD" (Some "NEXT") ts) as [[tok1 ts1]| |];
    cbn [mbind completion_bind consumes] in *; [|done|done].
  destruct Hexpect as [Hsuffix _].
  pose proof (Forall_suffix _ _ _ Hsuffix Hnamed) as Hrest.
  destruct ts1 as [|tk tks]; [done|].
  apply Forall_cons in Hrest as [Htk _].
  destruct (type tk) as [?|?|?|name|?|?| |] eqn:Htype;
    try (by intros [= <- <-]).
  unfold mbind, completion_bind. destruct (advance (tk :: tks)); [|done|done].
  intros [= <- <-]. cbn. by intros ->.
Qed.

Lemma parseIf_with_explicit_names (parseStatement : parser node) ts nd ts' :
  (∀ ts1 nd1 ts1',
     ts1 `suffix_of` ts → parseStatement ts1 = Normal (nd1, ts1') →
     explicit_names nd1) →
  parseIf_with parseStatement ts = Normal (nd, ts') → explicit_names nd.
Proof.
  intros Hstatement. unfold parseIf_with.
  pose proof (expect_consumes "KEYWORD" (Some "IF") ts) as H1.
  destruct (expect "KEYWORD" (Some "IF") ts) as [[tok1 ts1]| |];
    cbn [mbind completion_bind consumes] in *; [|done|done].
  pose proof (parseExpression_consumes ts1) as H2.
  destruct (parseExpression ts1) as [[condition ts2]| |];
    cbn [mbind completion_bind consumes] in *; [|done|done].
  pose proof (expect_consumes "KEYWORD" (Some "THEN") ts2) as H3.
  destruct (expect "KEYWORD" (Some "THEN") ts2) as [[tok3 ts3]| |];
    cbn [mbind completion_bind consumes] in *; [|done|done].
  destruct ts3 as [|tk tks]; [done|].
  assert ((tk :: tks) `suffix_of` ts) as Hsuffix by parser_done.
  destruct (type tk);
    try (destruct (parseStatement (tk :: tks)) as [[thenStatement ts4]| |]
           eqn:Hthen; cbn [mbind completion_bind]; [|done|done];
         intros [= <- <-]; cbn; by eapply Hstatement).
  unfold mbind, completion_bind. destruct (advance (tk :: tks)); [|done|done].
  by intros [= <- <-].
Qed.

Lemma parseStatement_explicit_names (fuel : nat) : ∀ ts nd ts',
  Forall (λ t, type t ≠ IDENTIFIER EmptyString) ts →
  parseStatement fuel ts = Normal (nd, ts') → explicit_names nd.
Proof.
  induction fuel as [|fuel IH]; intros ts nd ts' Hnamed; [done|].
  destruct ts as [|tok rest]; [done|]. cbn [parseStatement].
  assert (parseLet (tok :: rest) = Normal (nd, ts') → explicit_names nd)
    as Hlet.
  { intros Hparse. apply explicit_names_other;
      by rewrite (parseLet_type _ _ _ Hparse). }
  assert (∀ k, (ts1 ← advance (tok :: rest); Normal (k, ts1))
               = Normal (nd, ts') →
               node_type k ≠ "NEXT" → node_type k ≠ "IF" →
               node_type k ≠ "PROGRAM_LINE" → explicit_names nd) as Hword.
  { intros k Hparse ???. unfold mbind, completion_bind in Hparse.
    destruct (advance (tok :: rest)); [|done|done].
    injection Hparse as <- <-. by apply explicit_names_other. }
  destruct (type tok) as [?|?|keyword|?|?|?| |]; try done.
  destruct (String.eqb keyword "PRINT").
  { intros Hparse. apply explicit_names_other;
    by rewrite (parsePrint_type _ _ _ Hparse). }
  destruct (String.eqb keyword "LET"); [done|].
  destruct (String.eqb keyword "INPUT").
  { intros Hparse. apply explicit_names_other;
      by rewrite (parseInput_type _ _ _ Hparse). }
  destruct (String.eqb keyword "IF").
  { apply parseIf_with_explicit_names.
    intros ts1 nd1 ts1' Hsuffix. apply IH. by eapply Forall_suffix. }
  destruct (String.eqb keyword "GOTO").
  { intros Hparse. apply explicit_names_other;
      by rewrite (parseGoto_type _ _ _ Hparse). }
  destruct (String.eqb keyword "FOR").
  { intros Hparse. apply explicit_names_other;
      by rewrite (parseFor_type _ _ _ Hparse). }
  destruct (String.eqb keyword "NEXT").
  { by apply parseNext_explicit_names. }
  destruct (String.eqb keyword "REM").
  { intros Hparse. apply explicit_names_other;
      by rewrite (parseRem_type _ _ _ Hparse). }
  destruct (String.eqb keyword "END"); [intros ?; by eapply Hword|].
  destruct (String.eqb keyword "LIST").
  { intros Hparse. apply explicit_names_other;
      by rewrite (parseList_type _ _ _ Hparse). }
  destruct (String.eqb keyword "RUN"); [intros ?; by eapply Hword|].
  destruct (String.eqb keyword "NEW"); [intros ?; by eapply Hword|].
  destruct (String.eqb keyword "HOME"); [intros ?; by eapply Hword|].
  done.
Qed.

(** Whatever line is typed, a NEXT in the node parsed from it names no
    variable or a non-empty one: for the nodes the interpreter meets,
    an explicit variable is a name, never the empty string. *)
Lemma parsed_next_names (line : string) (tokens : list token) (nd : node) :
  tokenize line = Normal tokens → parse tokens = Normal nd →
  explicit_names nd.
Proof.
  intros Hnamed%tokenize_identifiers. unfold parse.
  destruct tokens as [|t rest]; [done|].
  cbn [isAtEnd mbind completion_bind]. destruct (at_end t) eqn:Hend.
  { by intros [= <-]. }
  assert (∀ ts, ts `suffix_of` (t :: rest) →
            ∀ (k : node → node) nd',
              (∀ s, explicit_names s → explicit_names (k s)) →
              ('(statement, _) ← parseStatement (S (length (t :: rest))) ts;
               Normal (k statement)) = Normal nd' →
              explicit_names nd') as Hstatement.
  { intros ts Hts k nd' Hk.
    destruct (parseStatement (S (length (t :: rest))) ts) as [[s ?]| |]
      eqn:Hparse; cbn [mbind completion_bind]; [|done|done].
    intros [= <-]. apply Hk.
    eapply parseStatement_explicit_names; [|done]. by eapply Forall_suffix. }
  destruct (type t) as [lineNumber|?|?|?|?|?| |];
    try (by apply (Hstatement (t :: rest) (reflexivity _) (λ s, s))).
  cbn [advance]. rewrite Hend. cbn [mbind completion_bind].
  apply (Hstatement rest); [by apply suffix_cons_r, reflexivity|done].
Qed.

End next_names.

(** ** The screen keeps its grid *)

Section screen_grid.
Import JS BasicScreen ScreenSpec.

Lemma full_blank_row : full_row blank_row.
Proof.
  split; [reflexivity|].
  unfold blank_row. apply Forall_replicate. by eexists.
Qed.

Lemma grid_initBuffer : grid initBuffer.
Proof.
  split; unfold initBuffer; cbn [buffer cursorX cursorY].
  - apply length_replicate.
  - apply Forall_replicate, full_blank_row.
  - lia.
  - lia.
Qed.

Lemma grid_scroll st x :
  length (buffer st) = ROWS → Forall full_row (buffer st) → (x ≤ COLS)%nat →
  grid {| buffer := tail (buffer st) ++ [blank_row];
          cursorX := x; cursorY := ROWS - 1 |}.
Proof.
  intros Hlen Hrows Hx. split; cbn [buffer cursorX cursorY]; try done.
  - rewrite length_app, length_tl, Hlen. reflexivity.
  - apply Forall_app. split.
    + destruct (buffer st); [done|]. by inversion Hrows.
    + apply Forall_singleton, full_blank_row.
Qed.

Lemma grid_newline st : grid st → grid (newline st) ∧ cursorX (newline st) = 0%nat.
Proof.
  intros [Hlen Hrows Hy Hx]. unfold newline. cbn [cursorY].
  destruct (ROWS <=? S (cursorY st))%nat eqn:E.
  - split; [|reflexivity]. unfold scroll. cbn [buffer cursorX cursorY].
    apply (grid_scroll st 0); auto with lia.
  - split; [|reflexivity]. apply Nat.leb_gt in E.
    split; cbn [buffer cursorX cursorY]; auto with lia.
Qed.

Lemma grid_putChar char st :
  grid st → ∃ st', putChar char st = Normal st' ∧ grid st'.
Proof.
  intros Hst. unfold putChar. cbv zeta.
  set (st1 := if (COLS <=? cursorX st)%nat then newline st else st).
  assert (grid st1 ∧ (cursorX st1 < COLS)%nat) as [[Hlen Hrows Hy Hx] Hx1].
  { subst st1. destruct (COLS <=? cursorX st)%nat eqn:E.
    - destruct (grid_newline st Hst) as [? ->]. split; [done|].
      unfold COLS. lia.
    - apply Nat.leb_gt in E. done. }
  assert ((ROWS <=? cursorY st1)%nat = false) as ->.
  { apply Nat.leb_gt. unfold ROWS in *. lia. }
  destruct (buffer st1 !! cursorY st1) as [r|] eqn:Hr; last first.
  { apply lookup_ge_None_1 in Hr. rewrite Hlen in Hr. unfold ROWS in *. lia. }
  eexists. split; [reflexivity|].
  assert (full_row r) as [Hrlen Hrsome].
  { eapply Forall_lookup_1; eauto. }
  split; cbn [buffer cursorX cursorY]; try done.
  - by rewrite length_insert.
  - apply Forall_insert; [done|].
    unfold array_set.
    assert ((cursorX st1 <? length r)%nat = true) as ->.
    { apply Nat.ltb_lt. by rewrite Hrlen. }
    split.
    + by rewrite length_insert.
    + apply Forall_insert; [done|]. by eexists.
Qed.

Lemma grid_print text : ∀ st,
  grid st → ∃ st', print text st = Normal st' ∧ grid st'.
Proof.
  induction text as [|char rest IH]; intros st Hst; simpl.
  - by exists st.
  - destruct (Ascii.eqb char (ascii_of_nat 10)).
    + apply IH. by apply grid_newline.
    + destruct (grid_putChar char st Hst) as (st1 & -> & Hst1). by apply IH.
Qed.

Lemma grid_apply op st :
  grid st → ∃ st', apply op st = Normal st' ∧ grid st'.
Proof.
  intros Hst. destruct op as [text|text|]; simpl.
  - by apply grid_print.
  - by apply grid_print.
  - eexists. split; [reflexivity|]. apply grid_initBuffer.
Qed.

Lemma grid_apply_all ops : ∀ st,
  grid st → ∃ st', apply_all ops st = Normal st' ∧ grid st'.
Proof.
  induction ops as [|op rest IH]; intros st Hst; simpl.
  - by exists st.
  - destruct (grid_apply op st Hst) as (st1 & -> & Hst1). by apply IH.
Qed.

Lemma newline_on_last_row st :
  cursorY st = (ROWS - 1)%nat → newline st = scrolled st blank_row 0.
Proof. intros Hy. unfold newline. cbn [cursorY]. rewrite Hy. reflexivity. Qed.

Lemma putChar_past_last_column st char :
  grid st → cursorY st = (ROWS - 1)%nat → cursorX st = COLS →
  putChar char st = Normal (scrolled st (<[0%nat := Some char]> blank_row) 1).
Proof.
  intros [Hlen Hrows _ _] Hy Hx. unfold putChar. cbv zeta.
  rewrite Hx, Nat.leb_refl, (newline_on_last_row st Hy). simpl.
  rewrite lookup_app_r; rewrite length_tl, Hlen; [|done].
  simpl. unfold scrolled. f_equal.
  rewrite insert_app_r_alt; rewrite length_tl, Hlen; [|done].
  reflexivity.
Qed.

(** C9.  Whatever is printed on an initialized screen, with [print],
    [println] and [clear] in any order, every operation completes, the
    buffer is made of exactly [ROWS] rows of [COLS] characters and the
    cursor row lies between 0 and [ROWS - 1].  Moreover on the last row a
    line break, or a character put after the last column, drops the
    earliest row, adds a blank row at the bottom (on which the
    character is written) and leaves the cursor on the last row. *)
Theorem screen_keeps_grid_and_scrolls (ops : list operation) :
  ∃ st,
    apply_all ops initBuffer = Normal st
    ∧ length (buffer st) = ROWS
    ∧ Forall (λ r, length r = COLS ∧ Forall is_Some r) (buffer st)
    ∧ (0 ≤ cursorY st ≤ ROWS - 1)%nat
    ∧ (cursorY st = (ROWS - 1)%nat →
       newline st = scrolled st blank_row 0
       ∧ cursorY (newline st) = (ROWS - 1)%nat
       ∧ ∀ char, cursorX st = COLS →
           putChar char st
           = Normal (scrolled st (<[0%nat := Some char]> blank_row) 1)).
Proof.
  destruct (grid_apply_all ops initBuffer grid_initBuffer) as (st & Hrun & Hst).
  exists st. pose proof Hst as [Hlen Hrows Hy Hx].
  repeat split; try done; try lia.
  - by apply newline_on_last_row.
  - by rewrite newline_on_last_row.
  - intros char Hcol. by apply putChar_past_last_column.
Qed.

End screen_grid.

(** ** Expressions *)

Section expressions.
Import JS BasicInterpreter InterpreterSpec.
Context `{Runtime}.

Lemma of_Z_zero : of_Z 0 = S754_zero false.
Proof. reflexivity. Qed.

Lemma strict_equal_zero (n : number) :
  strict_equal (VNum n) (VNum (of_Z 0)) = is_zero n.
Proof. by destruct n as [[]|[]| |[] m e]. Qed.

Lemma evaluate_VARIABLE_unset name (vars : gmap string value) :
  vars !! name = None →
  evaluate (VARIABLE name) vars
  = (<[name := default_value name]> vars, Normal (default_value name)).
Proof.
  intros Hname. simpl. rewrite Hname. by rewrite lookup_insert_eq.
Qed.

(** C8.  Reading a variable that is not bound does not fail: it yields
    the number 0 when the name does not end in a dollar sign and the
    empty string when it does (and the name is bound to that value
    from then on). *)
Theorem unset_variable_reads_default (name : string)
    (vars : gmap string value) :
  vars !! name = None →
  (endsWith name "$" = false →
     evaluate (VARIABLE name) vars
     = (<[name := VNum (of_Z 0)]> vars, Normal (VNum (of_Z 0))))
  ∧ (endsWith name "$" = true →
     evaluate (VARIABLE name) vars
     = (<[name := VStr EmptyString]> vars, Normal (VStr EmptyString))).
Proof.
  intros Hname. rewrite (evaluate_VARIABLE_unset _ _ Hname).
  unfold default_value. by split; intros ->.
Qed.

Lemma evaluate_division l r (vars vars1 vars2 : gmap string value) lv rv :
  evaluate l vars = (vars1, Normal lv) →
  evaluate r vars1 = (vars2, Normal rv) →
  evaluate (BINARY "/" l r) vars
  = (vars2, if strict_equal rv (VNum (of_Z 0))
            then Thrown "?DIVISION BY ZERO ERROR"
            else Normal (divide lv rv)).
Proof. intros Hl Hr. cbn [evaluate]. by rewrite Hl, Hr. Qed.

(** C6.  In [l / r], once both operands have their values and the right
    one is a number, the evaluation raises ?DIVISION BY ZERO ERROR
    exactly when that number is a zero; otherwise it returns the
    binary64 quotient of the two operand values. *)
Theorem division_raises_iff_zero l r (vars vars1 vars2 : gmap string value)
    (lv : value) (rn : number) :
  evaluate l vars = (vars1, Normal lv) →
  evaluate r vars1 = (vars2, Normal (VNum rn)) →
  ((evaluate (BINARY "/" l r) vars).2 = Thrown "?DIVISION BY ZERO ERROR"
   ↔ is_zero rn = true)
  ∧ (is_zero rn = false →
     (evaluate (BINARY "/" l r) vars).2
     = Normal (VNum (div (ToNumber lv) rn))).
Proof.
  intros Hl Hr. rewrite (evaluate_division _ _ _ _ _ _ _ Hl Hr).
  rewrite strict_equal_zero. cbn [snd].
  destruct (is_zero rn); split; try done.
Qed.

End expressions.

(** ** NEXT and RUN *)

Section statements.
Import JS BasicInterpreter ParserSpec InterpreterSpec.
Context `{Runtime}.

Lemma names_other_variable_spec v loop :
  explicit_names (NEXT v) →
  names_other_variable v loop = true ↔ names_another v loop.
Proof.
  unfold names_other_variable, names_another. destruct v as [name|]; cbn.
  - intros Hname. rewrite andb_true_iff, !negb_true_iff, !String.eqb_neq.
    split.
    + intros [_ ?]. by exists name.
    + by intros (? & [= <-] & ?).
  - intros _. split; [done|]. by intros (? & ? & _).
Qed.

Lemma executeNode_NEXT fuel v st :
  executeNode fuel (NEXT v) st = executeNext v st.
Proof. by destruct fuel. Qed.

Lemma executeNext_raises v st :
  explicit_names (NEXT v) →
  (executeNext v st).2 = Thrown "?NEXT WITHOUT FOR ERROR"
  ↔ forStack st = []
    ∨ ∃ loop below, forStack st = loop :: below ∧ names_another v loop.
Proof.
  intros Hexplicit.
  unfold executeNext. destruct (forStack st) as [|loop below] eqn:Hstack.
  - split; [by left|done].
  - destruct (names_other_variable v loop) eqn:Hv.
    + apply names_other_variable_spec in Hv; [|done]. split; [|done].
      intros _. right. by exists loop, below.
    + split.
      * by destruct (_ || _).
      * intros [|(loop' & below' & [= <- <-] & Hn)]; [done|].
        apply names_other_variable_spec in Hn; [|done]. congruence.
Qed.

Lemma executeNext_raises_state v st message :
  (executeNext v st).2 = Thrown message → (executeNext v st).1 = st.
Proof.
  unfold executeNext. destruct (forStack st) as [|loop below]; [done|].
  destruct (names_other_variable v loop); [done|]. by destruct (_ || _).
Qed.

End statements.

(** ** Immediate mode *)

Section immediate.
Import JS BasicInterpreter ParserSpec InterpreterSpec.
Context `{Runtime}.

Lemma tokenize_blank line :
  String.eqb (trim line) "" = true →
  tokenize line = Normal [createToken EOL 0].
Proof.
  intros Hblank%String.eqb_eq. unfold tokenize. by rewrite Hblank.
Qed.

Lemma parse_blank : parse [createToken EOL 0] = Normal EMPTY.
Proof. reflexivity. Qed.

(** A line that parses to something else than [EMPTY] is not blank. *)
Lemma parsed_line_not_blank line tokens nd :
  tokenize line = Normal tokens → parse tokens = Normal nd →
  nd ≠ EMPTY → String.eqb (trim line) "" = false.
Proof.
  intros Htok Hparse Hnd.
  destruct (String.eqb (trim line) "") eqn:Hblank; [|done].
  rewrite (tokenize_blank _ Hblank) in Htok. injection Htok as <-.
  rewrite parse_blank in Hparse. congruence.
Qed.

Lemma executeImmediate_program_line fuel line tokens lineNumber statement st :
  tokenize line = Normal tokens →
  parse tokens = Normal (PROGRAM_LINE lineNumber statement) →
  executeImmediate fuel line st
  = (storeLine lineNumber line statement st, Normal ()).
Proof.
  intros Htok Hparse. unfold executeImmediate.
  rewrite (parsed_line_not_blank _ _ _ Htok Hparse) by done.
  by rewrite Htok, Hparse.
Qed.

Lemma executeImmediate_statement fuel line tokens statement st :
  tokenize line = Normal tokens →
  parse tokens = Normal statement →
  node_type statement ≠ "PROGRAM_LINE" →
  node_type statement ≠ "EMPTY" →
  executeImmediate fuel line st
  = match executeNode fuel statement st with
    | (st1, Normal _) => (st1, Normal ())
    | (st1, Thrown message) => (report message st1, Normal ())
    | (st1, Never w) => (st1, Never w)
    end.
Proof.
  intros Htok Hparse Hline Hempty. unfold executeImmediate.
  rewrite (parsed_line_not_blank _ _ _ Htok Hparse)
    by (intros ->; by apply Hempty).
  rewrite Htok, Hparse. by destruct statement.
Qed.

Lemma executeImmediate_tokenize_fails fuel line message st :
  tokenize line = Thrown message →
  executeImmediate fuel line st = (report message st, Normal ()).
Proof.
  intros Htok. unfold executeImmediate.
  destruct (String.eqb (trim line) "") eqn:Hblank.
  - by rewrite (tokenize_blank _ Hblank) in Htok.
  - by rewrite Htok.
Qed.

Lemma executeImmediate_parse_fails fuel line tokens message st :
  tokenize line = Normal tokens → parse tokens = Thrown message →
  executeImmediate fuel line st = (report message st, Normal ()).
Proof.
  intros Htok Hparse. unfold executeImmediate.
  destruct (String.eqb (trim line) "") eqn:Hblank.
  - rewrite (tokenize_blank _ Hblank) in Htok. injection Htok as <-.
    by rewrite parse_blank in Hparse.
  - by rewrite Htok, Hparse.
Qed.

(** C7.  NEXT raises ?NEXT WITHOUT FOR ERROR exactly when the loop stack
    is empty or NEXT names an explicit variable that is not the one of
    the top frame, in whatever state the interpreter is; the node is
    one the parser can make, whose variable is absent or a name.  In
    immediate mode the error is then reported by [executeImmediate];
    inside RUN it is then thrown out of the loop over the program
    lines. *)
Theorem next_without_for_raised_iff (fuel : nat) (v : option string)
    (st : state) :
  explicit_names (NEXT v) →
  let no_matching_for :=
    forStack st = []
    ∨ ∃ loop below, forStack st = loop :: below ∧ names_another v loop in
  ((executeNode fuel (NEXT v) st).2 = Thrown "?NEXT WITHOUT FOR ERROR"
   ↔ no_matching_for)
  ∧ (∀ line tokens,
       tokenize line = Normal tokens → parse tokens = Normal (NEXT v) →
       no_matching_for →
       executeImmediate fuel line st
       = (report "?NEXT WITHOUT FOR ERROR" st, Normal ()))
  ∧ (∀ lines i n lineNumber src,
       lines !! i = Some lineNumber → running st = true →
       program st !! Map_key lineNumber
       = Some {| source := src; ast := NEXT v |} →
       no_matching_for →
       run_loop (executeNode fuel) lines (S n) i st
       = (set_currentLine lineNumber st, Thrown "?NEXT WITHOUT FOR ERROR")).
Proof.
  intros Hexplicit no_matching_for. split; [|split].
  - rewrite executeNode_NEXT. by apply executeNext_raises.
  - intros line tokens Htok Hparse Hno.
    rewrite (executeImmediate_statement _ _ _ _ _ Htok Hparse) by done.
    rewrite executeNode_NEXT.
    pose proof (proj2 (executeNext_raises v st Hexplicit) Hno) as Hraise.
    pose proof (executeNext_raises_state v st _ Hraise) as Hst.
    destruct (executeNext v st) as [st1 c]. simpl in *. by subst.
  - intros lines i n lineNumber src Hi Hrun Hline Hno.
    cbn [run_loop]. rewrite Hi, Hrun. cbn [negb].
    cbn [set_currentLine program currentLine]. rewrite Hline.
    cbn [ast]. rewrite executeNode_NEXT.
    assert ((executeNext v (set_currentLine lineNumber st)).2
            = Thrown "?NEXT WITHOUT FOR ERROR") as Hraise.
    { apply executeNext_raises; [done|]. apply Hno. }
    pose proof (executeNext_raises_state _ _ _ Hraise) as Hst.
    destruct (executeNext v (set_currentLine lineNumber st)) as [st1 c].
    simpl in *. by subst.
Qed.

(** C5.  With an empty program store RUN only sends the no-program
    message to the output callback: whatever [exec] would do with a
    statement, none is executed, and the store, the variables and the
    loop stack are the ones RUN found.  The same holds for RUN entered
    as an immediate line. *)
Theorem run_with_empty_store (exec : node → state → state * completion unit)
    (n fuel : nat) (st : state) :
  program st = ∅ →
  let st' := print ("?NO PROGRAM" ++ newline) st in
  run exec n st = (st', Normal ())
  ∧ executeImmediate (S fuel) "RUN" st = (st', Normal ())
  ∧ program st' = program st
  ∧ variables st' = variables st
  ∧ forStack st' = forStack st
  ∧ trace st' = (if outputCallback st
                 then (trace st ++ [Output ("?NO PROGRAM" ++ newline)])%list
                 else trace st).
Proof.
  intros Hempty st'.
  assert (∀ exec' n', run exec' n' st = (st', Normal ())) as Hrun.
  { intros exec' n'. unfold run. rewrite Hempty, map_size_empty.
    by rewrite decide_True. }
  split; [apply Hrun|]. split.
  - rewrite (executeImmediate_statement _ _
               [createToken (KEYWORD "RUN") 0; createToken EOL 3] RUN)
      by done.
    cbn [executeNode]. by rewrite Hrun.
  - subst st'. unfold print. by destruct (outputCallback st).
Qed.

(** C10.  A numbered line whose statement parses to REM is stored only
    when its text contains the upper-case letters REM; otherwise its
    line number is deleted from the program store. *)
Theorem rem_line_stored_iff_uppercase (fuel : nat) (line : string)
    (tokens : list token) (lineNumber : number) (st : state) :
  tokenize line = Normal tokens →
  parse tokens = Normal (PROGRAM_LINE lineNumber REM) →
  (string_includes line "REM" = false →
     executeImmediate fuel line st
     = (set_program (delete (Map_key lineNumber) (program st)) st, Normal ()))
  ∧ (string_includes line "REM" = true →
     executeImmediate fuel line st
     = (set_program
          (<[Map_key lineNumber := {| source := line; ast := REM |}]>
             (program st)) st, Normal ())).
Proof.
  intros Htok Hparse.
  rewrite (executeImmediate_program_line _ _ _ _ _ _ Htok Hparse).
  unfold storeLine. by split; intros ->.
Qed.

End immediate.

(** ** What a failed line leaves behind *)

Section failures.
Import JS BasicInterpreter InterpreterSpec.
Context `{Runtime}.

Lemma vivified_refl (vars : gmap string value) : vivified vars vars.
Proof. intros name. by left. Qed.

Lemma vivified_trans (v1 v2 v3 : gmap string value) :
  vivified v1 v2 → vivified v2 v3 → vivified v1 v3.
Proof.
  intros H12 H23 name.
  destruct (H12 name) as [E12|[N1 E2]], (H23 name) as [E23|[N2 E3]].
  - left. congruence.
  - right. split; congruence.
  - right. split; congruence.
  - congruence.
Qed.

Lemma vivified_insert_default (vars : gmap string value) name :
  vars !! name = None →
  vivified vars (<[name := default_value name]> vars).
Proof.
  intros Hname name'. destruct (decide (name = name')) as [<-|Hne].
  - right. by rewrite lookup_insert_eq.
  - left. by rewrite lookup_insert_ne.
Qed.

Lemma evaluate_vivified nd : ∀ vars, vivified vars (evaluate nd vars).1.
Proof.
  induction nd; intros vars; try apply vivified_refl.
  - cbn [evaluate]. destruct (vars !! name) eqn:Hname; cbn [fst].
    + apply vivified_refl.
    + by apply vivified_insert_default.
  - cbn [evaluate]. specialize (IHnd1 vars).
    destruct (evaluate nd1 vars) as [vars1 [lv| |]]; cbn [fst] in *; try done.
    specialize (IHnd2 vars1).
    destruct (evaluate nd2 vars1) as [vars2 [rv| |]]; cbn [fst] in *;
      by eapply vivified_trans.
  - cbn [evaluate]. specialize (IHnd vars).
    by destruct (evaluate nd vars) as [vars1 [v| |]].
Qed.

Lemma executePrint_loop_vivified expressions :
  ∀ separators output vars,
    vivified vars
      (executePrint_loop expressions separators output vars).1.
Proof.
  induction expressions as [|e es IH]; intros separators output vars.
  - apply vivified_refl.
  - cbn [executePrint_loop].
    pose proof (evaluate_vivified e vars) as He.
    destruct (evaluate e vars) as [vars1 [v| |]]; cbn [fst] in *; try done.
    destruct separators as [|sep seps];
      (eapply vivified_trans; [exact He|apply IH]).
Qed.

Lemma keeps_refl st : keeps st st.
Proof. split; [done|apply vivified_refl]. Qed.

Lemma keeps_trans st1 st2 st3 : keeps st1 st2 → keeps st2 st3 → keeps st1 st3.
Proof.
  intros [P12 V12] [P23 V23]. split; [congruence|by eapply vivified_trans].
Qed.

Lemma keeps_println text st : keeps st (println text st).
Proof.
  unfold println.
  destruct (outputLineCallback st); (split; [done|apply vivified_refl]).
Qed.

Lemma keeps_print text st : keeps st (print text st).
Proof.
  unfold print.
  destruct (outputCallback st); (split; [done|apply vivified_refl]).
Qed.

Lemma executePrint_thrown expressions separators st st' message :
  executePrint expressions separators st = (st', Thrown message) →
  keeps st st'.
Proof.
  unfold executePrint.
  pose proof (executePrint_loop_vivified expressions separators
                EmptyString (variables st)) as Hv.
  destruct (executePrint_loop _ _ _ _) as [vars [output| |]];
    cbn [fst] in Hv; intros Heq.
  - by repeat case_match.
  - injection Heq as <- <-. by split.
  - done.
Qed.

Lemma executeLet_thrown name e st st' message :
  executeLet name e st = (st', Thrown message) → keeps st st'.
Proof.
  unfold executeLet. pose proof (evaluate_vivified e (variables st)) as Hv.
  destruct (evaluate e (variables st)) as [vars [v| |]]; cbn [fst] in Hv;
    intros [= <- <-]. by split.
Qed.

Lemma executeInput_thrown prompt name st st' message :
  executeInput prompt name st = (st', Thrown message) → keeps st st'.
Proof.
  unfold executeInput. intros Heq.
  repeat case_match; simplify_eq; (split; [done|apply vivified_refl]).
Qed.

Lemma executeGoto_thrown lineNumber st st' message :
  executeGoto lineNumber st = (st', Thrown message) → st' = st.
Proof. unfold executeGoto. intros Heq. by case_match; simplify_eq. Qed.

Lemma executeFor_thrown name start end_ step st st' message :
  executeFor name start end_ step st = (st', Thrown message) → keeps st st'.
Proof.
  unfold executeFor.
  pose proof (evaluate_vivified start (variables st)) as H1.
  destruct (evaluate start (variables st)) as [vars1 [v1| |]];
    cbn [fst] in H1; [|by intros [= <- <-]; split|done].
  pose proof (evaluate_vivified end_ vars1) as H2.
  destruct (evaluate end_ vars1) as [vars2 [v2| |]];
    cbn [fst] in H2;
    [|by intros [= <- <-]; split; [|eapply vivified_trans]|done].
  pose proof (evaluate_vivified step vars2) as H3.
  destruct (evaluate step vars2) as [vars3 [v3| |]];
    cbn [fst] in H3; [done| |done].
  intros [= <- <-]. split; [done|].
  eapply vivified_trans; [exact H1|]. by eapply vivified_trans.
Qed.

Lemma executeList_loop_keeps lines start end_ : ∀ st st' c,
  executeList_loop lines start end_ st = (st', c) → keeps st st'.
Proof.
  induction lines as [|lineNum rest IH]; intros st st' c; cbn [executeList_loop].
  - intros [= <- <-]. apply keeps_refl.
  - destruct (leb start lineNum && leb lineNum end_).
    + destruct (program st !! Map_key lineNum) as [line|].
      * intros Heq%IH. eapply keeps_trans; [apply keeps_println|exact Heq].
      * intros [= <- <-]. apply keeps_refl.
    + apply IH.
Qed.

Lemma executeList_keeps start end_ st st' c :
  executeList start end_ st = (st', c) → keeps st st'.
Proof.
  unfold executeList. destruct (sorted_lines st) as [|first rest].
  - intros [= <- <-]. apply keeps_println.
  - apply executeList_loop_keeps.
Qed.

Lemma run_not_thrown exec n st message : (run exec n st).2 ≠ Thrown message.
Proof.
  unfold run. case_decide; [done|].
  by destruct (run_loop _ _ _ _ _) as [st2 [[]| |]].
Qed.

Lemma executeNode_IF fuel condition thenStatement st :
  executeNode fuel (IF condition thenStatement) st
  = (let '(vars, c) := evaluate condition (variables st) in
     let st1 := set_variables vars st in
     match c with
     | Normal v => if ToBoolean v then executeNode fuel thenStatement st1
                   else (st1, Normal ())
     | Thrown m => (st1, Thrown m)
     | Never w => (st1, Never w)
     end).
Proof. by destruct fuel. Qed.

Lemma executeNode_RUN fuel st :
  executeNode fuel RUN st
  = match fuel with
    | O => (st, Never OutOfFuel)
    | S fuel' => run (executeNode fuel') fuel' st
    end.
Proof. by destruct fuel. Qed.

Lemma executeNode_thrown nd : ∀ fuel st st' message,
  executeNode fuel nd st = (st', Thrown message) → keeps st st'.
Proof.
  induction nd; intros fuel st st' message Hexec;
    try (destruct fuel; cbn in Hexec; simplify_eq; apply keeps_refl).
  - destruct fuel; by eapply executePrint_thrown.
  - destruct fuel; by eapply executeLet_thrown.
  - destruct fuel; by eapply executeInput_thrown.
  - rewrite executeNode_IF in Hexec.
    pose proof (evaluate_vivified nd1 (variables st)) as Hv.
    destruct (evaluate nd1 (variables st)) as [vars [v| |]]; cbn [fst] in Hv.
    + destruct (ToBoolean v); [|done].
      apply IHnd2 in Hexec. eapply keeps_trans; [|exact Hexec]. by split.
    + injection Hexec as <- <-. by split.
    + done.
  - destruct fuel; cbn in Hexec;
      apply executeGoto_thrown in Hexec as ->; apply keeps_refl.
  - destruct fuel; by eapply executeFor_thrown.
  - rewrite executeNode_NEXT in Hexec.
    match type of Hexec with
    | executeNext ?v _ = _ =>
        pose proof (executeNext_raises_state v st message) as Hst
    end.
    rewrite Hexec in Hst. cbn in Hst. rewrite Hst by done. apply keeps_refl.
  - destruct fuel; by eapply executeList_keeps.
  - rewrite executeNode_RUN in Hexec. destruct fuel; [done|].
    pose proof (run_not_thrown (executeNode fuel) fuel st message) as Hrun.
    by rewrite Hexec in Hrun.
Qed.

(** C4, as amended.  When tokenizing, parsing or executing the line fed
    to [executeImmediate] fails, the failure is caught and reported as
    ?SYNTAX ERROR followed by its message; the program store is left as
    it was and every variable that was bound keeps its value.  The
    variable environment may grow: names the failed statement read
    while they were unbound are now bound to 0 or to the empty
    string. *)
Theorem failed_line_reported_store_kept (fuel : nat) (line : string)
    (st : state) (message : string) (st' : state) :
  fails fuel line st message st' →
  executeImmediate fuel line st = (report message st', Normal ())
  ∧ trace (report message st')
    = (if outputCallback st'
       then (trace st'
             ++ [Output ("?SYNTAX ERROR" ++ newline ++ message ++ newline)])%list
       else trace st')
  ∧ program (report message st') = program st
  ∧ vivified (variables st) (variables (report message st')).
Proof.
  intros Hfails.
  assert (executeImmediate fuel line st = (report message st', Normal ())
          ∧ keeps st st') as [Hexec [Hprogram Hvars]].
  { destruct Hfails as [Htok ->|tokens Htok Hparse ->
                        |tokens statement Htok Hparse Hline Hempty Hexec].
    - split; [by apply executeImmediate_tokenize_fails|apply keeps_refl].
    - split; [by eapply executeImmediate_parse_fails|apply keeps_refl].
    - split; [|by eapply executeNode_thrown].
      rewrite (executeImmediate_statement _ _ _ _ _ Htok Hparse) by done.
      by rewrite Hexec. }
  split; [done|]. unfold report, print.
  destruct (outputCallback st'); by repeat split.
Qed.

(** The same failure in any engine and with any fuel: the variable read
    before the division is bound when the error is reported. *)
Lemma failed_print_binds_variable_in_any_engine (fuel : nat) :
  ∃ st',
    fails fuel "PRINT A/0" fresh "?DIVISION BY ZERO ERROR" st'
    ∧ executeImmediate fuel "PRINT A/0" fresh
      = (report "?DIVISION BY ZERO ERROR" st', Normal ())
    ∧ variables fresh !! "A" = None
    ∧ variables (executeImmediate fuel "PRINT A/0" fresh).1 !! "A"
      = Some (VNum (of_Z 0))
    ∧ variables (executeImmediate fuel "PRINT A/0" fresh).1 ≠ variables fresh.
Proof.
  exists (set_variables {["A" := VNum (of_Z 0)]} fresh).
  assert (executeNode fuel
            (PRINT [BINARY "/" (VARIABLE "A") (NUMBER (of_Z 0))] []) fresh
          = (set_variables {["A" := VNum (of_Z 0)]} fresh,
             Thrown "?DIVISION BY ZERO ERROR")) as Hexec.
  { destruct fuel; by vm_compute. }
  assert (executeImmediate fuel "PRINT A/0" fresh
          = (report "?DIVISION BY ZERO ERROR"
               (set_variables {["A" := VNum (of_Z 0)]} fresh), Normal ()))
    as Himmediate.
  { rewrite (executeImmediate_statement _ _
               [createToken (KEYWORD "PRINT") 0;
                createToken (IDENTIFIER "A") 6;
                createToken (OPERATOR "/") 7;
                createToken (BasicTokenizer.NUMBER (of_Z 0)) 8;
                createToken EOL 9]
               (PRINT [BINARY "/" (VARIABLE "A") (NUMBER (of_Z 0))] []))
      by (done || by vm_compute).
    by rewrite Hexec. }
  split; [|split; [|split; [|split]]].
  - eapply (executing_fails _ _ _ _ _ _
              (PRINT [BINARY "/" (VARIABLE "A") (NUMBER (of_Z 0))] []));
      [by vm_compute|by vm_compute|done|done|exact Hexec].
  - exact Himmediate.
  - by vm_compute.
  - rewrite Himmediate. by vm_compute.
  - rewrite Himmediate. intros Heq.
    apply (f_equal (λ m : gmap string value, m !! "A")) in Heq.
    vm_compute in Heq. discriminate.
Qed.

End failures.

(** ** The FOR/NEXT program of the specification *)

Section counting_loop.
Import JS BasicInterpreter InterpreterSpec.
Context `{Runtime}.

Lemma counting_stored fuel :
  (session fuel counting_lines fresh).1 = set_program counting_program fresh.
Proof. vm_compute. reflexivity. Qed.

Lemma counting_sorted_lines vars stack cl tr :
  sorted_lines (counting_state vars stack cl tr) = [of_Z 10; of_Z 20; of_Z 30].
Proof. vm_compute. reflexivity. Qed.

Lemma run_loop_step exec lines n i st lineNumber line st2 :
  lines !! i = Some lineNumber → running st = true →
  program st !! Map_key lineNumber = Some line →
  exec (ast line) (set_currentLine lineNumber st) = (st2, Normal ()) →
  run_loop exec lines (S n) i st
  = match nextLine st2 with
    | Some target =>
        match indexOf lines target with
        | None =>
            (st2, Thrown ("?UNDEF'D STATEMENT ERROR IN LINE "
                          ++ number_to_string (currentLine st2)))
        | Some nextIdx => run_loop exec lines n nextIdx (set_nextLine None st2)
        end
    | None => run_loop exec lines n (S i) st2
    end.
Proof.
  intros Hi Hrun Hline Hexec. cbn [run_loop]. rewrite Hi, Hrun. cbn [negb].
  change (program (set_currentLine lineNumber st)) with (program st).
  change (currentLine (set_currentLine lineNumber st)) with lineNumber.
  by rewrite Hline, Hexec.
Qed.

Lemma counting_FOR fuel vars stack cl tr :
  executeNode fuel (FOR "I" (NUMBER (of_Z 1)) (NUMBER (of_Z 3)) (NUMBER (of_Z 1)))
    (set_currentLine (of_Z 10) (counting_state vars stack cl tr))
  = (counting_state (<["I" := VNum (of_Z 1)]> vars)
       (counting_frame :: stack) (of_Z 10) tr, Normal ()).
Proof. by destruct fuel. Qed.

Lemma counting_PRINT fuel stack cl tr :
  executeNode fuel (PRINT [VARIABLE "I"] [])
    (set_currentLine (of_Z 20)
       (counting_state {["I" := VNum (of_Z 1)]} stack cl tr))
  = (counting_state {["I" := VNum (of_Z 1)]} stack (of_Z 20)
       (tr ++ [OutputLine "1"]), Normal ()).
Proof. destruct fuel; vm_compute; reflexivity. Qed.

Lemma counting_NEXT fuel stack cl tr :
  executeNode fuel (NEXT (Some "I"))
    (set_currentLine (of_Z 30)
       (counting_state {["I" := VNum (of_Z 1)]} (counting_frame :: stack) cl tr))
  = (set_nextLine (Some (of_Z 10))
       (counting_state {["I" := VNum (of_Z 2)]} (counting_frame :: stack)
          (of_Z 30) tr), Normal ()).
Proof. destruct fuel; vm_compute; reflexivity. Qed.

(** One turn of the loop: NEXT jumps back to the FOR line itself, which
    starts the loop anew. *)
Lemma counting_turn fuel n vars stack cl tr :
  <["I" := VNum (of_Z 1)]> vars = {["I" := VNum (of_Z 1)]} →
  run_loop (executeNode fuel) [of_Z 10; of_Z 20; of_Z 30] (S (S (S n))) 0
    (counting_state vars stack cl tr)
  = run_loop (executeNode fuel) [of_Z 10; of_Z 20; of_Z 30] n 0
      (counting_state {["I" := VNum (of_Z 2)]} (counting_frame :: stack)
         (of_Z 30) (tr ++ [OutputLine "1"])).
Proof.
  intros Hvars.
  erewrite run_loop_step;
    [|reflexivity|reflexivity|by vm_compute|apply counting_FOR].
  rewrite Hvars. cbn [nextLine counting_state].
  erewrite run_loop_step;
    [|reflexivity|reflexivity|by vm_compute|apply counting_PRINT].
  cbn [nextLine counting_state].
  erewrite run_loop_step;
    [|reflexivity|reflexivity|by vm_compute|apply counting_NEXT].
  reflexivity.
Qed.

Lemma counting_never_returns fuel : ∀ n vars stack cl tr,
  <["I" := VNum (of_Z 1)]> vars = {["I" := VNum (of_Z 1)]} →
  Forall (eq (OutputLine "1")) tr →
  ∃ st',
    run_loop (executeNode fuel) [of_Z 10; of_Z 20; of_Z 30] n 0
      (counting_state vars stack cl tr) = (st', Never OutOfFuel)
    ∧ Forall (eq (OutputLine "1")) (trace st').
Proof.
  intros n. induction (lt_wf n) as [n _ IH]. intros vars stack cl tr Hvars Htr.
  destruct n as [|[|[|n]]].
  - eexists. split; [reflexivity|done].
  - erewrite run_loop_step;
      [|reflexivity|reflexivity|by vm_compute|apply counting_FOR].
    eexists. split; [reflexivity|done].
  - erewrite run_loop_step;
      [|reflexivity|reflexivity|by vm_compute|apply counting_FOR].
    rewrite Hvars. cbn [nextLine counting_state].
    erewrite run_loop_step;
      [|reflexivity|reflexivity|by vm_compute|apply counting_PRINT].
    eexists. split; [reflexivity|].
    cbn [trace counting_state]. apply Forall_app. by split; [|constructor].
  - rewrite counting_turn by done. apply IH; [lia|by vm_compute|].
    apply Forall_app. by split; [|constructor].
Qed.

(** C1 (what the code does).  Once the three lines of the FOR/NEXT
    program are stored, RUN does not terminate, whatever fuel it is
    given, and the only thing it ever prints is the line 1: NEXT sends
    the run back to the FOR line, which resets the variable. *)
Theorem for_next_program_never_terminates (fuel : nat) :
  ∃ st',
    executeImmediate fuel "RUN" (session fuel counting_lines fresh).1
    = (st', Never OutOfFuel)
    ∧ Forall (eq (OutputLine "1")) (trace st').
Proof.
  rewrite counting_stored.
  rewrite (executeImmediate_statement _ _
             [createToken (KEYWORD "RUN") 0; createToken EOL 3] RUN) by done.
  rewrite executeNode_RUN. destruct fuel as [|fuel].
  { eexists. split; [reflexivity|]. constructor. }
  unfold run. rewrite decide_False by (by vm_compute).
  change (set_forStack [] (set_variables ∅ (set_running true
            (set_program counting_program fresh))))
    with (counting_state ∅ [] (of_Z 0) []).
  rewrite counting_sorted_lines.
  destruct (counting_never_returns fuel fuel ∅ [] (of_Z 0) [])
    as (st' & Hloop & Htrace); [by vm_compute|constructor|].
  rewrite Hloop. by exists st'.
Qed.

End counting_loop.

(** ** A bare line number, and GOTO typed at the prompt *)

Section stored_lines.
Import JS BasicInterpreter InterpreterSpec.
Context `{Runtime}.

Lemma parse_bare_line_number (n : number) (p q : nat) :
  parse [createToken (BasicTokenizer.NUMBER n) p; createToken EOL q]
  = Thrown "Unexpected token: EOL".
Proof. reflexivity. Qed.

(** C2 (what the code does).  A line made of a line number alone, that
    is of decimal digits only, is a syntax error: the parser finds the
    end of the line where it wants a statement, so that [storeLine] is
    never reached and the program store keeps the line.  Entering 10
    after 10 PRINT 1 leaves line 10 in place, and LIST still shows
    it. *)
Theorem bare_line_number_is_rejected (fuel : nat) (st : state) :
  (∀ digits,
     digits ≠ EmptyString → all_chars is_digit digits = true →
     executeImmediate fuel digits st
     = (report "Unexpected token: EOL" st, Normal ()))
  ∧ executeImmediate fuel "10" st
    = (report "Unexpected token: EOL" st, Normal ())
  ∧ program (report "Unexpected token: EOL" st) = program st
  ∧ (session fuel ["10 PRINT 1"; "10"; "LIST"] fresh).1
    = set_program
        {[ of_Z 10 := {| source := "10 PRINT 1";
                         ast := PRINT [NUMBER (of_Z 1)] [] |} ]}
        (log (OutputLine "10 PRINT 1")
           (log (Output ("?SYNTAX ERROR" ++ newline
                         ++ "Unexpected token: EOL" ++ newline)) fresh)).
Proof.
  assert (∀ digits,
     digits ≠ EmptyString → all_chars is_digit digits = true →
     executeImmediate fuel digits st
     = (report "Unexpected token: EOL" st, Normal ())) as Hbare.
  { intros digits Hne Hdigits.
    apply (executeImmediate_parse_fails _ _ _ _ _
             (tokenize_digits digits Hne Hdigits)).
    apply parse_bare_line_number. }
  split; [exact Hbare|]. split; [|split].
  - by apply Hbare.
  - unfold report, print. by destruct (outputCallback st).
  - destruct fuel; vm_compute; reflexivity.
Qed.

Lemma executeNode_GOTO fuel lineNumber st :
  executeNode fuel (GOTO lineNumber) st = executeGoto lineNumber st.
Proof. by destruct fuel. Qed.

(** C3 (what the code does).  GOTO typed at the prompt, for a line that
    exists, leaves that line number as the pending jump target, and
    nothing clears it: the next RUN executes its first line and then
    jumps there.  With the lines 10, 20 and 30 printing 1, 2 and 3, RUN
    prints 1, 2, 3, but after GOTO 30 it prints 1 and 3 only. *)
Theorem immediate_goto_alters_next_run (fuel : nat) :
  (∀ st lineNumber,
     is_Some (program st !! Map_key lineNumber) →
     executeNode fuel (GOTO lineNumber) st
     = (set_nextLine (Some lineNumber) st, Normal ()))
  ∧ trace (session 4 (printing_lines ++ ["RUN"]) fresh).1
    = [OutputLine "1"; OutputLine "2"; OutputLine "3"]
  ∧ trace (session 4 (printing_lines ++ ["GOTO 30"; "RUN"]) fresh).1
    = [OutputLine "1"; OutputLine "3"].
Proof.
  split; [|split].
  - intros st lineNumber [line Hline]. rewrite executeNode_GOTO.
    unfold executeGoto. by rewrite Hline.
  - vm_compute. reflexivity.
  - vm_compute. reflexivity.
Qed.

End stored_lines.

(** ** Closed instances *)

Section closed_instances.
Import JS BasicInterpreter ParserSpec InterpreterSpec.
#[local] Existing Instance sample_runtime.

(** C4 (as first stated) fails: PRINT A/0 is reported as a division by
    zero, yet it leaves the variable A, unbound before, bound to 0. *)
Lemma failed_print_binds_its_variable :
  ∃ st',
    fails 0 "PRINT A/0" fresh "?DIVISION BY ZERO ERROR" st'
    ∧ executeImmediate 0 "PRINT A/0" fresh
      = (report "?DIVISION BY ZERO ERROR" st', Normal ())
    ∧ variables fresh !! "A" = None
    ∧ variables (executeImmediate 0 "PRINT A/0" fresh).1 !! "A"
      = Some (VNum (of_Z 0))
    ∧ variables (executeImmediate 0 "PRINT A/0" fresh).1 ≠ variables fresh.
Proof. exact (failed_print_binds_variable_in_any_engine 0). Qed.

Lemma failed_line_reported_store_kept_witness :
  executeImmediate 0 "PRINT A/0" fresh
  = (report "?DIVISION BY ZERO ERROR"
       (set_variables {["A" := VNum (of_Z 0)]} fresh), Normal ())
  ∧ trace (report "?DIVISION BY ZERO ERROR"
             (set_variables {["A" := VNum (of_Z 0)]} fresh))
    = [Output ("?SYNTAX ERROR" ++ newline ++ "?DIVISION BY ZERO ERROR"
               ++ newline)]
  ∧ program (report "?DIVISION BY ZERO ERROR"
               (set_variables {["A" := VNum (of_Z 0)]} fresh))
    = program fresh
  ∧ vivified (variables fresh)
      (variables (report "?DIVISION BY ZERO ERROR"
                    (set_variables {["A" := VNum (of_Z 0)]} fresh))).
Proof.
  apply (failed_line_reported_store_kept 0 "PRINT A/0" fresh
           "?DIVISION BY ZERO ERROR"
           (set_variables {["A" := VNum (of_Z 0)]} fresh)).
  eapply (executing_fails _ _ _ _ _ _
            (PRINT [BINARY "/" (VARIABLE "A") (NUMBER (of_Z 0))] []));
    [by vm_compute|by vm_compute|done|done|by vm_compute].
Defined.

Lemma unset_variable_reads_default_witness :
  (endsWith "A" "$" = false →
     evaluate (VARIABLE "A") ∅
     = (<["A" := VNum (of_Z 0)]> ∅, Normal (VNum (of_Z 0))))
  ∧ (endsWith "A" "$" = true →
     evaluate (VARIABLE "A") ∅
     = (<["A" := VStr EmptyString]> ∅, Normal (VStr EmptyString))).
Proof.
  apply (unset_variable_reads_default "A" ∅). reflexivity.
Defined.

Lemma division_raises_iff_zero_witness :
  ((evaluate (BINARY "/" (NUMBER (of_Z 5)) (NUMBER (of_Z 0))) ∅).2
   = Thrown "?DIVISION BY ZERO ERROR" ↔ is_zero (of_Z 0) = true)
  ∧ (is_zero (of_Z 0) = false →
     (evaluate (BINARY "/" (NUMBER (of_Z 5)) (NUMBER (of_Z 0))) ∅).2
     = Normal (VNum (div (ToNumber (VNum (of_Z 5))) (of_Z 0)))).
Proof.
  apply (division_raises_iff_zero (NUMBER (of_Z 5)) (NUMBER (of_Z 0)) ∅ ∅ ∅
           (VNum (of_Z 5)) (of_Z 0)); reflexivity.
Defined.

Lemma run_with_empty_store_witness :
  let st' := print ("?NO PROGRAM" ++ newline) fresh in
  run (executeNode 0) 0 fresh = (st', Normal ())
  ∧ executeImmediate 1 "RUN" fresh = (st', Normal ())
  ∧ program st' = program fresh
  ∧ variables st' = variables fresh
  ∧ forStack st' = forStack fresh
  ∧ trace st' = (if outputCallback fresh
                 then (trace fresh ++ [Output ("?NO PROGRAM" ++ newline)])%list
                 else trace fresh).
Proof.
  apply (run_with_empty_store (executeNode 0) 0 0 fresh). reflexivity.
Defined.

Lemma rem_line_stored_iff_uppercase_witness :
  (string_includes "10 rem hello" "REM" = false →
     executeImmediate 0 "10 rem hello" (session 0 ["10 PRINT 1"] fresh).1
     = (set_program (delete (Map_key (of_Z 10))
                       (program (session 0 ["10 PRINT 1"] fresh).1))
          (session 0 ["10 PRINT 1"] fresh).1, Normal ()))
  ∧ (string_includes "10 rem hello" "REM" = true →
     executeImmediate 0 "10 rem hello" (session 0 ["10 PRINT 1"] fresh).1
     = (set_program
          (<[Map_key (of_Z 10) := {| source := "10 rem hello"; ast := REM |}]>
             (program (session 0 ["10 PRINT 1"] fresh).1))
          (session 0 ["10 PRINT 1"] fresh).1, Normal ())).
Proof.
  apply (rem_line_stored_iff_uppercase 0 "10 rem hello"
           [createToken (BasicTokenizer.NUMBER (of_Z 10)) 0;
            createToken (KEYWORD "REM") 3;
            createToken (IDENTIFIER "HELLO") 7;
            createToken EOL 12]
           (of_Z 10) (session 0 ["10 PRINT 1"] fresh).1);
    by vm_compute.
Defined.

Lemma next_without_for_raised_iff_witness :
  explicit_names (NEXT (Some "J"))
  ∧ (executeNode 0 (NEXT (Some "J")) (set_forStack [counting_frame] fresh)).2
    = Thrown "?NEXT WITHOUT FOR ERROR".
Proof.
  assert (explicit_names (NEXT (Some "J"))) as Hexplicit by done.
  split; [exact Hexplicit|].
  apply (proj1 (next_without_for_raised_iff 0 (Some "J")
                  (set_forStack [counting_frame] fresh) Hexplicit)).
  right. exists counting_frame, []. split; [reflexivity|].
  exists "J". by split.
Defined.

(** Typing the comment in lower case erases line 10, typing it in upper
    case stores it. *)
Example lowercase_rem_erases_line :
  program (session 0 ["10 PRINT 1"; "10 rem hello"] fresh).1 = ∅
  ∧ program (session 0 ["10 PRINT 1"; "10 REM hello"] fresh).1
    = {[ of_Z 10 := {| source := "10 REM hello"; ast := REM |} ]}.
Proof. split; vm_compute; reflexivity. Qed.

(** The sample sessions of the specification: precedence of the
    multiplication, a stored program that prints a variable, and a jump
    to a line that does not exist, typed and stored. *)
Example multiplication_binds_tighter :
  (tokens ← tokenize "PRINT A+B*2"; parse tokens)
  = Normal (PRINT [BINARY "+" (VARIABLE "A")
                     (BINARY "*" (VARIABLE "B") (NUMBER (of_Z 2)))] []).
Proof. vm_compute. reflexivity. Qed.

Example stored_program_prints_variable :
  trace (session 3 ["10 LET A=1"; "20 PRINT A"; "RUN"] fresh).1
  = [OutputLine "1"].
Proof. vm_compute. reflexivity. Qed.

Example goto_undefined_line :
  trace (session 1 ["GOTO 99"] fresh).1
  = [Output ("?SYNTAX ERROR" ++ newline ++ "?UNDEF'D STATEMENT ERROR"
             ++ newline)]
  ∧ trace (session 2 ["10 GOTO 99"; "RUN"] fresh).1
    = [Output ("?UNDEF'D STATEMENT ERROR" ++ newline)].
Proof. split; vm_compute; reflexivity. Qed.

(** NEXT without FOR, typed at the prompt and met by RUN. *)
Example next_without_for_in_both_modes :
  trace (session 1 ["NEXT"] fresh).1
  = [Output ("?SYNTAX ERROR" ++ newline ++ "?NEXT WITHOUT FOR ERROR"
             ++ newline)]
  ∧ trace (session 2 ["10 NEXT I"; "RUN"] fresh).1
    = [Output ("?NEXT WITHOUT FOR ERROR" ++ newline)]
  ∧ trace (session 1 ["FOR I=1 TO 3"; "NEXT J"] fresh).1
    = [Output ("?SYNTAX ERROR" ++ newline ++ "?NEXT WITHOUT FOR ERROR"
               ++ newline)]
  ∧ trace (session 1 ["FOR I=1 TO 3"; "NEXT I"; "NEXT"] fresh).1 = [].
Proof. repeat split; vm_compute; reflexivity. Qed.

End closed_instances.

(** ** What statements leave alone *)

Section statement_effects.
Import JS BasicInterpreter InterpreterSpec SessionSpec.
Context `{Runtime}.

Lemma proceeds_refl st : proceeds st st.
Proof. split; try done. by left. Qed.

Lemma proceeds_trans st1 st2 st3 :
  proceeds st1 st2 → proceeds st2 st3 → proceeds st1 st3.
Proof.
  intros H12 H23. split.
  - destruct (proceeds_program _ _ H23) as [-> | ->]; [|by right].
    apply (proceeds_program _ _ H12).
  - etrans; [apply (proceeds_trace _ _ H12)|apply (proceeds_trace _ _ H23)].
  - etrans; [apply (proceeds_typed _ _ H23)|apply (proceeds_typed _ _ H12)].
  - by rewrite (proceeds_output _ _ H23), (proceeds_output _ _ H12).
  - by rewrite (proceeds_outputLine _ _ H23), (proceeds_outputLine _ _ H12).
  - by rewrite (proceeds_input _ _ H23), (proceeds_input _ _ H12).
  - by rewrite (proceeds_clear _ _ H23), (proceeds_clear _ _ H12).
Qed.

Lemma proceeds_same st st' :
  program st' = program st → trace st' = trace st → typed st' = typed st →
  outputCallback st' = outputCallback st →
  outputLineCallback st' = outputLineCallback st →
  inputCallback st' = inputCallback st →
  clearCallback st' = clearCallback st →
  proceeds st st'.
Proof.
  intros Hp Ht Hi Ha Hb Hc Hd.
  split; try done; [by left|by rewrite Ht|by rewrite Hi].
Qed.

Lemma proceeds_log e st : proceeds st (log e st).
Proof. split; try done; [by left|by apply prefix_app_r]. Qed.

Lemma proceeds_print text st : proceeds st (print text st).
Proof. unfold print. case_match; [apply proceeds_log|apply proceeds_refl]. Qed.

Lemma proceeds_println text st : proceeds st (println text st).
Proof. unfold println. case_match; [apply proceeds_log|apply proceeds_refl]. Qed.

Lemma proceeds_set_variables vars st : proceeds st (set_variables vars st).
Proof. by apply proceeds_same. Qed.

Lemma executePrint_proceeds expressions separators st :
  proceeds st (executePrint expressions separators st).1.
Proof.
  unfold executePrint.
  destruct (executePrint_loop _ _ _ _) as [vars [output| |]]; cbn [fst];
    try apply proceeds_set_variables.
  repeat case_match; cbn [fst];
    (eapply proceeds_trans; [apply (proceeds_set_variables vars)|]);
    apply proceeds_print || apply proceeds_println.
Qed.

Lemma executeLet_proceeds name e st : proceeds st (executeLet name e st).1.
Proof.
  unfold executeLet.
  destruct (evaluate _ _) as [vars [v| |]]; apply proceeds_set_variables.
Qed.

Lemma executeInput_proceeds prompt name st :
  proceeds st (executeInput prompt name st).1.
Proof.
  unfold executeInput.
  destruct (inputCallback st); cbn [negb]; [|apply proceeds_refl].
  cbn [typed log]. destruct (typed st) as [|input later] eqn:Htyped;
    cbn [fst].
  - apply proceeds_log.
  - repeat case_match; cbn [fst]; split; cbn; try done;
      try (by left); try (by apply prefix_app_r);
      rewrite Htyped; by apply suffix_cons_r.
Qed.

Lemma executeGoto_proceeds lineNumber st :
  proceeds st (executeGoto lineNumber st).1.
Proof.
  unfold executeGoto. case_match; [by apply proceeds_same|apply proceeds_refl].
Qed.

Lemma executeFor_proceeds name start end_ step st :
  proceeds st (executeFor name start end_ step st).1.
Proof.
  unfold executeFor.
  destruct (evaluate start _) as [vars1 [v1| |]];
    try apply proceeds_set_variables.
  destruct (evaluate end_ _) as [vars2 [v2| |]];
    try apply proceeds_set_variables.
  destruct (evaluate step _) as [vars3 [v3| |]];
    try apply proceeds_set_variables.
  by apply proceeds_same.
Qed.

Lemma executeNext_proceeds v st : proceeds st (executeNext v st).1.
Proof.
  unfold executeNext. repeat case_match; cbn [fst];
    try apply proceeds_refl; by apply proceeds_same.
Qed.

Lemma executeList_loop_proceeds lines start end_ : ∀ st,
  proceeds st (executeList_loop lines start end_ st).1.
Proof.
  induction lines as [|lineNum rest IH]; intros st; cbn [executeList_loop].
  - apply proceeds_refl.
  - destruct (leb start lineNum && leb lineNum end_); [|apply IH].
    destruct (program st !! Map_key lineNum) as [line|];
      [|apply proceeds_refl].
    eapply proceeds_trans; [apply proceeds_println|apply IH].
Qed.

Lemma executeList_proceeds start end_ st :
  proceeds st (executeList start end_ st).1.
Proof.
  unfold executeList. destruct (sorted_lines st) as [|first rest].
  - apply proceeds_println.
  - apply executeList_loop_proceeds.
Qed.

Lemma executeNew_proceeds st : proceeds st (executeNew st).
Proof.
  unfold executeNew.
  eapply proceeds_trans; [|apply proceeds_println].
  split; cbn; try done. by right.
Qed.

Lemma executeHome_proceeds st : proceeds st (executeHome st).
Proof.
  unfold executeHome. case_match; [apply proceeds_log|apply proceeds_refl].
Qed.

Lemma run_loop_proceeds exec lines :
  (∀ nd st, proceeds st (exec nd st).1) →
  ∀ n i st, proceeds st (run_loop exec lines n i st).1.
Proof.
  intros Hexec. induction n as [|n IH]; intros i st; cbn [run_loop].
  - repeat case_match; apply proceeds_refl.
  - destruct (lines !! i) as [lineNumber|]; [|apply proceeds_refl].
    destruct (running st); cbn [negb]; [|apply proceeds_refl].
    assert (proceeds st (set_currentLine lineNumber st)) as Hline
      by by apply proceeds_same.
    destruct (program _ !! _) as [line|]; [|done].
    pose proof (Hexec (ast line) (set_currentLine lineNumber st)) as Hstep.
    destruct (exec _ _) as [st2 [[]| |]]; cbn [fst] in *;
      try (by eapply proceeds_trans).
    destruct (nextLine st2) as [target|].
    + destruct (indexOf lines target) as [nextIdx|]; cbn [fst];
        [|by eapply proceeds_trans].
      eapply proceeds_trans; [exact Hline|].
      eapply proceeds_trans; [exact Hstep|].
      eapply proceeds_trans; [|apply IH]. by apply proceeds_same.
    + eapply proceeds_trans; [exact Hline|].
      eapply proceeds_trans; [exact Hstep|apply IH].
Qed.

Lemma run_proceeds exec n st :
  (∀ nd st, proceeds st (exec nd st).1) → proceeds st (run exec n st).1.
Proof.
  intros Hexec. unfold run. case_decide; [apply proceeds_print|].
  cbv zeta. set (st1 := set_forStack [] _).
  pose proof (run_loop_proceeds exec (sorted_lines st1) Hexec n 0 st1)
    as Hloop.
  assert (proceeds st st1) as Hstart by by apply proceeds_same.
  destruct (run_loop exec (sorted_lines st1) n 0 st1) as [st2 [[]| |]];
    cbn [fst] in *.
  - eapply proceeds_trans; [exact Hstart|].
    eapply proceeds_trans; [exact Hloop|]. by apply proceeds_same.
  - eapply proceeds_trans; [exact Hstart|].
    eapply proceeds_trans; [exact Hloop|].
    eapply proceeds_trans; [apply proceeds_print|]. by apply proceeds_same.
  - by eapply proceeds_trans.
Qed.

Lemma executeNode_proceeds fuel : ∀ nd st,
  proceeds st (executeNode fuel nd st).1.
Proof.
  induction fuel as [|fuel IHfuel].
  - induction nd; intros st; try (cbn; apply proceeds_refl).
    + apply executePrint_proceeds.
    + apply executeLet_proceeds.
    + apply executeInput_proceeds.
    + rewrite executeNode_IF.
      destruct (evaluate _ _) as [vars [v| |]];
        try apply proceeds_set_variables.
      destruct (ToBoolean v); [|apply proceeds_set_variables].
      eapply proceeds_trans; [apply (proceeds_set_variables vars)|apply IHnd2].
    + apply executeGoto_proceeds.
    + apply executeFor_proceeds.
    + apply executeNext_proceeds.
    + by apply proceeds_same.
    + apply executeList_proceeds.
    + apply executeNew_proceeds.
    + apply executeHome_proceeds.
  - induction nd; intros st; try (cbn; apply proceeds_refl).
    + apply executePrint_proceeds.
    + apply executeLet_proceeds.
    + apply executeInput_proceeds.
    + rewrite executeNode_IF.
      destruct (evaluate _ _) as [vars [v| |]];
        try apply proceeds_set_variables.
      destruct (ToBoolean v); [|apply proceeds_set_variables].
      eapply proceeds_trans; [apply (proceeds_set_variables vars)|apply IHnd2].
    + apply executeGoto_proceeds.
    + apply executeFor_proceeds.
    + apply executeNext_proceeds.
    + by apply proceeds_same.
    + apply executeList_proceeds.
    + rewrite executeNode_RUN. by apply run_proceeds.
    + apply executeNew_proceeds.
    + apply executeHome_proceeds.
Qed.

End statement_effects.

(** ** Loop frames and their variables *)

Section loop_variables.
Import JS BasicInterpreter InterpreterSpec SessionSpec.
Context `{Runtime}.

Lemma loops_bound_vivified st vars :
  vivified (variables st) vars → loops_bound st →
  loops_bound (set_variables vars st).
Proof.
  intros Hv. unfold loops_bound. cbn [forStack variables set_variables].
  intros Hb. eapply Forall_impl; [exact Hb|]. cbn beta. intros loop [v Hloop].
  destruct (Hv (variable loop)) as [Heq|[Hnone _]]; [|congruence].
  rewrite Heq. by exists v.
Qed.

Lemma loops_bound_insert st name v :
  loops_bound st → loops_bound (set_variables (<[name := v]> (variables st)) st).
Proof.
  unfold loops_bound. cbn [forStack variables set_variables].
  intros Hb. eapply Forall_impl; [exact Hb|]. cbn beta. intros loop Hloop.
  destruct (decide (name = variable loop)) as [->|Hne].
  - rewrite lookup_insert_eq. by eexists.
  - by rewrite lookup_insert_ne.
Qed.

Lemma loops_bound_same st st' :
  variables st' = variables st → forStack st' = forStack st →
  loops_bound st → loops_bound st'.
Proof. unfold loops_bound. by intros -> ->. Qed.

Lemma loops_bound_print text st : loops_bound st → loops_bound (print text st).
Proof. apply loops_bound_same; unfold print; by case_match. Qed.

Lemma loops_bound_println text st :
  loops_bound st → loops_bound (println text st).
Proof. apply loops_bound_same; unfold println; by case_match. Qed.

Lemma executePrint_loops_bound expressions separators st :
  loops_bound st → loops_bound (executePrint expressions separators st).1.
Proof.
  intros Hst. unfold executePrint.
  pose proof (executePrint_loop_vivified expressions separators EmptyString
                (variables st)) as Hv.
  destruct (executePrint_loop _ _ _ _) as [vars [output| |]]; cbn [fst] in *;
    try by apply loops_bound_vivified.
  repeat case_match; cbn [fst];
    (apply loops_bound_print || apply loops_bound_println);
    by apply loops_bound_vivified.
Qed.

Lemma executeLet_loops_bound name e st :
  loops_bound st → loops_bound (executeLet name e st).1.
Proof.
  intros Hst. unfold executeLet.
  pose proof (evaluate_vivified e (variables st)) as Hv.
  destruct (evaluate _ _) as [vars [v| |]]; cbn [fst] in *;
    try by apply loops_bound_vivified.
  by apply (loops_bound_insert (set_variables vars st)), loops_bound_vivified.
Qed.

Lemma executeInput_loops_bound prompt name st :
  loops_bound st → loops_bound (executeInput prompt name st).1.
Proof.
  intros Hst. unfold executeInput.
  destruct (inputCallback st); cbn [negb]; [|done].
  cbn [typed log]. destruct (typed st) as [|input later]; cbn [fst]; [done|].
  repeat case_match; cbn [fst]; try done;
    match goal with
    | |- loops_bound (set_variables (<[_ := _]> _) ?st2) =>
        by apply (loops_bound_insert st2)
    end.
Qed.

Lemma executeGoto_loops_bound lineNumber st :
  loops_bound st → loops_bound (executeGoto lineNumber st).1.
Proof. unfold executeGoto. by case_match. Qed.

Lemma executeFor_loops_bound name start end_ step st :
  loops_bound st → loops_bound (executeFor name start end_ step st).1.
Proof.
  intros Hst. unfold executeFor.
  pose proof (evaluate_vivified start (variables st)) as H1.
  destruct (evaluate start _) as [vars1 [v1| |]]; cbn [fst] in *;
    try by apply loops_bound_vivified.
  pose proof (evaluate_vivified end_ vars1) as H2.
  pose proof (vivified_trans _ _ _ H1 H2) as H12.
  destruct (evaluate end_ _) as [vars2 [v2| |]]; cbn [fst] in *;
    try by apply loops_bound_vivified.
  pose proof (evaluate_vivified step vars2) as H3.
  pose proof (vivified_trans _ _ _ H12 H3) as H123.
  destruct (evaluate step _) as [vars3 [v3| |]]; cbn [fst] in *;
    try by apply loops_bound_vivified.
  pose proof (loops_bound_insert (set_variables vars3 st) name v1
                (loops_bound_vivified _ _ H123 Hst)) as Hbound.
  constructor; [|exact Hbound].
  cbn. rewrite lookup_insert_eq. by eexists.
Qed.

Lemma executeNext_loops_bound v st :
  loops_bound st → loops_bound (executeNext v st).1.
Proof.
  intros Hst. unfold executeNext.
  destruct (forStack st) as [|loop below] eqn:Hstack; [done|].
  destruct (names_other_variable v loop); [done|].
  destruct (_ || _); cbn [fst].
  - by apply (loops_bound_insert st).
  - unfold loops_bound in *. rewrite Hstack in Hst.
    by apply Forall_cons_1 in Hst as [_ ?].
Qed.

Lemma executeList_loops_bound start end_ st :
  loops_bound st → loops_bound (executeList start end_ st).1.
Proof.
  destruct (executeList start end_ st) as [st' c] eqn:Hlist.
  apply executeList_keeps in Hlist as Hkeeps.
  assert (forStack st' = forStack st) as Hstack.
  { revert Hlist. unfold executeList.
    destruct (sorted_lines st) as [|first rest].
    - intros [= <- <-]. unfold println. by case_match.
    - generalize (default first start)
        (default (List.last (first :: rest) first) end_).
      generalize (first :: rest). intros lines. revert st Hkeeps.
      induction lines as [|lineNum lines IH]; intros st Hkeeps a b;
        cbn [executeList_loop].
      + by intros [= <- <-].
      + destruct (_ && _); [|by apply IH].
        destruct (program st !! _); [|by intros [= <- <-]].
        intros Heq. etrans; [eapply IH, Heq|].
        * eapply executeList_loop_keeps, Heq.
        * unfold println. by case_match. }
  intros Hst. cbn [fst].
  destruct Hkeeps as [_ Hv]. unfold loops_bound in *. rewrite Hstack.
  eapply Forall_impl; [exact Hst|]. cbn beta. intros loop [v Hloop].
  destruct (Hv (variable loop)) as [Heq|[Hnone _]]; [|congruence].
  rewrite Heq. by exists v.
Qed.

Lemma run_loop_loops_bound exec lines :
  (∀ nd st, loops_bound st → loops_bound (exec nd st).1) →
  ∀ n i st, loops_bound st → loops_bound (run_loop exec lines n i st).1.
Proof.
  intros Hexec. induction n as [|n IH]; intros i st Hst; cbn [run_loop].
  - by repeat case_match.
  - destruct (lines !! i) as [lineNumber|]; [|done].
    destruct (running st); cbn [negb]; [|done].
    destruct (program _ !! _) as [line|]; [|done].
    pose proof (Hexec (ast line) (set_currentLine lineNumber st) Hst) as Hstep.
    destruct (exec _ _) as [st2 [[]| |]]; cbn [fst] in *; try done.
    destruct (nextLine st2) as [target|]; [|by apply IH].
    destruct (indexOf lines target) as [nextIdx|]; [|done].
    by apply IH.
Qed.

Lemma run_loops_bound exec n st :
  (∀ nd st, loops_bound st → loops_bound (exec nd st).1) →
  loops_bound st → loops_bound (run exec n st).1.
Proof.
  intros Hexec Hst. unfold run. case_decide; [by apply loops_bound_print|].
  cbv zeta. set (st1 := set_forStack [] _).
  assert (loops_bound st1) as Hstart by constructor.
  pose proof (run_loop_loops_bound exec (sorted_lines st1) Hexec n 0 st1 Hstart)
    as Hloop.
  destruct (run_loop exec (sorted_lines st1) n 0 st1) as [st2 [[]| |]];
    cbn [fst] in *; try done.
  by apply loops_bound_print.
Qed.

Lemma executeNode_loops_bound fuel : ∀ nd st,
  loops_bound st → loops_bound (executeNode fuel nd st).1.
Proof.
  induction fuel as [|fuel IHfuel].
  - induction nd; intros st Hst; try (by cbn).
    + by apply executePrint_loops_bound.
    + by apply executeLet_loops_bound.
    + by apply executeInput_loops_bound.
    + rewrite executeNode_IF.
      pose proof (evaluate_vivified nd1 (variables st)) as Hv.
      destruct (evaluate _ _) as [vars [v| |]]; cbn [fst] in *;
        try by apply loops_bound_vivified.
      destruct (ToBoolean v); [|by apply loops_bound_vivified].
      by apply IHnd2, loops_bound_vivified.
    + by apply executeGoto_loops_bound.
    + by apply executeFor_loops_bound.
    + by apply executeNext_loops_bound.
    + by apply executeList_loops_bound.
    + cbn. apply loops_bound_println. constructor.
    + cbn. unfold executeHome. by case_match.
  - induction nd; intros st Hst; try (by cbn).
    + by apply executePrint_loops_bound.
    + by apply executeLet_loops_bound.
    + by apply executeInput_loops_bound.
    + rewrite executeNode_IF.
      pose proof (evaluate_vivified nd1 (variables st)) as Hv.
      destruct (evaluate _ _) as [vars [v| |]]; cbn [fst] in *;
        try by apply loops_bound_vivified.
      destruct (ToBoolean v); [|by apply loops_bound_vivified].
      by apply IHnd2, loops_bound_vivified.
    + by apply executeGoto_loops_bound.
    + by apply executeFor_loops_bound.
    + by apply executeNext_loops_bound.
    + by apply executeList_loops_bound.
    + rewrite executeNode_RUN. by apply run_loops_bound.
    + cbn. apply loops_bound_println. constructor.
    + cbn. unfold executeHome. by case_match.
Qed.

End loop_variables.

(** ** The program store and the lines typed *)

Section stored_text.
Import JS BasicInterpreter InterpreterSpec SessionSpec ListingSpec.
Context `{Runtime}.



Lemma stored_as_typed_program st st' :
  program st' = program st ∨ program st' = ∅ →
  stored_as_typed st → stored_as_typed st'.
Proof.
  intros [Heq|Heq] Hst key line; rewrite Heq; [apply Hst|].
  by rewrite lookup_empty.
Qed.

Lemma storeLine_stored_as_typed line tokens n s st :
  tokenize line = Normal tokens →
  parse tokens = Normal (PROGRAM_LINE n s) →
  stored_as_typed st → stored_as_typed (storeLine n line s st).
Proof.
  intros Htok Hparse Hst.
  assert (stored_as_typed (set_program (delete (Map_key n) (program st)) st))
    as Hdelete.
  { intros key l. cbn. rewrite lookup_delete_Some. intros [_ Hl].
    by apply Hst. }
  assert (stored_as_typed
            (set_program (<[Map_key n := {| source := line; ast := s |}]>
                            (program st)) st)) as Hinsert.
  { intros key l. cbn. rewrite lookup_insert_Some.
    intros [[<- <-]|[_ Hl]]; [|by apply Hst].
    by exists tokens, n. }
  unfold storeLine. by repeat case_match.
Qed.

Lemma executeImmediate_invariant (P : state → Prop) fuel line st :
  (∀ text st0, P st0 → P (print text st0)) →
  (∀ nd st0, P st0 → P (executeNode fuel nd st0).1) →
  (∀ tokens n s,
     tokenize line = Normal tokens →
     parse tokens = Normal (PROGRAM_LINE n s) →
     P (storeLine n line s st)) →
  P st → P (executeImmediate fuel line st).1.
Proof.
  intros Hprint Hexec Hstore Hst. unfold executeImmediate.
  destruct (String.eqb (trim line) ""); [done|].
  destruct (tokenize line) as [tokens| |] eqn:Htok; cbn [fst];
    [|by apply Hprint|done].
  destruct (parse tokens) as [nd| |] eqn:Hparse; cbn [fst];
    [|by apply Hprint|done].
  destruct nd; try (by eapply Hstore); try done;
    match goal with
    | |- context [executeNode fuel ?nd st] =>
        pose proof (Hexec nd st Hst) as Hnd;
        destruct (executeNode fuel nd st) as [st1 [[]| |]]
    end; cbn [fst] in *; try done; by apply Hprint.
Qed.

Lemma session_invariant (P : state → Prop) fuel :
  (∀ line st, P st → P (executeImmediate fuel line st).1) →
  ∀ lines st, P st → P (session fuel lines st).1.
Proof.
  intros Hline. induction lines as [|line rest IH]; intros st Hst; [done|].
  cbn [session]. specialize (Hline line st Hst).
  destruct (executeImmediate fuel line st) as [st1 [[]| |]]; cbn [fst] in *;
    try done.
  by apply IH.
Qed.

Lemma executeImmediate_loops_bound fuel line st :
  loops_bound st → loops_bound (executeImmediate fuel line st).1.
Proof.
  intros Hst. apply (executeImmediate_invariant loops_bound); [| | |done].
  - intros text st0. apply loops_bound_print.
  - intros nd st0. apply executeNode_loops_bound.
  - intros tokens n s _ _. unfold storeLine. by repeat case_match.
Qed.

Lemma executeImmediate_stored_as_typed fuel line st :
  stored_as_typed st → stored_as_typed (executeImmediate fuel line st).1.
Proof.
  intros Hst. apply (executeImmediate_invariant stored_as_typed); [| | |done].
  - intros text st0. apply stored_as_typed_program. left.
    unfold print. by case_match.
  - intros nd st0. apply stored_as_typed_program.
    apply executeNode_proceeds.
  - intros tokens n s Htok Hparse. by eapply storeLine_stored_as_typed.
Qed.

End stored_text.

(** ** LIST *)

Section listing.
Import JS BasicInterpreter InterpreterSpec SessionSpec ListingSpec.
Context `{Runtime}.





End listing.

(** ** The errors of expressions *)

Section expression_errors.
Import JS BasicInterpreter InterpreterSpec SessionSpec ListingSpec SyntaxSpec
  ErrorSpec.
Context `{Runtime}.

Lemma includes_BINARY_OPERATORS operator :
  includes BINARY_OPERATORS operator = true →
  operator ∈ BINARY_OPERATORS.
Proof.
  unfold includes, BINARY_OPERATORS. cbn [existsb].
  rewrite !orb_true_iff, !String.eqb_eq. intros Hop.
  repeat (destruct Hop as [->|Hop]; [by repeat constructor|]). done.
Qed.

Lemma evaluate_expression_thrown nd :
  is_expression nd = true →
  ∀ vars vars1 message,
    evaluate nd vars = (vars1, Thrown message) →
    message = "?DIVISION BY ZERO ERROR".
Proof.
  induction nd; cbn [is_expression]; try done; intros Hexp vars vars1 message;
    cbn [evaluate].
  - apply andb_true_iff in Hexp as [[Hop Hl]%andb_true_iff Hr].
    destruct (evaluate nd1 vars) as [varsl [lv| |]] eqn:Heql;
      [|intros [= <- <-]; by eapply IHnd1|done].
    destruct (evaluate nd2 varsl) as [varsr [rv| |]] eqn:Heqr;
      [|intros [= <- <-]; by eapply IHnd2|done].
    apply includes_BINARY_OPERATORS in Hop.
    unfold BINARY_OPERATORS in Hop.
    repeat (apply elem_of_cons in Hop as [->|Hop];
            [cbn; try (by intros [= <-])|]).
    + destruct (strict_equal _ _); congruence.
    + by apply elem_of_nil in Hop.
  - apply andb_true_iff in Hexp as [->%String.eqb_eq Ho].
    destruct (evaluate nd vars) as [varso [v| |]] eqn:Heqo;
      [done|intros [= <- <-]; by eapply IHnd|done].
Qed.

End expression_errors.

(** ** The nodes that the parser builds *)

Section parsed_nodes.
Import JS BasicParser SyntaxSpec.
Context `{Runtime}.

Ltac bind_cases :=
  unfold mbind, completion_bind; intros;
  repeat case_match; simplify_eq.

Lemma binary_loop_expression ops (operand : parser node) (n : nat) :
  (∀ op, includes ops op = true → includes BINARY_OPERATORS op = true) →
  (∀ ts e ts', operand ts = Normal (e, ts') → is_expression e = true) →
  ∀ lhs ts e ts',
    is_expression lhs = true →
    binary_loop ops operand n lhs ts = Normal (e, ts') →
    is_expression e = true.
Proof.
  intros Hops Hoperand. induction n as [|n IH]; intros lhs [|t rest] e ts' Hlhs;
    cbn [binary_loop]; try done.
  - destruct (type t) as [?|?|?|?|op|?| |]; try (by intros [= <- <-]).
    destruct (includes ops op); [done|by intros [= <- <-]].
  - destruct (type t) as [?|?|?|?|op|?| |]; try (by intros [= <- <-]).
    destruct (includes ops op) eqn:Hop; [|by intros [= <- <-]].
    unfold mbind, completion_bind.
    destruct (advance (t :: rest)) as [ts1| |]; [|done|done].
    destruct (operand ts1) as [[rhs ts2]| |] eqn:Hrhs; [|done|done].
    apply IH. cbn [is_expression].
    by rewrite (Hops _ Hop), Hlhs, (Hoperand _ _ _ Hrhs).
Qed.

Lemma binary_level_expression ops (operand : parser node) ts e ts' :
  (∀ op, includes ops op = true → includes BINARY_OPERATORS op = true) →
  (∀ ts e ts', operand ts = Normal (e, ts') → is_expression e = true) →
  ('(lhs, ts1) ← operand ts; binary_loop ops operand (length ts1) lhs ts1)
  = Normal (e, ts') →
  is_expression e = true.
Proof.
  intros Hops Hoperand. unfold mbind, completion_bind.
  destruct (operand ts) as [[lhs ts1]| |] eqn:Hlhs; [|done|done].
  apply binary_loop_expression; [done|done|]. by eapply Hoperand.
Qed.

Lemma parseComparison_with_expression (prim : parser node) :
  (∀ ts e ts', prim ts = Normal (e, ts') → is_expression e = true) →
  ∀ ts e ts',
    parseComparison_with prim ts = Normal (e, ts') → is_expression e = true.
Proof.
  intros Hprim ts e ts'. apply binary_level_expression.
  { intros op. unfold includes, BINARY_OPERATORS. cbn [existsb].
    intros Hop. repeat (destruct (String.eqb op _); cbn in *; try done). }
  clear ts e ts'. intros ts e ts'. apply binary_level_expression.
  { intros op. unfold includes, BINARY_OPERATORS. cbn [existsb].
    intros Hop. repeat (destruct (String.eqb op _); cbn in *; try done). }
  clear ts e ts'. intros ts e ts'. apply binary_level_expression; [|done].
  intros op. unfold includes, BINARY_OPERATORS. cbn [existsb].
  intros Hop. repeat (destruct (String.eqb op _); cbn in *; try done).
Qed.

Lemma parsePrimary_expression (fuel : nat) : ∀ ts e ts',
  parsePrimary fuel ts = Normal (e, ts') → is_expression e = true.
Proof.
  induction fuel as [|fuel IH]; intros ts e ts'; [done|].
  cbn [parsePrimary]. destruct ts as [|tok rest]; [done|].
  assert (∀ b,
    (paren ← check "PUNCTUATION" (Some "(") (tok :: rest);
     if paren : bool then
       ts1 ← advance (tok :: rest);
       '(expr, ts2) ← parseComparison_with (parsePrimary fuel) ts1;
       '(_, ts3) ← expect "PUNCTUATION" (Some ")") ts2;
       Normal (expr, ts3)
     else
       minus ← check "OPERATOR" (Some "-") (tok :: rest);
       if minus : bool then
         ts1 ← advance (tok :: rest);
         '(operand, ts2) ← parsePrimary fuel ts1;
         Normal (UNARY "-" operand, ts2)
       else Thrown b) = Normal (e, ts') → is_expression e = true) as Hother.
  { intros b. unfold mbind, completion_bind.
    destruct (check "PUNCTUATION" (Some "(") (tok :: rest)) as [[]| |];
      [| |done|done].
    - destruct (advance (tok :: rest)) as [ts1| |]; [|done|done].
      destruct (parseComparison_with (parsePrimary fuel) ts1)
        as [[expr ts2]| |] eqn:Hexpr; [|done|done].
      destruct (expect "PUNCTUATION" (Some ")") ts2) as [[? ts3]| |];
        [|done|done].
      intros [= <- <-].
      by eapply (parseComparison_with_expression (parsePrimary fuel)).
    - destruct (check "OPERATOR" (Some "-") (tok :: rest)) as [[]| |];
        [|done|done|done].
      destruct (advance (tok :: rest)) as [ts1| |]; [|done|done].
      destruct (parsePrimary fuel ts1) as [[operand ts2]| |] eqn:Hoperand;
        [|done|done].
      intros [= <- <-]. cbn. by eapply IH. }
  destruct (type tok); try apply Hother;
    unfold mbind, completion_bind;
    (destruct (advance (tok :: rest)); [|done|done]); by intros [= <- <-].
Qed.

Lemma parseExpression_expression ts e ts' :
  parseExpression ts = Normal (e, ts') → is_expression e = true.
Proof.
  apply parseComparison_with_expression. apply parsePrimary_expression.
Qed.

Lemma parsePrint_loop_expressions (n : nat) : ∀ ts es seps ts',
  parsePrint_loop n ts = Normal (es, seps, ts') →
  forallb is_expression es = true.
Proof.
  induction n as [|n IH]; intros ts es seps ts'; cbn [parsePrint_loop].
  - bind_cases; done.
  - unfold mbind, completion_bind.
    destruct (isAtEnd ts) as [[]| |]; [by intros [= <- <- <-]| |done|done].
    destruct (parseExpression ts) as [[expr ts1]| |] eqn:Hexpr; [|done|done].
    apply parseExpression_expression in Hexpr.
    destruct (check "PUNCTUATION" (Some ";") ts1) as [[]| |]; [| |done|done].
    { destruct (advance ts1) as [ts2| |]; [|done|done].
      destruct (parsePrint_loop n ts2) as [[[es' seps'] ts3]| |] eqn:Hloop;
        [|done|done].
      intros [= <- <- <-]. cbn. rewrite Hexpr. by eapply IH. }
    destruct (check "PUNCTUATION" (Some ",") ts1) as [[]| |]; [| |done|done].
    { destruct (advance ts1) as [ts2| |]; [|done|done].
      destruct (parsePrint_loop n ts2) as [[[es' seps'] ts3]| |] eqn:Hloop;
        [|done|done].
      intros [= <- <- <-]. cbn. rewrite Hexpr. by eapply IH. }
    intros [= <- <- <-]. cbn. by rewrite Hexpr.
Qed.

Ltac expressions :=
  repeat match goal with
  | F : parseExpression _ = Normal _ |- _ =>
      apply parseExpression_expression in F
  | F : parsePrint_loop _ _ = Normal _ |- _ =>
      apply parsePrint_loop_expressions in F
  end.

Lemma parsePrint_statement ts nd ts' :
  parsePrint ts = Normal (nd, ts') → is_statement nd = true.
Proof. unfold parsePrint. bind_cases. by expressions. Qed.

Lemma parseLet_statement ts nd ts' :
  parseLet ts = Normal (nd, ts') → is_statement nd = true.
Proof. unfold parseLet. bind_cases; by expressions. Qed.

Lemma parseInput_statement ts nd ts' :
  parseInput ts = Normal (nd, ts') → is_statement nd = true.
Proof. unfold parseInput. bind_cases; done. Qed.

Lemma parseGoto_statement ts nd ts' :
  parseGoto ts = Normal (nd, ts') → is_statement nd = true.
Proof. unfold parseGoto. bind_cases; done. Qed.

Lemma parseFor_statement ts nd ts' :
  parseFor ts = Normal (nd, ts') → is_statement nd = true.
Proof.
  unfold parseFor. bind_cases; expressions; cbn;
    repeat match goal with F : is_expression _ = true |- _ => rewrite F end;
    done.
Qed.

Lemma parseNext_statement ts nd ts' :
  parseNext ts = Normal (nd, ts') → is_statement nd = true.
Proof. unfold parseNext. bind_cases; done. Qed.

Lemma parseRem_statement ts nd ts' :
  parseRem ts = Normal (nd, ts') → is_statement nd = true.
Proof. unfold parseRem. bind_cases; done. Qed.

Lemma parseList_statement ts nd ts' :
  parseList ts = Normal (nd, ts') → is_statement nd = true.
Proof. unfold parseList. bind_cases; done. Qed.

Lemma parseIf_with_statement (parseStatement : parser node) ts nd ts' :
  (∀ ts1 nd1 ts1',
     parseStatement ts1 = Normal (nd1, ts1') → is_statement nd1 = true) →
  parseIf_with parseStatement ts = Normal (nd, ts') → is_statement nd = true.
Proof.
  intros Hstatement. unfold parseIf_with. bind_cases; expressions; cbn;
    repeat match goal with F : is_expression _ = true |- _ => rewrite F end;
    try done; by eapply Hstatement.
Qed.

Lemma parseStatement_statement (fuel : nat) : ∀ ts nd ts',
  parseStatement fuel ts = Normal (nd, ts') → is_statement nd = true.
Proof.
  induction fuel as [|fuel IH]; intros ts nd ts'; [done|].
  destruct ts as [|tok rest]; [done|]. cbn [parseStatement].
  assert (∀ k, (ts1 ← advance (tok :: rest); Normal (k, ts1))
               = Normal (nd, ts') → is_statement k = true →
               is_statement nd = true) as Hword.
  { intros k Hparse ?. unfold mbind, completion_bind in Hparse.
    destruct (advance (tok :: rest)); [|done|done]. by injection Hparse as <- <-. }
  destruct (type tok) as [?|?|keyword|?|?|?| |]; try done;
    [|apply parseLet_statement].
  destruct (String.eqb keyword "PRINT"); [apply parsePrint_statement|].
  destruct (String.eqb keyword "LET"); [apply parseLet_statement|].
  destruct (String.eqb keyword "INPUT"); [apply parseInput_statement|].
  destruct (String.eqb keyword "IF"); [by apply parseIf_with_statement|].
  destruct (String.eqb keyword "GOTO"); [apply parseGoto_statement|].
  destruct (String.eqb keyword "FOR"); [apply parseFor_statement|].
  destruct (String.eqb keyword "NEXT"); [apply parseNext_statement|].
  destruct (String.eqb keyword "REM"); [apply parseRem_statement|].
  destruct (String.eqb keyword "END"); [intros ?; by eapply Hword|].
  destruct (String.eqb keyword "LIST"); [apply parseList_statement|].
  destruct (String.eqb keyword "RUN"); [intros ?; by eapply Hword|].
  destruct (String.eqb keyword "NEW"); [intros ?; by eapply Hword|].
  destruct (String.eqb keyword "HOME"); [intros ?; by eapply Hword|].
  done.
Qed.

Lemma parse_is_line tokens nd : parse tokens = Normal nd → is_line nd = true.
Proof.
  unfold parse. destruct tokens as [|t rest]; [done|].
  cbn [isAtEnd mbind completion_bind]. destruct (at_end t); [by intros [= <-]|].
  destruct (type t) as [lineNumber|?|?|?|?|?| |].
  1: { unfold mbind, completion_bind.
       destruct (advance (t :: rest)) as [ts1| |]; [|done|done].
       destruct (parseStatement _ ts1) as [[s ?]| |] eqn:Hs; [|done|done].
       intros [= <-]. cbn. by eapply parseStatement_statement. }
  all: unfold mbind, completion_bind.
  all: destruct (parseStatement _ (t :: rest)) as [[s ?]| |] eqn:Hs;
         [|done|done].
  all: intros [= <-]; apply parseStatement_statement in Hs.
  all: by destruct s.
Qed.

End parsed_nodes.

(** ** The errors of statements *)

Section statement_errors.
Import JS BasicInterpreter InterpreterSpec SessionSpec ListingSpec SyntaxSpec
  ErrorSpec.
Context `{Runtime}.





End statement_errors.

(** ** Sessions *)

Section sessions.
Import JS BasicInterpreter InterpreterSpec SessionSpec ListingSpec SyntaxSpec
  ErrorSpec.
Context `{Runtime}.


(** X1.  Executing a statement, a RUN of the whole program included,
    never adds a line to the program store nor changes one: the store
    is afterwards the one it was, or the empty one (after NEW). *)
Theorem statement_keeps_or_empties_store (fuel : nat) (nd : node)
    (st : state) :
  program (executeNode fuel nd st).1 = program st
  ∨ program (executeNode fuel nd st).1 = ∅.
Proof. apply executeNode_proceeds. Qed.

(** X2.  Whatever lines are fed to the interpreter, the calls already
    made to the callbacks stay in the trace, in their order; the lines
    waiting at the input prompt are only consumed from the front, and
    the callbacks stay registered as they were. *)
Theorem session_only_appends_output (fuel : nat) (lines : list string)
    (st : state) :
  let st' := (session fuel lines st).1 in
  trace st `prefix_of` trace st'
  ∧ typed st' `suffix_of` typed st
  ∧ outputCallback st' = outputCallback st
  ∧ outputLineCallback st' = outputLineCallback st
  ∧ inputCallback st' = inputCallback st
  ∧ clearCallback st' = clearCallback st.
Proof.
  set (P := λ st' : state,
         trace st `prefix_of` trace st'
         ∧ typed st' `suffix_of` typed st
         ∧ outputCallback st' = outputCallback st
         ∧ outputLineCallback st' = outputLineCallback st
         ∧ inputCallback st' = inputCallback st
         ∧ clearCallback st' = clearCallback st).
  assert (∀ st0 st1, P st0 → proceeds st0 st1 → P st1) as Hstep.
  { intros st0 st1 (Ht & Hi & Ha & Hb & Hc & Hd) Hp. repeat split.
    - etrans; [exact Ht|apply (proceeds_trace _ _ Hp)].
    - etrans; [apply (proceeds_typed _ _ Hp)|exact Hi].
    - by rewrite (proceeds_output _ _ Hp).
    - by rewrite (proceeds_outputLine _ _ Hp).
    - by rewrite (proceeds_input _ _ Hp).
    - by rewrite (proceeds_clear _ _ Hp). }
  apply (session_invariant P); [|by repeat split].
  intros line st0 Hst0. apply (executeImmediate_invariant P); [| | |done].
  - intros text st1 Hst1. eapply Hstep; [exact Hst1|apply proceeds_print].
  - intros nd st1 Hst1. eapply Hstep; [exact Hst1|apply executeNode_proceeds].
  - intros tokens n s _ _. unfold storeLine. by repeat case_match.
Qed.

(** X3.  Every frame of the loop stack names a bound variable, and
    this survives whatever is typed: NEXT always finds a current value
    for the variable of the frame it steps. *)
Theorem loop_variables_stay_bound (fuel : nat) (lines : list string)
    (st : state) :
  loops_bound st → loops_bound (session fuel lines st).1.
Proof.
  apply (session_invariant loops_bound).
  intros line st0. apply executeImmediate_loops_bound.
Qed.

(** X4.  Every line of the store sits under the key of its own number
    and holds the text that was typed together with the statement this
    very text parses to; this survives whatever is typed. *)
Theorem store_holds_lines_as_typed (fuel : nat) (lines : list string)
    (st : state) :
  stored_as_typed st → stored_as_typed (session fuel lines st).1.
Proof.
  apply (session_invariant stored_as_typed).
  intros line st0. apply executeImmediate_stored_as_typed.
Qed.

(** X5.  Evaluation is repeatable.  Once an expression has completed,
    by a value or by an error, evaluating it again completes the same
    way and binds no further name, also after other unbound names have
    sprung into existence meanwhile. *)
Theorem evaluation_is_repeatable (nd : node)
    (vars vars1 vars2 : gmap string value) (c : completion value) :
  evaluate nd vars = (vars1, c) → vivified vars1 vars2 →
  evaluate nd vars2 = (vars2, c).
Proof.
  revert vars vars1 c vars2.
  induction nd; intros vars vars1 c vars2; cbn [evaluate];
    try (by intros [= <- <-]).
  - cbv zeta.
    set (vars' := match vars !! name with Some _ => vars | None => _ end).
    intros [= <- <-] Hv.
    assert (is_Some (vars' !! name)) as [v Hname].
    { subst vars'. destruct (vars !! name) eqn:Hold; [by eexists|].
      rewrite lookup_insert_eq. by eexists. }
    destruct (Hv name) as [Heq|[Hnone _]]; [|congruence].
    rewrite Heq, Hname. cbn. by rewrite Heq, Hname.
  - destruct (evaluate nd1 vars) as [varsl cl] eqn:Hl.
    pose proof (evaluate_vivified nd1 vars) as Hvl. rewrite Hl in Hvl.
    cbn [fst] in Hvl.
    destruct cl as [lv| |].
    + destruct (evaluate nd2 varsl) as [varsr cr] eqn:Hr.
      pose proof (evaluate_vivified nd2 varsl) as Hvr. rewrite Hr in Hvr.
      cbn [fst] in Hvr.
      destruct cr as [rv| |].
      * intros [= <- <-] Hv.
        rewrite (IHnd1 _ _ _ vars2 Hl)
          by (eapply vivified_trans; [exact Hvr|exact Hv]).
        by rewrite (IHnd2 _ _ _ vars2 Hr Hv).
      * intros [= <- <-] Hv.
        rewrite (IHnd1 _ _ _ vars2 Hl)
          by (eapply vivified_trans; [exact Hvr|exact Hv]).
        by rewrite (IHnd2 _ _ _ vars2 Hr Hv).
      * intros [= <- <-] Hv.
        rewrite (IHnd1 _ _ _ vars2 Hl)
          by (eapply vivified_trans; [exact Hvr|exact Hv]).
        by rewrite (IHnd2 _ _ _ vars2 Hr Hv).
    + intros [= <- <-] Hv. by rewrite (IHnd1 _ _ _ vars2 Hl Hv).
    + intros [= <- <-] Hv. by rewrite (IHnd1 _ _ _ vars2 Hl Hv).
  - destruct (evaluate nd vars) as [varso co] eqn:Ho.
    destruct co as [v| |]; intros [= <- <-] Hv;
      by rewrite (IHnd _ _ _ vars2 Ho Hv).
Qed.

(** X6.  An expression built from numbers, strings, variables, unary
    minus and the ten binary operators never fails to evaluate for any
    other reason than a division by zero. *)
Theorem expression_raises_only_division_by_zero (nd : node)
    (vars vars1 : gmap string value) (message : string) :
  is_expression nd = true →
  evaluate nd vars = (vars1, Thrown message) →
  message = "?DIVISION BY ZERO ERROR".
Proof. intros Hnd. by apply evaluate_expression_thrown. Qed.



(** X9.  A numbered line whose statement is not REM is stored under
    its number with the text typed and the statement parsed, replacing
    what was stored there; no other line, no variable, no loop and no
    output is touched. *)
Theorem numbered_line_is_stored (fuel : nat) (line : string)
    (tokens : list token) (lineNumber : number) (statement : node)
    (st : state) :
  tokenize line = Normal tokens →
  parse tokens = Normal (PROGRAM_LINE lineNumber statement) →
  statement ≠ REM →
  let st' := (executeImmediate fuel line st).1 in
  (executeImmediate fuel line st).2 = Normal ()
  ∧ program st' !! Map_key lineNumber
    = Some {| source := line; ast := statement |}
  ∧ (∀ key, key ≠ Map_key lineNumber →
       program st' !! key = program st !! key)
  ∧ variables st' = variables st
  ∧ forStack st' = forStack st
  ∧ trace st' = trace st.
Proof.
  intros Htok Hparse Hrem.
  rewrite (executeImmediate_program_line _ _ _ _ _ _ Htok Hparse).
  apply parse_is_line in Hparse. cbn [is_line] in Hparse.
  assert (storeLine lineNumber line statement st
          = set_program
              (<[Map_key lineNumber := {| source := line; ast := statement |}]>
                 (program st)) st) as ->.
  { by destruct statement. }
  cbn. repeat split; [by rewrite lookup_insert_eq|].
  intros key Hkey. by rewrite lookup_insert_ne.
Qed.

(** X10.  After LET the variable reads as the value the expression
    had, whatever the name and the value are (a string may be bound to
    a name without a dollar sign); the store, the loops and the output
    are not touched. *)
Theorem assigned_value_is_read_back (fuel : nat) (name : string) (e : node)
    (st st' : state) :
  executeNode fuel (LET name e) st = (st', Normal ()) →
  ∃ vars v,
    evaluate e (variables st) = (vars, Normal v)
    ∧ variables st' = <[name := v]> vars
    ∧ evaluate (VARIABLE name) (variables st') = (variables st', Normal v)
    ∧ program st' = program st
    ∧ forStack st' = forStack st
    ∧ trace st' = trace st.
Proof.
  intros Hexec.
  assert (executeLet name e st = (st', Normal ())) as Hlet by by destruct fuel.
  unfold executeLet in Hlet.
  destruct (evaluate e (variables st)) as [vars [v| |]]; [|done|done].
  injection Hlet as <-. exists vars, v. repeat split.
  cbn [evaluate variables set_variables]. by rewrite !lookup_insert_eq.
Qed.

(** X11.  A loop whose step is a zero or not a number is left by the
    first NEXT that reaches it: the frame is popped and the variable
    keeps its value. *)
Theorem next_with_zero_step_leaves_loop (v : option string) (st : state)
    (loop : frame) (below : list frame) (step : number) :
  forStack st = loop :: below → names_other_variable v loop = false →
  stepValue loop = VNum step → is_zero step = true ∨ is_nan step = true →
  executeNext v st = (set_forStack below st, Normal ()).
Proof.
  intros Hstack Hname Hstep Hzero. unfold executeNext.
  rewrite Hstack, Hname, Hstep.
  assert (less_than (VNum (of_Z 0)) (VNum step) = false) as ->.
  { by destruct Hzero, step as [[]|[]| |]. }
  assert (less_than (VNum step) (VNum (of_Z 0)) = false) as ->.
  { by destruct Hzero, step as [[]|[]| |]. }
  done.
Qed.

End sessions.

(** ** What stops a RUN *)

Section run_errors.
Import JS BasicInterpreter InterpreterSpec SessionSpec ListingSpec SyntaxSpec
  ErrorSpec.
Context `{Runtime}.



End run_errors.

(** ** The tokens of a line *)

Section tokens.
Import JS BasicTokenizer InterpreterSpec TokenSpec.
Context `{Runtime}.

Lemma length_append (s1 s2 : string) :
  String.length (s1 ++ s2) = (String.length s1 + String.length s2)%nat.
Proof.
  induction s1 as [|c s1 IH]; [done|]. rewrite append_cons. cbn. by rewrite IH.
Qed.

Lemma readNumber_loop_split (s : string) : ∀ d,
  s = (readNumber_loop s d).1.1 ++ (readNumber_loop s d).2.
Proof.
  induction s as [|c s IH]; intros d; [done|]. cbn [readNumber_loop].
  destruct (is_digit c).
  - specialize (IH d). destruct (readNumber_loop s d) as [[??]?].
    cbn in *. by rewrite append_cons, <-IH.
  - destruct (Ascii.eqb c "." && negb d); [|done].
    specialize (IH true). destruct (readNumber_loop s true) as [[??]?].
    cbn in *. by rewrite append_cons, <-IH.
Qed.

Lemma readString_split (s : string) :
  ∃ pre, s = pre ++ (readString s).2
         ∧ all_chars (λ c, negb (Ascii.eqb c double_quote)) (readString s).1
           = true.
Proof.
  induction s as [|c s IH].
  - by exists EmptyString.
  - cbn [readString]. destruct (Ascii.eqb c double_quote) eqn:Hc.
    + by exists (String c EmptyString).
    + destruct IH as (pre & Hpre & Hall). destruct (readString s). cbn in *.
      exists (String c pre). rewrite append_cons, <-Hpre. by rewrite Hc.
Qed.

Lemma readWord_split (s : string) :
  s = (readWord s).1 ++ (readWord s).2
  ∧ all_chars is_word_char (readWord s).1 = true.
Proof.
  induction s as [|c s IH]; [done|]. cbn [readWord].
  destruct (is_word_char c) eqn:Hc; [|done].
  destruct IH as [Hs Hall]. destruct (readWord s). cbn in *.
  by rewrite append_cons, <-Hs, Hc.
Qed.

Lemma readOperator_split (s : string) value rest width :
  readOperator s = Some (value, rest, width) →
  s = value ++ rest ∧ includes OPERATORS value = true
  ∧ (width = String.length value
     ∨ rest = EmptyString ∧ width = S (String.length value)).
Proof.
  unfold readOperator.
  assert (s = (take2 s).1 ++ (take2 s).2) as Htake.
  { by destruct s as [|a [|b s]]. }
  assert (String.length (take2 s).1 = 2%nat
          ∨ (take2 s).2 = EmptyString ∧ String.length (take2 s).1 = 1%nat
          ∨ includes OPERATORS (take2 s).1 = false) as Hlen.
  { destruct s as [|a [|b s]]; [by right; right|by right; left|by left]. }
  destruct (take2 s) as [twoChar rest2]. cbn [fst snd] in *.
  destruct (includes OPERATORS twoChar) eqn:Htwo.
  - intros [= <- <- <-]. split; [done|]. split; [done|].
    destruct Hlen as [->|[[-> ->]|?]]; [by left|by right|done].
  - destruct s as [|c s]; [done|].
    destruct (includes OPERATORS (String c "")) eqn:Hone; [|done].
    intros [= <- <- <-]. split; [done|]. split; [done|]. by left.
Qed.

Lemma upper_char_upper (c : ascii) :
  is_letter c = true → is_upper (upper_char c) = true.
Proof. by destruct c as [[] [] [] [] [] [] [] []]. Qed.

Lemma upper_char_word (c : ascii) :
  is_word_char c = true →
  is_upper (upper_char c) || is_digit (upper_char c)
  || Ascii.eqb (upper_char c) "$" = true.
Proof. by destruct c as [[] [] [] [] [] [] [] []]. Qed.

Lemma upper_char_idemp (c : ascii) : upper_char (upper_char c) = upper_char c.
Proof. by destruct c as [[] [] [] [] [] [] [] []]. Qed.

Lemma toUpperCase_idemp (s : string) :
  toUpperCase (toUpperCase s) = toUpperCase s.
Proof.
  induction s as [|c s IH]; [done|]. cbn. by rewrite upper_char_idemp, IH.
Qed.

Lemma toUpperCase_word (s : string) :
  all_chars is_word_char s = true →
  all_chars (λ c, is_upper c || is_digit c || Ascii.eqb c "$"%char)
    (toUpperCase s) = true.
Proof.
  induction s as [|c s IH]; [done|]. cbn.
  intros [Hc Hs]%andb_true_iff. by rewrite (upper_char_word c Hc), IH.
Qed.

(** The loop of the tokenizer, read off its branches: the end of the
    text, a blank, a token that takes a non-empty part of the text, or
    a character that starts no token. *)
Lemma tokenize_loop_cases (P : string → nat → completion (list token) → Prop) :
  (∀ pos, P EmptyString pos (Normal [createToken EOL pos])) →
  (∀ c s pos r,
     is_whitespace c = true → P s (pos + 1)%nat r → P (String c s) pos r) →
  (∀ c pre rest pos endPos t r,
     well_classified t = true → is_whitespace c = false →
     endPos = (pos + String.length (String c pre))%nat
     ∨ rest = EmptyString
       ∧ endPos = S (pos + String.length (String c pre)) →
     P rest endPos r →
     P (String c pre ++ rest) pos
       (match r with
        | Normal tokens => Normal (createToken t pos :: tokens)
        | Thrown message => Thrown message
        | Never why => Never why
        end)) →
  (∀ c s pos,
     unknown_character c = true →
     P (String c s) pos (Thrown (unknown_character_message c pos))) →
  ∀ fuel s pos,
    (String.length s ≤ fuel)%nat → P s pos (tokenize_loop fuel s pos).
Proof.
  intros Hend Hblank Htoken Hunknown.
  induction fuel as [|fuel IH]; intros [|c s] pos Hlen; try apply Hend.
  { cbn in Hlen. lia. }
  cbn [String.length] in Hlen. cbn [tokenize_loop].
  assert (∀ t pre rest endPos,
    String c s = String c pre ++ rest → well_classified t = true →
    is_whitespace c = false →
    endPos = (pos + String.length (String c pre))%nat
    ∨ rest = EmptyString ∧ endPos = S (pos + String.length (String c pre)) →
    P (String c s) pos
      (match tokenize_loop fuel rest endPos with
       | Normal tokens => Normal (createToken t pos :: tokens)
       | other => other
       end)) as Hnext.
  { intros t pre rest endPos Hsplit Ht Hc HendPos.
    assert (String.length (String c s)
            = String.length (String c pre) + String.length rest)%nat as Hl.
    { by rewrite Hsplit at 1; rewrite length_append. }
    rewrite Hsplit. apply (Htoken _ _ _ _ endPos); [done|done|done|].
    apply IH. cbn [String.length] in Hl. lia. }
  assert (∀ t pre rest,
    String c s = String c pre ++ rest → well_classified t = true →
    is_whitespace c = false →
    P (String c s) pos
      (match tokenize_loop fuel rest
               (pos + (String.length (String c s) - String.length rest)) with
       | Normal tokens => Normal (createToken t pos :: tokens)
       | other => other
       end)) as Hcontinue.
  { intros t pre rest Hsplit Ht Hc. apply (Hnext _ pre); [done|done|done|].
    left. rewrite Hsplit at 1. rewrite length_append. lia. }
  destruct (is_whitespace c) eqn:Hspace.
  { apply Hblank; [done|]. apply IH. lia. }
  destruct (is_digit c) eqn:Hdigit.
  { unfold readNumber. pose proof (readNumber_loop_split (String c s) false)
      as Hsplit. revert Hsplit. cbn [readNumber_loop]. rewrite Hdigit.
    destruct (readNumber_loop s false) as [[numStr d] rest]. cbn [fst snd].
    intros Hsplit. by apply (Hcontinue _ numStr). }
  destruct (Ascii.eqb c double_quote) eqn:Hquote.
  { destruct (readString_split s) as (pre & Hsplit & Hall).
    destruct (readString s) as [value rest]. cbn [fst snd] in *.
    apply (Hcontinue _ pre); [by rewrite append_cons, <-Hsplit|done|done]. }
  destruct (is_letter c) eqn:Hletter.
  { assert (is_word_char c = true) as Hword
      by (unfold is_word_char; by rewrite Hletter).
    pose proof (readWord_split (String c s)) as Hsplit. revert Hsplit.
    cbn [readWord]. rewrite Hword.
    destruct (readWord s) as [value rest]. cbn [fst snd]. intros [Hsplit Hall].
    destruct (isKeyword _) eqn:Hkeyword.
    - apply (Hcontinue _ value); [done| |done].
      unfold isKeyword in Hkeyword. by rewrite toUpperCase_idemp in Hkeyword.
    - apply (Hcontinue _ value); [done| |done].
      unfold isKeyword in Hkeyword. rewrite toUpperCase_idemp in Hkeyword.
      cbn [well_classified]. rewrite Hkeyword. cbn [negb andb toUpperCase].
      rewrite (upper_char_upper c Hletter). cbn [andb].
      by apply (toUpperCase_word (String c value)). }
  destruct (readOperator (String c s)) as [[[value rest] width]|] eqn:Hop.
  { apply readOperator_split in Hop as (Hsplit & Hvalue & Hwidth).
    destruct value as [|c' value]; [done|].
    rewrite append_cons in Hsplit. injection Hsplit as <- Hs.
    apply (Hnext _ value); [by rewrite append_cons, <-Hs|done|done|].
    destruct Hwidth as [->|[-> ->]]; [by left|right]. split; [done|lia]. }
  destruct (includes PUNCTUATION_CHARS (String c "")) eqn:Hpunct.
  { replace (pos + 1)%nat
      with (pos + (String.length (String c s) - String.length s))%nat
      by (cbn [String.length]; lia).
    by apply (Hcontinue _ EmptyString). }
  apply Hunknown. unfold unknown_character.
  rewrite Hspace, Hdigit, Hquote, Hletter, Hpunct. cbn [orb].
  assert (includes OPERATORS (String c "") = false) as ->; [|done].
  revert Hop. unfold readOperator.
  destruct (take2 (String c s)) as [twoChar rest2].
  destruct (includes OPERATORS twoChar); [done|].
  by destruct (includes OPERATORS (String c "")).
Qed.

End tokens.

Section token_theorems.
Import JS BasicTokenizer BasicParser InterpreterSpec TokenSpec.
Context `{Runtime}.

Lemma ascending_cons (pos : nat) (l : list nat) :
  Forall (λ p, pos < p)%nat l → ascending l = true →
  ascending (pos :: l) = true.
Proof.
  destruct l as [|b l]; [done|]. intros [Hb _]%Forall_cons Hl.
  change (ascending (pos :: b :: l))
    with ((pos <? b)%nat && ascending (b :: l)).
  rewrite Hl. by apply Nat.ltb_lt in Hb as ->.
Qed.

(** X12.  The tokens of a line are tokens of the line's text followed
    by one EOL token, and there is no other EOL and no EOF among them;
    their positions increase strictly.  The EOL token sits at the
    length of the trimmed line, or one further when the line ends with
    a one-character operator. *)
Theorem tokens_end_with_one_EOL (line : string) (tokens : list token) :
  tokenize line = Normal tokens →
  ∃ body eol,
    tokens = (body ++ [createToken EOL eol])%list
    ∧ Forall (λ t, at_end t = false) body
    ∧ ascending (position <$> tokens) = true
    ∧ (String.length (trim line) ≤ eol ≤ S (String.length (trim line)))%nat.
Proof.
  set (P := λ (s : string) (pos : nat) (r : completion (list token)),
         ∀ tokens, r = Normal tokens →
           ∃ body eol,
             tokens = (body ++ [createToken EOL eol])%list
             ∧ Forall (λ t, at_end t = false) body
             ∧ ascending (position <$> tokens) = true
             ∧ Forall (λ p, pos ≤ p)%nat (position <$> tokens)
             ∧ (s = EmptyString → eol = pos)
             ∧ (pos + String.length s ≤ eol ≤ S (pos + String.length s))%nat).
  assert (∀ fuel s pos, (String.length s ≤ fuel)%nat →
            P s pos (tokenize_loop fuel s pos)) as Hloop.
  { apply tokenize_loop_cases; subst P; cbn beta.
    - intros pos tokens0 [= <-]. exists [], pos. cbn.
      repeat split; [done|by repeat constructor|lia|lia].
    - intros c s pos r _ IH tokens0 Hr.
      destruct (IH tokens0 Hr) as (body & eol & -> & Hbody & Hasc & Hpos & _ & Hb).
      exists body, eol. repeat split; try done.
      + eapply Forall_impl; [exact Hpos|]. cbn. lia.
      + cbn [String.length]. lia.
      + cbn [String.length]. lia.
    - intros c pre rest pos endPos t r Ht _ HendPos IH tokens0 Hr.
      destruct r as [tokens1| |]; [|done|done]. injection Hr as <-.
      destruct (IH tokens1 eq_refl)
        as (body & eol & -> & Hbody & Hasc & Hpos & Hempty & Hb).
      exists (createToken t pos :: body), eol.
      assert (pos < endPos)%nat as Hlt.
      { cbn [String.length] in HendPos. destruct HendPos as [->|[_ ->]]; lia. }
      repeat split.
      + constructor; [by destruct t|done].
      + rewrite fmap_cons. apply ascending_cons; [|done].
        eapply Forall_impl; [exact Hpos|]. cbn. lia.
      + rewrite fmap_cons. constructor; [done|].
        eapply Forall_impl; [exact Hpos|]. cbn. lia.
      + by rewrite append_cons.
      + rewrite length_append. destruct HendPos as [->|[-> ->]]; [lia|].
        rewrite (Hempty eq_refl). cbn. lia.
      + rewrite length_append. destruct HendPos as [->|[-> ->]]; [lia|].
        rewrite (Hempty eq_refl). cbn. lia.
    - done. }
  intros Htok. unfold tokenize in Htok.
  destruct (Hloop _ (trim line) 0%nat (reflexivity _) tokens Htok)
    as (body & eol & -> & Hbody & Hasc & _ & _ & Hb).
  by exists body, eol.
Qed.

(** X13.  Every token but the closing EOL is well classified: a
    keyword is one of the keywords, in upper case; an identifier is no
    keyword, starts with a letter and holds upper-case letters, digits
    and dollar signs only, however the word was typed; an operator or
    a punctuation sign is one of the lists; a string literal holds no
    double quote. *)
Theorem tokens_are_well_classified (line : string) (tokens : list token) :
  tokenize line = Normal tokens →
  Forall (λ t, type t = EOL ∨ well_classified (type t) = true) tokens.
Proof.
  set (P := λ (s : string) (pos : nat) (r : completion (list token)),
         ∀ tokens, r = Normal tokens →
           Forall (λ t, type t = EOL ∨ well_classified (type t) = true)
             tokens).
  assert (∀ fuel s pos, (String.length s ≤ fuel)%nat →
            P s pos (tokenize_loop fuel s pos)) as Hloop.
  { apply tokenize_loop_cases; subst P; cbn beta.
    - intros pos tokens0 [= <-]. repeat constructor.
    - done.
    - intros c pre rest pos endPos t r Ht _ _ IH tokens0 Hr.
      destruct r as [tokens1| |]; [|done|done]. injection Hr as <-.
      constructor; [by right|by apply IH].
    - done. }
  intros Htok. by eapply Hloop.
Qed.

(** X14.  The tokenizer fails on one kind of input only: a character
    that is no blank, digit, double quote, letter, operator or
    punctuation sign, met outside string literals.  The message names
    that character and its index in the trimmed line. *)
Theorem tokenize_fails_on_unknown_character (line message : string) :
  tokenize line = Thrown message →
  ∃ c pos,
    message = unknown_character_message c pos
    ∧ String.get pos (trim line) = Some c
    ∧ unknown_character c = true.
Proof.
  set (P := λ (s : string) (pos : nat) (r : completion (list token)),
         ∀ m, r = Thrown m →
           ∃ pre c post,
             s = pre ++ String c post ∧ unknown_character c = true
             ∧ m = unknown_character_message c (pos + String.length pre)).
  assert (∀ fuel s pos, (String.length s ≤ fuel)%nat →
            P s pos (tokenize_loop fuel s pos)) as Hloop.
  { apply tokenize_loop_cases; subst P; cbn beta.
    - done.
    - intros c s pos r _ IH m Hr.
      destruct (IH m Hr) as (pre & c' & post & -> & Hc' & ->).
      exists (String c pre), c', post. repeat split; [done|].
      cbn [String.length]. f_equal. lia.
    - intros c pre rest pos endPos t r _ _ HendPos IH m Hr.
      destruct r as [|m'|]; [done| |done]. injection Hr as <-.
      destruct (IH m' eq_refl) as (pre' & c' & post & -> & Hc' & ->).
      exists (String c pre ++ pre'), c', post.
      rewrite append_assoc. repeat split; [done|].
      destruct HendPos as [->|[Hrest _]]; [|by destruct pre'].
      rewrite length_append. f_equal. lia.
    - intros c s pos Hc m [= <-]. exists EmptyString, c, s.
      repeat split; [done|]. cbn [String.length]. f_equal. lia. }
  intros Htok. unfold tokenize in Htok.
  destruct (Hloop _ (trim line) 0%nat (reflexivity _) message Htok)
    as (pre & c & post & Hline & Hc & ->).
  exists c, (String.length pre). repeat split; [|done].
  rewrite Hline.
  pose proof (append_correct2 pre (String c post) 0) as Hget.
  rewrite Nat.add_0_l in Hget. by rewrite <-Hget.
Qed.

Lemma trim_start_blanks (ws s : string) :
  all_chars is_whitespace ws = true → trim_start (ws ++ s) = trim_start s.
Proof.
  induction ws as [|c ws IH]; [done|]. cbn [all_chars].
  intros [Hc Hws]%andb_true_iff. rewrite append_cons. cbn [trim_start].
  rewrite Hc. by apply IH.
Qed.

Lemma trim_start_append (s ws : string) :
  trim_start s ≠ EmptyString → trim_start (s ++ ws) = trim_start s ++ ws.
Proof.
  induction s as [|c s IH]; [done|]. rewrite append_cons. cbn [trim_start].
  destruct (is_whitespace c); [apply IH|by rewrite append_cons].
Qed.

Lemma trim_start_all_blank (s : string) :
  trim_start s = EmptyString → all_chars is_whitespace s = true.
Proof.
  induction s as [|c s IH]; [done|]. cbn.
  destruct (is_whitespace c); [apply IH|done].
Qed.

Lemma all_chars_append p (s1 s2 : string) :
  all_chars p (s1 ++ s2) = all_chars p s1 && all_chars p s2.
Proof.
  induction s1 as [|c s1 IH]; [done|]. rewrite append_cons. cbn.
  rewrite IH. by rewrite andb_assoc.
Qed.

Lemma all_chars_rev p (s : string) :
  all_chars p (String.rev s) = all_chars p s.
Proof.
  unfold String.rev. rewrite all_chars_rev_app. cbn. apply andb_true_r.
Qed.

Lemma trim_blanks (ws1 ws2 line : string) :
  all_chars is_whitespace ws1 = true → all_chars is_whitespace ws2 = true →
  trim (ws1 ++ line ++ ws2) = trim line.
Proof.
  intros H1 H2. unfold trim. rewrite (trim_start_blanks ws1 _ H1).
  destruct (trim_start line) as [|c s] eqn:Hline.
  - apply trim_start_all_blank in Hline.
    rewrite <-(append_empty_r (line ++ ws2)), trim_start_blanks; [done|].
    by rewrite all_chars_append, Hline, H2.
  - rewrite trim_start_append by by rewrite Hline.
    rewrite Hline, rev_append, trim_start_blanks; [done|].
    by rewrite all_chars_rev.
Qed.

(** X15.  Blanks before and after a line are ignored: the tokens, and
    their positions, are those of the line without them. *)
Theorem surrounding_blanks_are_ignored (ws1 ws2 line : string) :
  all_chars is_whitespace ws1 = true → all_chars is_whitespace ws2 = true →
  tokenize (ws1 ++ line ++ ws2) = tokenize line.
Proof. intros H1 H2. unfold tokenize. by rewrite trim_blanks. Qed.

End token_theorems.

(** ** The parser stays within the line *)

Section bounds.
Import JS BasicParser ParserSpec BoundsSpec.
Context `{Runtime}.

Lemma closed_cons t ts : closed (t :: ts) → at_end t = false → closed ts.
Proof.
  intros (body & t' & Hts & Hend) Ht. destruct body as [|b body].
  - injection Hts as -> ->. congruence.
  - injection Hts as -> ->. by exists body, t'.
Qed.

Lemma closed_not_nil : ¬ closed [].
Proof. intros (body & t & Hts & _). by destruct body. Qed.

Lemma advance_closed ts :
  closed ts → ∃ ts', advance ts = Normal ts' ∧ closed ts'.
Proof.
  intros Hts. destruct ts as [|t rest]; [by apply closed_not_nil in Hts|].
  cbn [advance]. eexists. split; [done|].
  destruct (at_end t) eqn:Hend; [done|by eapply closed_cons].
Qed.

Lemma check_closed type_ value ts :
  closed ts → ∃ b, check type_ value ts = Normal b.
Proof.
  intros Hts. destruct ts as [|t rest]; [by apply closed_not_nil in Hts|].
  by eexists.
Qed.

Lemma isAtEnd_closed ts : closed ts → ∃ b, isAtEnd ts = Normal b.
Proof.
  intros Hts. destruct ts as [|t rest]; [by apply closed_not_nil in Hts|].
  by eexists.
Qed.

Lemma expect_in_bounds type_ value ts :
  closed ts → in_bounds (expect type_ value ts).
Proof.
  intros Hts. unfold expect.
  destruct (check_closed type_ value ts Hts) as [b ->].
  cbn [mbind completion_bind].
  destruct ts as [|t rest]; [by apply closed_not_nil in Hts|].
  destruct b; [|by cbn].
  destruct (advance_closed _ Hts) as (ts' & -> & Hts'). by cbn.
Qed.

Lemma binary_loop_in_bounds ops (operand : parser node) (n : nat) :
  (∀ ts, closed ts → in_bounds (operand ts)) →
  ∀ lhs ts, closed ts → in_bounds (binary_loop ops operand n lhs ts).
Proof.
  intros Hoperand. induction n as [|n IH]; intros lhs ts Hts;
    (destruct ts as [|t rest]; [by apply closed_not_nil in Hts|]);
    cbn [binary_loop].
  - destruct (type t) as [?|?|?|?|op|?| |]; try done.
    by destruct (includes ops op).
  - destruct (type t) as [?|?|?|?|op|?| |]; try done.
    destruct (includes ops op); [|done].
    destruct (advance_closed _ Hts) as (ts1 & -> & Hts1).
    cbn [mbind completion_bind].
    pose proof (Hoperand ts1 Hts1) as Hrhs.
    destruct (operand ts1) as [[rhs ts2]| |]; cbn [mbind completion_bind];
      [|done|done].
    by apply IH.
Qed.

Lemma binary_level_in_bounds ops (operand : parser node) ts :
  (∀ ts, closed ts → in_bounds (operand ts)) → closed ts →
  in_bounds
    ('(lhs, ts1) ← operand ts; binary_loop ops operand (length ts1) lhs ts1).
Proof.
  intros Hoperand Hts. pose proof (Hoperand ts Hts) as Hlhs.
  destruct (operand ts) as [[lhs ts1]| |]; cbn [mbind completion_bind];
    [|done|done].
  by apply binary_loop_in_bounds.
Qed.

Lemma parseComparison_with_in_bounds (prim : parser node) :
  (∀ ts, closed ts → in_bounds (prim ts)) →
  ∀ ts, closed ts → in_bounds (parseComparison_with prim ts).
Proof.
  intros Hprim ts Hts. apply binary_level_in_bounds; [|done].
  clear ts Hts. intros ts Hts. apply binary_level_in_bounds; [|done].
  clear ts Hts. intros ts Hts. by apply binary_level_in_bounds.
Qed.

Lemma parsePrimary_in_bounds (fuel : nat) : ∀ ts,
  closed ts → in_bounds (parsePrimary fuel ts).
Proof.
  induction fuel as [|fuel IH]; intros ts Hts; [done|].
  destruct ts as [|tok rest]; [by apply closed_not_nil in Hts|].
  cbn [parsePrimary].
  destruct (advance_closed _ Hts) as (ts1 & Hadvance & Hts1).
  destruct (check_closed "PUNCTUATION" (Some "(") _ Hts) as [paren Hparen].
  destruct (check_closed "OPERATOR" (Some "-") _ Hts) as [minus Hminus].
  rewrite Hadvance, Hparen, Hminus. cbn [mbind completion_bind].
  assert (in_bounds
            (if paren
             then '(expr, ts2) ← parseComparison_with (parsePrimary fuel) ts1;
                  '(_, ts3) ← expect "PUNCTUATION" (Some ")") ts2;
                  Normal (expr, ts3)
             else if minus
                  then '(operand, ts2) ← parsePrimary fuel ts1;
                       Normal (UNARY "-" operand, ts2)
                  else Thrown ("Unexpected token in expression: "
                               ++ type_name (type tok)
                               ++ " (" ++ token_text (type tok) ++ ")")))
    as Hother.
  { destruct paren.
    - pose proof (parseComparison_with_in_bounds (parsePrimary fuel) IH ts1 Hts1)
        as Hexpr.
      destruct (parseComparison_with (parsePrimary fuel) ts1)
        as [[expr ts2]| |]; cbn [mbind completion_bind]; [|done|done].
      pose proof (expect_in_bounds "PUNCTUATION" (Some ")") ts2 Hexpr)
        as Hclose.
      by destruct (expect "PUNCTUATION" (Some ")") ts2) as [[? ts3]| |].
    - destruct minus; [|by cbn].
      pose proof (IH ts1 Hts1) as Hoperand.
      by destruct (parsePrimary fuel ts1) as [[operand ts2]| |]. }
  by destruct (type tok).
Qed.

Lemma parseExpression_in_bounds ts :
  closed ts → in_bounds (parseExpression ts).
Proof.
  apply parseComparison_with_in_bounds. apply parsePrimary_in_bounds.
Qed.

(** One more call of the body is destructed, with what is known about
    its result. *)
Ltac bounds_step :=
  match goal with
  | F : closed [] |- _ => by apply closed_not_nil in F
  | F : closed ?x |- context [parseExpression ?x] =>
      let G := fresh "Hexpression" in
      pose proof (parseExpression_in_bounds x F) as G;
      destruct (parseExpression x) as [[? ?]|?|?]
  | F : closed ?x |- context [expect ?a ?b ?x] =>
      let G := fresh "Hexpect" in
      pose proof (expect_in_bounds a b x F) as G;
      destruct (expect a b x) as [[? ?]|?|?]
  | F : closed ?x |- context [check ?a ?b ?x] =>
      let b' := fresh "b" in
      let G := fresh "Hcheck" in
      destruct (check_closed a b x F) as [b' G]; rewrite G; destruct b'
  | F : closed ?x |- context [advance ?x] =>
      let ts' := fresh "ts" in
      let G := fresh "Hadvance" in
      let G' := fresh "Hclosed" in
      destruct (advance_closed x F) as (ts' & G & G'); rewrite G
  | F : closed ?x |- context [isAtEnd ?x] =>
      let b' := fresh "b" in
      let G := fresh "HatEnd" in
      destruct (isAtEnd_closed x F) as [b' G]; rewrite G; destruct b'
  | |- context [match ?l with [] => _ | _ :: _ => _ end] => destruct l
  | |- context [match type ?t with _ => _ end] => destruct (type t)
  end;
  cbn [mbind completion_bind in_bounds] in *; try done.

Ltac bounds_steps := repeat bounds_step.

Lemma parsePrint_loop_in_bounds (n : nat) : ∀ ts,
  closed ts → in_bounds (parsePrint_loop n ts).
Proof.
  induction n as [|n IH]; intros ts Hts; cbn [parsePrint_loop];
    destruct (isAtEnd_closed ts Hts) as [atEnd ->];
    cbn [mbind completion_bind]; (destruct atEnd; [done|]); [done|].
  pose proof (parseExpression_in_bounds ts Hts) as Hexpression.
  destruct (parseExpression ts) as [[expr ts1]| |];
    cbn [mbind completion_bind in_bounds] in *; [|done|done].
  destruct (check_closed "PUNCTUATION" (Some ";") ts1 Hexpression)
    as [semi ->].
  destruct (check_closed "PUNCTUATION" (Some ",") ts1 Hexpression)
    as [comma ->].
  destruct (advance_closed ts1 Hexpression) as (ts2 & -> & Hts2).
  cbn [mbind completion_bind]. pose proof (IH ts2 Hts2) as Hloop.
  destruct semi; [|destruct comma; [|done]];
    by destruct (parsePrint_loop n ts2) as [[[??]?]| |].
Qed.

Lemma parsePrint_in_bounds ts : closed ts → in_bounds (parsePrint ts).
Proof.
  intros Hts. unfold parsePrint. bounds_step.
  match goal with
  | F : closed ?l |- context [parsePrint_loop ?n ?l] =>
      pose proof (parsePrint_loop_in_bounds n l F) as Hloop;
      by destruct (parsePrint_loop n l) as [[[??]?]| |]
  end.
Qed.

Lemma parseLet_in_bounds ts : closed ts → in_bounds (parseLet ts).
Proof. intros Hts. unfold parseLet. bounds_steps. Qed.

Lemma parseInput_in_bounds ts : closed ts → in_bounds (parseInput ts).
Proof. intros Hts. unfold parseInput. bounds_steps. Qed.

Lemma parseGoto_in_bounds ts : closed ts → in_bounds (parseGoto ts).
Proof. intros Hts. unfold parseGoto. bounds_steps. Qed.

Lemma parseFor_in_bounds ts : closed ts → in_bounds (parseFor ts).
Proof. intros Hts. unfold parseFor. bounds_steps. Qed.

Lemma parseNext_in_bounds ts : closed ts → in_bounds (parseNext ts).
Proof. intros Hts. unfold parseNext. bounds_steps. Qed.

Lemma parseRem_in_bounds ts : closed ts → in_bounds (parseRem ts).
Proof. intros Hts. unfold parseRem. bounds_steps. Qed.

Lemma parseList_in_bounds ts : closed ts → in_bounds (parseList ts).
Proof. intros Hts. unfold parseList. bounds_steps. Qed.

Lemma parseIf_with_in_bounds (parseStatement : parser node) ts :
  (∀ ts1, closed ts1 → in_bounds (parseStatement ts1)) →
  closed ts → in_bounds (parseIf_with parseStatement ts).
Proof.
  intros Hstatement Hts. unfold parseIf_with.
  bounds_step. bounds_step. bounds_step.
  match goal with
  | F : closed ?l |- _ =>
      lazymatch goal with
      | |- context [parseStatement l] =>
          pose proof (Hstatement l F) as Hthen
      end
  end.
  bounds_step. bounds_step; try bounds_step;
    by destruct (parseStatement _) as [[??]| |].
Qed.

Lemma parseStatement_in_bounds (fuel : nat) : ∀ ts,
  closed ts → in_bounds (parseStatement fuel ts).
Proof.
  induction fuel as [|fuel IH]; intros ts Hts; [done|].
  destruct ts as [|tok rest]; [by apply closed_not_nil in Hts|].
  cbn [parseStatement].
  destruct (type tok) as [?|?|keyword|?|?|?| |]; try (by cbn).
  - repeat case_match;
      auto using parsePrint_in_bounds, parseLet_in_bounds,
        parseInput_in_bounds, parseGoto_in_bounds, parseFor_in_bounds,
        parseNext_in_bounds, parseRem_in_bounds, parseList_in_bounds,
        parseIf_with_in_bounds;
      try (by bounds_steps).
  - by apply parseLet_in_bounds.
Qed.

Lemma parse_in_bounds tokens :
  closed tokens → parse tokens ≠ Thrown TypeError_undefined.
Proof.
  intros Hts. unfold parse.
  destruct (isAtEnd_closed tokens Hts) as [atEnd ->].
  cbn [mbind completion_bind]. destruct atEnd; [done|].
  destruct tokens as [|t rest]; [by apply closed_not_nil in Hts|].
  destruct (advance_closed _ Hts) as (ts1 & Hadvance & Hts1).
  assert (∀ ts (k : node → node), closed ts →
            ('(statement, _) ← parseStatement (S (length (t :: rest))) ts;
             Normal (k statement)) ≠ Thrown TypeError_undefined) as Hstatement.
  { intros ts k Hclosed.
    pose proof (parseStatement_in_bounds (S (length (t :: rest))) ts Hclosed)
      as Hs.
    destruct (parseStatement _ ts) as [[??]| |]; cbn [mbind completion_bind];
      [done| |done].
    intros [= ->]. by apply Hs. }
  destruct (type t) as [lineNumber|?|?|?|?|?| |];
    try (by apply (Hstatement (t :: rest) (λ s, s))).
  rewrite Hadvance. cbn [mbind completion_bind]. by apply (Hstatement ts1).
Qed.

Lemma tokenize_closed line tokens :
  tokenize line = Normal tokens → closed tokens.
Proof.
  set (P := λ (s : string) (pos : nat) (r : completion (list token)),
         ∀ tokens, r = Normal tokens → closed tokens).
  assert (∀ fuel s pos, (String.length s ≤ fuel)%nat →
            P s pos (tokenize_loop fuel s pos)) as Hloop.
  { apply tokenize_loop_cases; subst P; cbn beta.
    - intros pos tokens0 [= <-]. by exists [], (createToken EOL pos).
    - done.
    - intros c pre rest pos endPos t r _ _ _ IH tokens0 Hr.
      destruct r as [tokens1| |]; [|done|done]. injection Hr as <-.
      destruct (IH tokens1 eq_refl) as (body & t' & -> & Hend).
      by exists (createToken t pos :: body), t'.
    - done. }
  intros Htok. by eapply Hloop.
Qed.

(** X25.  The parser never reads past the end of a line: the tokens
    of a line end with an end-of-line token, on which the parser
    stops, so that parsing them never fails for having read a token
    that is not there; a syntax error is always one of the parser's
    own messages. *)
Theorem parser_stays_within_the_line (line : string) (tokens : list token) :
  tokenize line = Normal tokens →
  closed tokens ∧ parse tokens ≠ Thrown TypeError_undefined.
Proof.
  intros Htok%tokenize_closed. split; [done|]. by apply parse_in_bounds.
Qed.

End bounds.

(** ** Operator levels and optional keywords *)

Section precedence.
Import JS BasicParser SyntaxSpec PrecedenceSpec.
Context `{Runtime}.

Lemma atom_not_at_end t nd : atom t = Some nd → at_end t = false.
Proof. unfold atom, at_end. by destruct (type t). Qed.

Lemma parsePrimary_atom fuel t rest nd :
  atom t = Some nd → parsePrimary (S fuel) (t :: rest) = Normal (nd, rest).
Proof.
  intros Ht. pose proof (atom_not_at_end _ _ Ht) as Hend. revert Ht.
  unfold atom. cbn [parsePrimary advance mbind completion_bind].
  rewrite Hend. by destruct (type t); intros [= <-].
Qed.

Lemma binary_loop_stop ops operand n lhs t rest :
  is_operator t = false →
  binary_loop ops operand n lhs (t :: rest) = Normal (lhs, t :: rest).
Proof.
  unfold is_operator. destruct n; cbn [binary_loop]; by destruct (type t).
Qed.

Lemma binary_loop_other ops operand n lhs op p rest :
  includes ops op = false →
  binary_loop ops operand n lhs (createToken (OPERATOR op) p :: rest)
  = Normal (lhs, createToken (OPERATOR op) p :: rest).
Proof. intros Hop. destruct n; cbn [binary_loop type]; by rewrite Hop. Qed.

Lemma binary_loop_step ops operand n lhs op p rest :
  includes ops op = true →
  binary_loop ops operand (S n) lhs (createToken (OPERATOR op) p :: rest)
  = ('(rhs, ts2) ← operand rest;
     binary_loop ops operand n (BINARY op lhs rhs) ts2).
Proof. intros Hop. cbn [binary_loop type]. by rewrite Hop. Qed.

(** X16.  Operator levels.  With [a], [b], [c] numbers, string
    literals or variables, and a token after them that is no operator:
    a multiplicative operator binds tighter than an additive one on
    either side, an additive one tighter than a comparison, and two
    operators of one level associate to the left. *)
Theorem operators_bind_by_level (a b c stop : token) (rest : list token)
    (na nb nc : node) (add add' mul mul' cmp : string) (p1 p2 : nat) :
  atom a = Some na → atom b = Some nb → atom c = Some nc →
  is_operator stop = false →
  add ∈ ADDITIVE → add' ∈ ADDITIVE →
  mul ∈ MULTIPLICATIVE → mul' ∈ MULTIPLICATIVE → cmp ∈ COMPARISON →
  let op (o : string) (p : nat) := createToken (OPERATOR o) p in
  let parsed (o1 o2 : string) :=
    parseExpression (a :: op o1 p1 :: b :: op o2 p2 :: c :: stop :: rest) in
  parsed add mul = Normal (BINARY add na (BINARY mul nb nc), stop :: rest)
  ∧ parsed mul add = Normal (BINARY add (BINARY mul na nb) nc, stop :: rest)
  ∧ parsed cmp add = Normal (BINARY cmp na (BINARY add nb nc), stop :: rest)
  ∧ parsed add cmp = Normal (BINARY cmp (BINARY add na nb) nc, stop :: rest)
  ∧ parsed add add'
    = Normal (BINARY add' (BINARY add na nb) nc, stop :: rest)
  ∧ parsed mul mul'
    = Normal (BINARY mul' (BINARY mul na nb) nc, stop :: rest).
Proof.
  intros Ha Hb Hc Hstop Hadd Hadd' Hmul Hmul' Hcmp op parsed.
  assert (∀ o, o ∈ ADDITIVE →
            includes ["*"; "/"] o = false ∧ includes ["+"; "-"] o = true
            ∧ includes ["="; "<>"; "<"; ">"; "<="; ">="] o = false) as Hlevel1.
  { intros o Ho. unfold ADDITIVE in Ho.
    repeat (apply elem_of_cons in Ho as [->|Ho]; [done|]).
    by apply elem_of_nil in Ho. }
  assert (∀ o, o ∈ MULTIPLICATIVE → includes ["*"; "/"] o = true) as Hlevel2.
  { intros o Ho. unfold MULTIPLICATIVE in Ho.
    repeat (apply elem_of_cons in Ho as [->|Ho]; [done|]).
    by apply elem_of_nil in Ho. }
  assert (∀ o, o ∈ COMPARISON →
            includes ["*"; "/"] o = false ∧ includes ["+"; "-"] o = false
            ∧ includes ["="; "<>"; "<"; ">"; "<="; ">="] o = true) as Hlevel3.
  { intros o Ho. unfold COMPARISON in Ho.
    repeat (apply elem_of_cons in Ho as [->|Ho]; [done|]).
    by apply elem_of_nil in Ho. }
  destruct (Hlevel1 add Hadd) as (Hadd1 & Hadd2 & Hadd3).
  destruct (Hlevel1 add' Hadd') as (Hadd1' & Hadd2' & Hadd3').
  pose proof (Hlevel2 mul Hmul) as Hmul1.
  pose proof (Hlevel2 mul' Hmul') as Hmul1'.
  destruct (Hlevel3 cmp Hcmp) as (Hcmp1 & Hcmp2 & Hcmp3).
  subst parsed op. cbv beta.
  unfold parseExpression, parseComparison_with, parseAddition_with,
    parseMultiplication_with.
  cbn [length mbind completion_bind].
  repeat split;
    repeat first
      [ rewrite (parsePrimary_atom _ _ _ _ Ha)
      | rewrite (parsePrimary_atom _ _ _ _ Hb)
      | rewrite (parsePrimary_atom _ _ _ _ Hc)
      | rewrite binary_loop_stop by done
      | rewrite binary_loop_step by done
      | rewrite binary_loop_other by done
      | progress cbn [length mbind completion_bind] ];
    reflexivity.
Qed.

(** X17.  The keyword LET is optional: before an identifier it
    changes nothing to what is parsed, with or without a line number
    in front. *)
Theorem let_keyword_is_optional (t lineToken : token) (rest : list token)
    (name : string) (lineNumber : number) (p : nat) :
  type t = IDENTIFIER name →
  type lineToken = BasicTokenizer.NUMBER lineNumber →
  let keyword := createToken (KEYWORD "LET") p in
  parse (keyword :: t :: rest) = parse (t :: rest)
  ∧ parse (lineToken :: keyword :: t :: rest)
    = parse (lineToken :: t :: rest).
Proof.
  intros Ht Hline keyword.
  assert (parseLet (keyword :: t :: rest) = parseLet (t :: rest)) as Hlet.
  { unfold parseLet, check, at_end. cbn [type keyword]. rewrite Ht.
    cbn [type_name mbind completion_bind advance at_end type negb String.eqb
         Ascii.eqb Bool.eqb value_is]. done. }
  unfold parse. cbn [isAtEnd mbind completion_bind at_end type keyword].
  unfold at_end. rewrite Ht, Hline. cbn [advance mbind completion_bind].
  unfold at_end. rewrite Hline. cbn [mbind completion_bind length].
  cbn [parseStatement type keyword]. rewrite Ht.
  cbn [String.eqb Ascii.eqb Bool.eqb]. by rewrite Hlet.
Qed.

(** X18.  Whatever the tokens are, a node that [parse] returns is an
    empty line, or a statement, with or without a line number: its
    expressions are built from numbers, strings, variables, unary
    minus and the ten binary operators, and what follows THEN is a
    statement again. *)
Theorem parse_returns_well_formed_lines (tokens : list token) (nd : node) :
  parse tokens = Normal nd → is_line nd = true.
Proof. apply parse_is_line. Qed.

(** X26.  What follows END, RUN, NEW, HOME or REM on a line is
    not looked at: whatever tokens come after the keyword, the line
    parses to the bare command (and to a REM program line after a line
    number). *)
Theorem tokens_after_a_command_are_ignored (p q : nat) (lineNumber : number)
    (rest : list token) :
  parse (createToken (KEYWORD "END") p :: rest) = Normal END
  ∧ parse (createToken (KEYWORD "RUN") p :: rest) = Normal RUN
  ∧ parse (createToken (KEYWORD "NEW") p :: rest) = Normal NEW
  ∧ parse (createToken (KEYWORD "HOME") p :: rest) = Normal HOME
  ∧ parse (createToken (KEYWORD "REM") p :: rest) = Normal REM
  ∧ parse (createToken (BasicTokenizer.NUMBER lineNumber) q
           :: createToken (KEYWORD "REM") p :: rest)
    = Normal (PROGRAM_LINE lineNumber REM).
Proof. repeat split; reflexivity. Qed.

End precedence.

(** ** Text on the screen *)

Section screen_text.
Import JS BasicScreen ScreenSpec TextSpec.

(** X19.  Printing a text in two pieces is printing it at once, and
    [println] is [print] followed by a line break. *)
Theorem print_in_pieces (s1 s2 : string) (st : state) :
  print (s1 ++ s2) st
  = match print s1 st with
    | Normal st1 => print s2 st1
    | Thrown message => Thrown message
    | Never why => Never why
    end
  ∧ println s1 st
    = match print s1 st with
      | Normal st1 => Normal (newline st1)
      | Thrown message => Thrown message
      | Never why => Never why
      end.
Proof.
  assert (∀ s2 st,
    print (s1 ++ s2) st
    = match print s1 st with
      | Normal st1 => print s2 st1
      | Thrown message => Thrown message
      | Never why => Never why
      end) as Happend.
  { clear. intros s2. induction s1 as [|c s1 IH]; intros st; [done|].
    rewrite append_cons. cbn [print].
    destruct (Ascii.eqb c (ascii_of_nat 10)); [apply IH|].
    destruct (putChar c st) as [st1| |]; [apply IH|done|done]. }
  split; [apply Happend|]. unfold println. rewrite Happend.
  destruct (print s1 st) as [st1| |]; [|done|done]. done.
Qed.

Lemma putChar_in_row st r c :
  (cursorY st < ROWS)%nat → (cursorX st < COLS)%nat →
  buffer st !! cursorY st = Some r → (cursorX st < length r)%nat →
  putChar c st
  = Normal {| buffer := <[cursorY st := <[cursorX st := Some c]> r]>
                          (buffer st);
              cursorX := S (cursorX st);
              cursorY := cursorY st |}.
Proof.
  intros Hy Hx Hr Hlen. unfold putChar. cbv zeta.
  apply Nat.leb_gt in Hx as ->. apply Nat.leb_gt in Hy as ->.
  rewrite Hr. unfold array_set. by apply Nat.ltb_lt in Hlen as ->.
Qed.

Lemma row_after_char {A : Type} (r : list A) (x n : nat) (c : A)
    (chars : list A) :
  (x < length r)%nat →
  (take (S x) (<[x := c]> r) ++ chars ++ drop (S x + n) (<[x := c]> r)
   = take x r ++ (c :: chars) ++ drop (x + S n) r)%list.
Proof.
  intros Hx. apply list_eq. intros i.
  destruct (decide (i < x)%nat) as [Hlt|Hge].
  - rewrite !lookup_app_l by (rewrite length_take, ?length_insert; lia).
    rewrite !lookup_take_lt by lia. by rewrite list_lookup_insert_ne by lia.
  - rewrite (lookup_app_r (take x r)) by (rewrite length_take; lia).
    rewrite length_take, Nat.min_l by lia.
    destruct (decide (i = x)) as [->|Hne].
    + rewrite lookup_app_l by (rewrite length_take, length_insert; lia).
      rewrite lookup_take_lt by lia. rewrite list_lookup_insert_eq by lia.
      by rewrite Nat.sub_diag.
    + rewrite lookup_app_r by (rewrite length_take, length_insert; lia).
      rewrite length_take, length_insert, Nat.min_l by lia.
      replace (i - x)%nat with (S (i - S x)) by lia.
      change (((c :: chars) ++ drop (x + S n) r)%list !! S (i - S x))
        with ((chars ++ drop (x + S n) r)%list !! (i - S x)).
      destruct (decide (i - S x < length chars)%nat).
      * by rewrite !lookup_app_l by lia.
      * rewrite !lookup_app_r by lia. rewrite !lookup_drop.
        rewrite list_lookup_insert_ne by lia. f_equal. lia.
Qed.

Lemma print_on_row text : ∀ st r,
  no_line_break text = true →
  (cursorY st < ROWS)%nat →
  (cursorX st + String.length text ≤ COLS)%nat →
  buffer st !! cursorY st = Some r → length r = COLS →
  print text st
  = Normal {| buffer :=
                <[cursorY st :=
                    (take (cursorX st) r ++ cells text
                     ++ drop (cursorX st + String.length text) r)%list]>
                  (buffer st);
              cursorX := (cursorX st + String.length text)%nat;
              cursorY := cursorY st |}.
Proof.
  induction text as [|c text IH]; intros st r Htext Hy Hx Hr Hlen.
  - cbn [print String.length cells list_ascii_of_string fmap list_fmap app].
    rewrite Nat.add_0_r, take_drop, list_insert_id by done. by destruct st.
  - cbn [no_line_break] in Htext.
    apply andb_true_iff in Htext as [Hc%negb_true_iff Htext].
    cbn [print String.length] in *. rewrite Hc.
    rewrite (putChar_in_row st r c) by (done || lia).
    rewrite (IH _ (<[cursorX st := Some c]> r)); cbn [buffer cursorX cursorY];
      try done.
    + f_equal. f_equal; [|lia]. rewrite list_insert_insert_eq. f_equal.
      apply (row_after_char r (cursorX st) (String.length text) (Some c)
               (cells text)). lia.
    + lia.
    + apply list_lookup_insert_eq. by eapply lookup_lt_Some.
    + by rewrite length_insert.
Qed.

(** X20.  A text without line break that fits on the rest of the
    cursor row is written there and nowhere else: the cells under it
    now hold its characters, the cells before and after it and the
    other rows keep theirs, and the cursor moves right by its
    length. *)
Theorem printed_text_is_on_the_cursor_row (text : string) (st : state) :
  grid st → no_line_break text = true →
  (cursorX st + String.length text ≤ COLS)%nat →
  ∃ r,
    buffer st !! cursorY st = Some r
    ∧ print text st
      = Normal {| buffer :=
                    <[cursorY st :=
                        (take (cursorX st) r ++ cells text
                         ++ drop (cursorX st + String.length text) r)%list]>
                      (buffer st);
                  cursorX := (cursorX st + String.length text)%nat;
                  cursorY := cursorY st |}.
Proof.
  intros [Hlen Hrows Hy Hx] Htext Hfits.
  destruct (buffer st !! cursorY st) as [r|] eqn:Hr; last first.
  { apply lookup_ge_None_1 in Hr. rewrite Hlen in Hr. unfold ROWS in *. lia. }
  exists r. split; [done|].
  assert (full_row r) as [Hrlen _] by (eapply Forall_lookup_1; eauto).
  apply print_on_row; try done. unfold ROWS in *. lia.
Qed.

End screen_text.

(** ** Typing at the input prompt *)

Section input_mode.
Import JS BasicScreenInput InputSpec.
Context `{Casing}.

Lemma toUpperCase_append (s1 s2 : string) :
  toUpperCase (s1 ++ s2) = toUpperCase s1 ++ toUpperCase s2.
Proof.
  induction s1 as [|c s1 IH]; [done|]. rewrite append_cons. cbn [toUpperCase].
  by rewrite IH, append_assoc.
Qed.

Lemma press_keys (text : string) : ∀ st,
  container st = true → inputMode st = true →
  press (keys_of text) st
  = {| screen := screen st; container := container st;
       inputBuffer := inputBuffer st ++ toUpperCase text;
       inputMode := inputMode st; inputResolve := inputResolve st;
       promises := promises st; resolved := resolved st |}.
Proof.
  induction text as [|c text IH]; intros st Hc Hm.
  - cbn. rewrite append_empty_r. by destruct st.
  - unfold press, keys_of in *. cbn [list_ascii_of_string fmap list_fmap foldl].
    unfold keyHandler at 2. rewrite Hc, Hm. cbn [negb].
    unfold handleInputKeydown.
    replace (String.eqb (key (plain_key c)) "Enter") with false
      by (cbn; by destruct (Ascii.eqb c "E")).
    replace (String.eqb (key (plain_key c)) "Backspace") with false
      by (cbn; by destruct (Ascii.eqb c "B")).
    cbn [plain_key key ctrlKey altKey metaKey String.length Nat.eqb negb andb].
    rewrite IH by done. cbn [screen container inputBuffer inputMode
      inputResolve promises resolved toUpperCase].
    by rewrite Hc, Hm, append_empty_r, !append_assoc.
Qed.

Lemma press_ignored (events : list key_event) (st : state) :
  inputMode st = false → press events st = st.
Proof.
  intros Hm. induction events as [|e events IH]; [done|].
  unfold press in *. cbn [foldl]. unfold keyHandler at 2. rewrite Hm.
  destruct (negb (container st)); exact IH.
Qed.

Lemma press_app (events1 events2 : list key_event) (st : state) :
  press (events1 ++ events2) st = press events2 (press events1 st).
Proof. apply foldl_app. Qed.

Lemma press_cons (e : key_event) (events : list key_event) (st : state) :
  press (e :: events) st = press events (keyHandler e st).
Proof. done. Qed.

(** X21.  What the user types is what the reader of the input gets,
    in upper case.  After [getInput], the keys of a text pressed with
    no modifier and then Enter resolve the promise that [getInput]
    returned with the text typed, upper-cased; the screen moves to the
    next line, the input mode is left, and the keys pressed after
    Enter are ignored. *)
Theorem typed_line_resolves_in_upper_case (prompt text : string)
    (st st1 : state) (promise : nat) (enter : key_event)
    (later : list key_event) :
  container st = true → is_enter enter →
  getInput prompt st = Normal (st1, promise) →
  press (keys_of text ++ enter :: later) st1
  = {| screen := BasicScreen.newline (screen st1); container := true;
       inputBuffer := EmptyString; inputMode := false; inputResolve := None;
       promises := S (promises st);
       resolved := resolved st ++ [(promise, toUpperCase text)] |}.
Proof.
  intros Hc Henter Hget. unfold getInput in Hget.
  destruct (if negb (String.eqb prompt "") then _ else _) as [scr| |];
    [|done|done].
  injection Hget as <- <-.
  rewrite press_app, press_keys, press_cons by done.
  cbn [screen container inputBuffer inputMode inputResolve promises resolved].
  unfold keyHandler. rewrite Hc.
  cbn [negb container inputMode]. unfold handleInputKeydown.
  rewrite Henter. cbn [String.eqb Ascii.eqb Bool.eqb].
  cbn [screen container inputBuffer inputMode inputResolve promises resolved].
  by rewrite press_ignored.
Qed.

Lemma substring_all_but_last (s : string) (c : ascii) :
  String.substring 0 (String.length s) (s ++ String c EmptyString) = s.
Proof.
  induction s as [|a s IH]; [done|]. rewrite append_cons. cbn. by rewrite IH.
Qed.

(** X22.  Backspace takes back the last key: pressed after the key of
    an ASCII character it restores the state before that key, and on
    an empty input it does nothing. *)
Theorem backspace_takes_back_a_key (c : ascii) (backspace : key_event)
    (st : state) :
  container st = true → inputMode st = true → is_backspace backspace →
  (nat_of_ascii c < 128)%nat →
  press [plain_key c; backspace] st = st
  ∧ (inputBuffer st = EmptyString → press [backspace] st = st).
Proof.
  intros Hc Hm Hb Hascii. split.
  - change [plain_key c; backspace]
      with (keys_of (String c EmptyString) ++ [backspace])%list.
    rewrite press_app, press_keys, press_cons by done.
    unfold press. cbn [foldl]. unfold keyHandler.
    cbn [screen container inputBuffer inputMode inputResolve promises resolved].
    rewrite Hc, Hm. cbn [negb]. unfold handleInputKeydown. rewrite Hb.
    cbn [String.eqb Ascii.eqb Bool.eqb inputBuffer toUpperCase].
    unfold char_toUpperCase. apply Nat.ltb_lt in Hascii as ->.
    rewrite append_empty_r.
    cbn [screen container inputBuffer inputMode inputResolve promises resolved].
    unfold slice_but_last. rewrite length_append. cbn [String.length].
    replace (0 <? String.length (inputBuffer st) + 1)%nat with true
      by (symmetry; apply Nat.ltb_lt; lia).
    replace (String.length (inputBuffer st) + 1 - 1)%nat
      with (String.length (inputBuffer st)) by lia.
    rewrite substring_all_but_last. destruct st. cbn in *. by subst.
  - intros Hempty. rewrite press_cons. unfold press. cbn [foldl].
    unfold keyHandler. rewrite Hc, Hm. cbn [negb].
    unfold handleInputKeydown. rewrite Hb, Hempty. done.
Qed.

End input_mode.

(** ** Validating the output of a lesson *)

Section validation.
Import JS BasicScreenInput TutorialValidator.
Context `{Casing}.

Lemma every_line_prefix (patterns : list string) : ∀ actualLines index,
  every_line actualLines index patterns = true
  ↔ patterns `prefix_of` drop index actualLines.
Proof.
  induction patterns as [|pattern rest IH]; intros actualLines index.
  - split; [intros _; apply prefix_nil|done].
  - cbn [every_line]. rewrite andb_true_iff, IH.
    destruct (actualLines !! index) as [l|] eqn:Hl.
    + rewrite (drop_S _ _ _ Hl). rewrite String.eqb_eq. split.
      * intros [-> Hrest]. by apply prefix_cons.
      * intros Hp. split.
        -- by apply prefix_cons_inv_1 in Hp.
        -- by apply prefix_cons_inv_2 in Hp.
    + rewrite (drop_ge actualLines index) by (by apply lookup_ge_None_1).
      split; [by intros [? _]|]. by intros ?%prefix_nil_not.
Qed.

(** X23.  In exact mode the expected lines must be the first lines of
    the output, blank lines and surrounding blanks aside: the output
    is accepted exactly when they are a prefix of its non-blank
    trimmed lines, so that whatever the program prints after them is
    accepted too.  With nothing expected, any non-empty output is
    accepted. *)
Theorem exact_match_is_a_prefix (actual : string) (expected : list string) :
  (expected ≠ [] →
   compareOutput actual expected true false = true
   ↔ expected `prefix_of`
       List.filter nonempty
         (List.map BasicTokenizer.trim (split_lines actual)))
  ∧ (compareOutput actual [] true false = true ↔ actual ≠ EmptyString).
Proof.
  split.
  - intros Hne. unfold compareOutput.
    destruct expected as [|pattern rest]; [done|]. cbn [length Nat.eqb negb].
    by rewrite every_line_prefix.
  - cbn. by destruct actual.
Qed.

Lemma trim_start_split (s : string) :
  ∃ blanks, s = blanks ++ BasicTokenizer.trim_start s.
Proof.
  induction s as [|c s IH]; [by exists EmptyString|].
  cbn [BasicTokenizer.trim_start].
  destruct (BasicTokenizer.is_whitespace c); [|by exists EmptyString].
  destruct IH as [blanks IH]. exists (String c blanks).
  by rewrite append_cons, <-IH.
Qed.

Lemma trim_split (s : string) :
  ∃ before after, s = before ++ BasicTokenizer.trim s ++ after.
Proof.
  unfold BasicTokenizer.trim.
  destruct (trim_start_split s) as [before Hs].
  destruct (trim_start_split (String.rev (BasicTokenizer.trim_start s)))
    as [after Hrev].
  exists before, (String.rev after).
  rewrite <-rev_append, <-Hrev, rev_involutive. exact Hs.
Qed.

Lemma split_lines_head (s : string) :
  ∃ l ls after, split_lines s = l :: ls ∧ s = l ++ after.
Proof.
  induction s as [|c s IH]; cbn [split_lines].
  - by exists EmptyString, [], EmptyString.
  - destruct (Ascii.eqb c line_feed).
    + by exists EmptyString, (split_lines s), (String c s).
    + destruct IH as (l & ls & after & -> & ->).
      by exists (String c l), ls, after.
Qed.

Lemma split_lines_split (s : string) :
  ∀ l, l ∈ split_lines s → ∃ before after, s = before ++ l ++ after.
Proof.
  induction s as [|c s IH]; intros l; cbn [split_lines].
  - intros ->%list_elem_of_singleton. by exists EmptyString, EmptyString.
  - destruct (Ascii.eqb c line_feed).
    + intros [->|Hl]%elem_of_cons.
      * by exists EmptyString, (String c s).
      * destruct (IH l Hl) as (before & after & ->).
        by exists (String c before), after.
    + destruct (split_lines_head s) as (l0 & ls & after0 & Hlines & Hs).
      rewrite Hlines in *. intros [->|Hl]%elem_of_cons.
      * exists EmptyString, after0. by rewrite Hs.
      * destruct (IH l) as (before & after & Hl'); [by right|].
        exists (String c before), after. by rewrite Hl' at 1.
Qed.

(** X24.  An output that is accepted in exact mode is accepted in
    partial mode as well, with the same expected lines and the same
    setting for the case: every expected line is then a part of the
    output. *)
Theorem exact_match_is_a_partial_match (actual : string)
    (expected : list string) (caseSensitive_ : bool) :
  compareOutput actual expected caseSensitive_ false = true →
  compareOutput actual expected caseSensitive_ true = true.
Proof.
  unfold compareOutput. destruct (length expected =? 0)%nat; [done|].
  cbv zeta.
  generalize (if negb caseSensitive_ then toUpperCase actual else actual).
  generalize (if negb caseSensitive_ then List.map toUpperCase expected
              else expected).
  clear. intros patterns text. rewrite every_line_prefix, drop_0.
  intros [later Hlines]. apply forallb_forall. intros pattern Hin.
  assert (In pattern (List.filter nonempty
                        (List.map BasicTokenizer.trim (split_lines text))))
    as Hpattern.
  { rewrite Hlines. apply in_or_app. by left. }
  apply filter_In in Hpattern as [Hpattern _].
  apply in_map_iff in Hpattern as (l & <- & Hl%list_elem_of_In).
  apply string_includes_spec.
  destruct (split_lines_split text l Hl) as (before & after & ->).
  destruct (trim_split l) as (before' & after' & Htrim).
  exists (before ++ before'), (after' ++ after).
  rewrite Htrim at 1. by rewrite !append_assoc.
Qed.

End validation.

(** ** Closed instances of the properties above *)

Section closed_sessions.
Import JS BasicInterpreter InterpreterSpec SessionSpec ListingSpec SyntaxSpec
  ErrorSpec.
#[local] Existing Instance sample_runtime.


Lemma loop_variables_stay_bound_witness :
  loops_bound (session 0 ["FOR I = 1 TO 3"; "PRINT I"] fresh).1.
Proof.
  apply (loop_variables_stay_bound 0 ["FOR I = 1 TO 3"; "PRINT I"] fresh).
  constructor.
Defined.

Lemma store_holds_lines_as_typed_witness :
  stored_as_typed (session 0 ["10 PRINT 1"; "20 GOTO 10"] fresh).1.
Proof.
  apply (store_holds_lines_as_typed 0 ["10 PRINT 1"; "20 GOTO 10"] fresh).
  by intros key line Hline.
Defined.

Lemma evaluation_is_repeatable_witness :
  evaluate (BINARY "+" (VARIABLE "A") (NUMBER (of_Z 1)))
    {["A" := VNum (of_Z 0)]}
  = ({["A" := VNum (of_Z 0)]}, Normal (VNum (of_Z 1))).
Proof.
  apply (evaluation_is_repeatable
           (BINARY "+" (VARIABLE "A") (NUMBER (of_Z 1))) ∅
           {["A" := VNum (of_Z 0)]} {["A" := VNum (of_Z 0)]}
           (Normal (VNum (of_Z 1)))).
  - by vm_compute.
  - intros name. by left.
Defined.

Lemma expression_raises_only_division_by_zero_witness :
  is_expression (BINARY "/" (VARIABLE "A") (NUMBER (of_Z 0))) = true
  ∧ ∃ message,
      evaluate (BINARY "/" (VARIABLE "A") (NUMBER (of_Z 0))) ∅
      = ({["A" := VNum (of_Z 0)]}, Thrown message)
      ∧ message = "?DIVISION BY ZERO ERROR".
Proof.
  split; [reflexivity|]. exists "?DIVISION BY ZERO ERROR".
  split; [by vm_compute|].
  apply (expression_raises_only_division_by_zero
           (BINARY "/" (VARIABLE "A") (NUMBER (of_Z 0))) ∅
           {["A" := VNum (of_Z 0)]} "?DIVISION BY ZERO ERROR");
    [reflexivity|by vm_compute].
Defined.



Lemma numbered_line_is_stored_witness :
  (executeImmediate 0 "10 PRINT 1" fresh).2 = Normal ()
  ∧ program (executeImmediate 0 "10 PRINT 1" fresh).1 !! Map_key (of_Z 10)
    = Some {| source := "10 PRINT 1"; ast := PRINT [NUMBER (of_Z 1)] [] |}
  ∧ (∀ key, key ≠ Map_key (of_Z 10) →
       program (executeImmediate 0 "10 PRINT 1" fresh).1 !! key
       = program fresh !! key)
  ∧ variables (executeImmediate 0 "10 PRINT 1" fresh).1 = variables fresh
  ∧ forStack (executeImmediate 0 "10 PRINT 1" fresh).1 = forStack fresh
  ∧ trace (executeImmediate 0 "10 PRINT 1" fresh).1 = trace fresh.
Proof.
  apply (numbered_line_is_stored 0 "10 PRINT 1"
           [createToken (BasicTokenizer.NUMBER (of_Z 10)) 0;
            createToken (KEYWORD "PRINT") 3;
            createToken (BasicTokenizer.NUMBER (of_Z 1)) 9;
            createToken EOL 10]
           (of_Z 10) (PRINT [NUMBER (of_Z 1)] []) fresh);
    [by vm_compute|by vm_compute|discriminate].
Defined.

Lemma assigned_value_is_read_back_witness :
  ∃ vars v,
    evaluate (STRING "HELLO") (variables fresh) = (vars, Normal v)
    ∧ variables (set_variables {["A" := VStr "HELLO"]} fresh)
      = <["A" := v]> vars
    ∧ evaluate (VARIABLE "A")
        (variables (set_variables {["A" := VStr "HELLO"]} fresh))
      = (variables (set_variables {["A" := VStr "HELLO"]} fresh), Normal v)
    ∧ program (set_variables {["A" := VStr "HELLO"]} fresh) = program fresh
    ∧ forStack (set_variables {["A" := VStr "HELLO"]} fresh) = forStack fresh
    ∧ trace (set_variables {["A" := VStr "HELLO"]} fresh) = trace fresh.
Proof.
  apply (assigned_value_is_read_back 0 "A" (STRING "HELLO") fresh
           (set_variables {["A" := VStr "HELLO"]} fresh)).
  by vm_compute.
Defined.

Lemma next_with_zero_step_leaves_loop_witness :
  executeNext (Some "I")
    (set_forStack
       [{| variable := "I"; endValue := VNum (of_Z 3);
           stepValue := VNum (of_Z 0); bodyStart := of_Z 10 |}] fresh)
  = (set_forStack []
       (set_forStack
          [{| variable := "I"; endValue := VNum (of_Z 3);
              stepValue := VNum (of_Z 0); bodyStart := of_Z 10 |}] fresh),
     Normal ()).
Proof.
  apply (next_with_zero_step_leaves_loop (Some "I") _
           {| variable := "I"; endValue := VNum (of_Z 3);
              stepValue := VNum (of_Z 0); bodyStart := of_Z 10 |} []
           (of_Z 0));
    [reflexivity|reflexivity|reflexivity|by left].
Defined.


End closed_sessions.

Section closed_syntax.
Import JS BasicParser InterpreterSpec TokenSpec SyntaxSpec PrecedenceSpec
  BoundsSpec.
#[local] Existing Instance sample_runtime.

Lemma tokens_end_with_one_EOL_witness :
  ∃ body eol,
    [createToken (IDENTIFIER "A") 0; createToken (OPERATOR "+") 1;
     createToken EOL 3]
    = (body ++ [createToken EOL eol])%list
    ∧ Forall (λ t, at_end t = false) body
    ∧ ascending
        (position <$> [createToken (IDENTIFIER "A") 0;
                       createToken (OPERATOR "+") 1; createToken EOL 3])
      = true
    ∧ (String.length (trim "A+") ≤ eol ≤ S (String.length (trim "A+")))%nat.
Proof.
  apply (tokens_end_with_one_EOL "A+"). by vm_compute.
Defined.

Lemma tokens_are_well_classified_witness :
  Forall (λ t, type t = EOL ∨ well_classified (type t) = true)
    [createToken (KEYWORD "PRINT") 0; createToken (IDENTIFIER "TOTAL$") 6;
     createToken EOL 12].
Proof.
  apply (tokens_are_well_classified "print total$"). by vm_compute.
Defined.

Lemma tokenize_fails_on_unknown_character_witness :
  ∃ c pos,
    "Unknown character: '?' at position 2" = unknown_character_message c pos
    ∧ String.get pos (trim "A=?") = Some c
    ∧ unknown_character c = true.
Proof.
  apply (tokenize_fails_on_unknown_character "A=?"). by vm_compute.
Defined.

Lemma surrounding_blanks_are_ignored_witness :
  tokenize ("  " ++ "RUN" ++ " ") = tokenize "RUN".
Proof.
  apply (surrounding_blanks_are_ignored "  " " " "RUN"); reflexivity.
Defined.

Lemma operators_bind_by_level_witness :
  parseExpression
    [createToken (BasicTokenizer.NUMBER (of_Z 1)) 0;
     createToken (OPERATOR "+") 1;
     createToken (BasicTokenizer.NUMBER (of_Z 2)) 2;
     createToken (OPERATOR "*") 3;
     createToken (BasicTokenizer.NUMBER (of_Z 3)) 4;
     createToken EOL 5]
  = Normal (BINARY "+" (NUMBER (of_Z 1))
              (BINARY "*" (NUMBER (of_Z 2)) (NUMBER (of_Z 3))),
            [createToken EOL 5]).
Proof.
  refine (proj1 (operators_bind_by_level
           (createToken (BasicTokenizer.NUMBER (of_Z 1)) 0)
           (createToken (BasicTokenizer.NUMBER (of_Z 2)) 2)
           (createToken (BasicTokenizer.NUMBER (of_Z 3)) 4)
           (createToken EOL 5) []
           (NUMBER (of_Z 1)) (NUMBER (of_Z 2)) (NUMBER (of_Z 3))
           "+" "-" "*" "/" "<" 1 3 eq_refl eq_refl eq_refl eq_refl _ _ _ _ _)).
  - apply list_elem_of_here.
  - apply list_elem_of_further, list_elem_of_here.
  - apply list_elem_of_here.
  - apply list_elem_of_further, list_elem_of_here.
  - do 2 apply list_elem_of_further. apply list_elem_of_here.
Defined.

Lemma let_keyword_is_optional_witness :
  parse [createToken (KEYWORD "LET") 0; createToken (IDENTIFIER "A") 4;
         createToken (OPERATOR "=") 5;
         createToken (BasicTokenizer.NUMBER (of_Z 1)) 6; createToken EOL 7]
  = parse [createToken (IDENTIFIER "A") 4; createToken (OPERATOR "=") 5;
           createToken (BasicTokenizer.NUMBER (of_Z 1)) 6; createToken EOL 7].
Proof.
  apply (let_keyword_is_optional
           (createToken (IDENTIFIER "A") 4)
           (createToken (BasicTokenizer.NUMBER (of_Z 10)) 0)
           [createToken (OPERATOR "=") 5;
            createToken (BasicTokenizer.NUMBER (of_Z 1)) 6; createToken EOL 7]
           "A" (of_Z 10) 0); reflexivity.
Defined.

Lemma parse_returns_well_formed_lines_witness :
  is_line (IF (BINARY "<" (VARIABLE "A") (NUMBER (of_Z 3)))
             (GOTO (of_Z 10))) = true.
Proof.
  apply (parse_returns_well_formed_lines
           [createToken (KEYWORD "IF") 0; createToken (IDENTIFIER "A") 3;
            createToken (OPERATOR "<") 4;
            createToken (BasicTokenizer.NUMBER (of_Z 3)) 5;
            createToken (KEYWORD "THEN") 7;
            createToken (BasicTokenizer.NUMBER (of_Z 10)) 12;
            createToken EOL 14]).
  by vm_compute.
Defined.

Lemma parser_stays_within_the_line_witness :
  closed [createToken (KEYWORD "PRINT") 0; createToken (OPERATOR "+") 6;
          createToken EOL 8]
  ∧ parse [createToken (KEYWORD "PRINT") 0; createToken (OPERATOR "+") 6;
           createToken EOL 8]
    ≠ Thrown TypeError_undefined.
Proof.
  apply (parser_stays_within_the_line "PRINT +"). by vm_compute.
Defined.

End closed_syntax.

Section closed_screen.
Import JS BasicScreen ScreenSpec TextSpec.

Lemma printed_text_is_on_the_cursor_row_witness :
  ∃ r,
    buffer initBuffer !! cursorY initBuffer = Some r
    ∧ print "READY" initBuffer
      = Normal {| buffer :=
                    <[cursorY initBuffer :=
                        (take (cursorX initBuffer) r ++ cells "READY"
                         ++ drop (cursorX initBuffer + String.length "READY")
                              r)%list]>
                      (buffer initBuffer);
                  cursorX := (cursorX initBuffer + String.length "READY")%nat;
                  cursorY := cursorY initBuffer |}.
Proof.
  apply (printed_text_is_on_the_cursor_row "READY" initBuffer);
    [apply grid_initBuffer|reflexivity|].
  cbn. unfold COLS. lia.
Defined.

End closed_screen.

Section closed_input.
Import JS BasicScreenInput InputSpec TutorialValidator.
#[local] Existing Instance sample_casing.

Lemma typed_line_resolves_in_upper_case_witness :
  press (keys_of "run" ++ [{| key := "Enter"; ctrlKey := false;
                             altKey := false; metaKey := false |}])
    {| screen := BasicScreen.initBuffer; container := true;
       inputBuffer := EmptyString; inputMode := true;
       inputResolve := Some 0%nat; promises := 1; resolved := [] |}
  = {| screen := BasicScreen.newline BasicScreen.initBuffer;
       container := true; inputBuffer := EmptyString; inputMode := false;
       inputResolve := None; promises := 1;
       resolved := [(0%nat, "RUN")] |}.
Proof.
  apply (typed_line_resolves_in_upper_case EmptyString "run"
           (init initial_state)
           {| screen := BasicScreen.initBuffer; container := true;
              inputBuffer := EmptyString; inputMode := true;
              inputResolve := Some 0%nat; promises := 1; resolved := [] |}
           0%nat
           {| key := "Enter"; ctrlKey := false; altKey := false;
              metaKey := false |} []); reflexivity.
Defined.

Lemma backspace_takes_back_a_key_witness :
  press [plain_key "a";
         {| key := "Backspace"; ctrlKey := false; altKey := false;
            metaKey := false |}]
    {| screen := BasicScreen.initBuffer; container := true;
       inputBuffer := "RU"; inputMode := true;
       inputResolve := Some 0%nat; promises := 1; resolved := [] |}
  = {| screen := BasicScreen.initBuffer; container := true;
       inputBuffer := "RU"; inputMode := true;
       inputResolve := Some 0%nat; promises := 1; resolved := [] |}
  ∧ (inputBuffer
       {| screen := BasicScreen.initBuffer; container := true;
          inputBuffer := "RU"; inputMode := true;
          inputResolve := Some 0%nat; promises := 1; resolved := [] |}
     = EmptyString →
     press [{| key := "Backspace"; ctrlKey := false; altKey := false;
               metaKey := false |}]
       {| screen := BasicScreen.initBuffer; container := true;
          inputBuffer := "RU"; inputMode := true;
          inputResolve := Some 0%nat; promises := 1; resolved := [] |}
     = {| screen := BasicScreen.initBuffer; container := true;
          inputBuffer := "RU"; inputMode := true;
          inputResolve := Some 0%nat; promises := 1; resolved := [] |}).
Proof.
  apply (backspace_takes_back_a_key "a"
           {| key := "Backspace"; ctrlKey := false; altKey := false;
              metaKey := false |}
           {| screen := BasicScreen.initBuffer; container := true;
              inputBuffer := "RU"; inputMode := true;
              inputResolve := Some 0%nat; promises := 1; resolved := [] |});
    try reflexivity.
  apply Nat.ltb_lt. reflexivity.
Defined.

Lemma exact_match_is_a_partial_match_witness :
  compareOutput "HELLO" ["hello"] false true = true.
Proof.
  apply (exact_match_is_a_partial_match "HELLO" ["hello"] false).
  reflexivity.
Defined.

End closed_input.

